(** * ecosnail::flat: the Point and Vector value types

    A shallow embedding of [include/ecosnail/flat/vector.hpp] and
    [include/ecosnail/flat/point.hpp].

    Both headers are templates over an element type [T].  The element type is
    an interface here ([Elem]), with these instances:
    - [signed w], the signed integers of [w] binary digits in two's
      complement, as the machine has them: [int] is [signed 32] and
      [long long] is [signed 64].  Sums, differences and products wrap
      around, a quotient that does not fit is undefined, and the square root
      goes through [double] as [std::sqrt] does;
    - [Z], the integers without a bound.  No element type of the library is
      unbounded: [Z] is what [signed w] computes as long as no result leaves
      the range of the type ([signed_add_exact] and the lemmas next to it),
      and what it computes modulo [2 ^ w] otherwise ([signed_add_mod] and its
      neighbours).  Equations between sums, differences and products, and
      properties of the comparisons, are stated on [Z]; whatever depends on
      the size of a result is stated on [signed w], under the hypothesis
      that the results fit where it needs one;
    - [float], the IEEE 754 binary64 type [double], as Rocq's primitive floats.

    Equations between results hold on the integers, where the arithmetic is
    exact, and are evaluated on [double], where it rounds.  The order
    properties hold on the integers and, apart from NaN, on [double].

    A binary operator of the headers on operands of element types [L] and [R]
    yields [std::common_type_t<L, R>]; the embedding instantiates [L = R = T],
    for which the common type is [T] itself. *)

From Stdlib Require Import ZArith Lia Bool List Floats Uint63 Permutation Sorted.
From Stdlib Require Import Ascii String.
From stdpp Require Import base option gmap strings pretty.

Set Default Proof Using "Type".

(** ** The element type *)

(** What the headers use of [T].  [None] is undefined behaviour. *)
Class Elem (T : Type) : Type := {
  (** [T{}], also the literal [0] converted to [T] *)
  e_zero : T;
  (** [a + b], [a - b], [a * b] *)
  e_add : T -> T -> T;
  e_sub : T -> T -> T;
  e_mul : T -> T -> T;
  (** [a / b]; undefined when [b] is zero *)
  e_div : T -> T -> option T;
  (** [std::sqrt(a)] converted back to [T], as in [T r = std::sqrt(a);] *)
  e_sqrt : T -> option T;
  (** [a == b], [a <= b], [a < b] *)
  e_eq : T -> T -> bool;
  e_le : T -> T -> bool;
  e_lt : T -> T -> bool
}.

(** The integers without a bound: the arithmetic that a signed integral
    element type follows while its results fit.  Division truncates towards
    zero, and the square root is the integer square root.  What a machine
    integer does beyond that, where a result does not fit or where the
    square root of [double] rounds, is in [signed_elem] below;
    [signed_sqrt_exact] and its neighbours relate the two. *)
#[export] Instance int_elem : Elem Z := {|
  e_zero := 0%Z;
  e_add := Z.add;
  e_sub := Z.sub;
  e_mul := Z.mul;
  e_div := fun a b => if (b =? 0)%Z then None else Some (Z.quot a b);
  e_sqrt := fun a => if (a <? 0)%Z then None else Some (Z.sqrt a);
  e_eq := Z.eqb;
  e_le := Z.leb;
  e_lt := Z.ltb
|}.

(** The route that [std::sqrt] takes on an integer, step by step: the
    conversion of the integer to [double], which rounds to the nearest
    [double] and is exact up to [2 ^ 53]; the square root of [double]; and
    the conversion back, which drops the fraction and is undefined in the
    language on NaN and on the infinities. *)
Definition int_to_double (n : Z) : float :=
  if (n <? 0)%Z then PrimFloat.opp (PrimFloat.of_uint63 (Uint63.of_Z (- n)))
  else PrimFloat.of_uint63 (Uint63.of_Z n).

Definition double_to_int (f : float) : option Z :=
  match Prim2SF f with
  | S754_zero _ => Some 0%Z
  | S754_finite sign m e =>
      let magnitude :=
        if (0 <=? e)%Z then (Z.pos m * 2 ^ e)%Z else (Z.pos m / 2 ^ (- e))%Z in
      Some (if sign then (- magnitude)%Z else magnitude)
  | S754_infinity _ | S754_nan => None
  end.

Definition sqrt_via_double (n : Z) : option Z :=
  double_to_int (PrimFloat.sqrt (int_to_double n)).

(** Signed machine integers of [w] binary digits, in two's complement: the
    values from [int_min w] to [int_max w]. *)
Definition int_min (w : Z) : Z := (- 2 ^ (w - 1))%Z.
Definition int_max (w : Z) : Z := (2 ^ (w - 1) - 1)%Z.

Definition in_range (w z : Z) : Prop := (int_min w <= z <= int_max w)%Z.

(** The value in range that differs from [z] by a multiple of [2 ^ w]. *)
Definition wrap (w z : Z) : Z := ((z - int_min w) mod 2 ^ w + int_min w)%Z.

Record signed (w : Z) : Type := Signed { value : Z }.
Arguments Signed {w} value.
Arguments value {w} s.

(** [int] and [long long] *)
Abbreviation c_int := (signed 32).
Abbreviation c_long_long := (signed 64).

(** A signed integral element type of the rank of [int] or above.  The
    language leaves three things undefined that the machine nevertheless
    computes, and the instance follows the machine, an x86-64 one, in the
    two that do not stop the program:
    - a sum, difference or product that does not fit wraps around;
    - the conversion to an integer of a NaN, which is what [std::sqrt] gives
      for a negative argument, yields the most negative integer;
    - the quotient of the most negative integer by [-1] raises a signal, as
      the division by zero does: both are [None]. *)
#[export] Instance signed_elem (w : Z) : Elem (signed w) := {|
  e_zero := Signed 0%Z;
  e_add := fun a b => Signed (wrap w (value a + value b));
  e_sub := fun a b => Signed (wrap w (value a - value b));
  e_mul := fun a b => Signed (wrap w (value a * value b));
  e_div := fun a b =>
    if (value b =? 0)%Z then None
    else if (value a =? int_min w)%Z && (value b =? -1)%Z then None
    else Some (Signed (Z.quot (value a) (value b)));
  e_sqrt := fun a =>
    if (value a <? 0)%Z then Some (Signed (int_min w))
    else match sqrt_via_double (value a) with
         | Some r => Some (Signed r)
         | None => None
         end;
  e_eq := fun a b => (value a =? value b)%Z;
  e_le := fun a b => (value a <=? value b)%Z;
  e_lt := fun a b => (value a <? value b)%Z
|}.

(** [double].  The comparisons are the IEEE ones: every comparison with a NaN
    is false, and the two zeros are equal.  A division whose divisor compares
    equal to zero is undefined in the language; it is kept apart here so that
    a caller's guard against it can be stated. *)
#[export] Instance double_elem : Elem float := {|
  e_zero := 0%float;
  e_add := PrimFloat.add;
  e_sub := PrimFloat.sub;
  e_mul := PrimFloat.mul;
  e_div := fun a b => if PrimFloat.eqb b 0 then None else Some (PrimFloat.div a b);
  e_sqrt := fun a => Some (PrimFloat.sqrt a);
  e_eq := PrimFloat.eqb;
  e_le := PrimFloat.leb;
  e_lt := PrimFloat.ltb
|}.

(** What [output << t] appends to a stream for a value of the element type,
    the stream being in its initial formatting state. *)
Class Output (T : Type) : Type := e_out : T -> string.

(** An integer is written in decimal, with [-] before a negative one. *)
#[export] Instance int_output : Output Z := pretty.

(** The two data members of either struct, as the pointers to members
    [&Vector::x] and [&Vector::y]. *)
Inductive member : Type := member_x | member_y.

(** What a call that contains an [assert] comes to. *)
Inductive outcome (A : Type) : Type :=
  | Returns (a : A)
  | AssertionFailed
  | Undefined.
Arguments Returns {A} a.
Arguments AssertionFailed {A}.
Arguments Undefined {A}.

(** ** vector.hpp *)

Module vector_hpp.

Record Vector (T : Type) : Type := mkVector { x : T; y : T }.
Arguments mkVector {T} x y.
Arguments x {T} v.
Arguments y {T} v.

Section Operators.
Context {T : Type} `{Elem T}.

(** [Vector()] *)
Definition default : Vector T := mkVector e_zero e_zero.

(** [this->*m] *)
Definition get (m : member) (v : Vector T) : T :=
  match m with member_x => x v | member_y => y v end.

Definition set (m : member) (t : T) (v : Vector T) : Vector T :=
  match m with
  | member_x => mkVector t (y v)
  | member_y => mkVector (x v) t
  end.

(** The table [ptrs] of [operator[]]. *)
Definition ptrs : list member := [member_x; member_y].

(** [operator[]]: which member the returned reference designates.  [ndebug]
    tells whether [assert] is compiled out; then an index past the table
    reads outside it.  The two overloads have this one body.  The overload
    for an object that is not [const] returns it as [T&], while the entries
    of [ptrs] point to [const] members; only the [const] overload, which
    returns [const T&], is embedded as a function of the struct. *)
Definition operator_index_member (ndebug : bool) (idx : N) : outcome member :=
  if negb ndebug && negb (idx <? 2)%N then AssertionFailed
  else match nth_error ptrs (N.to_nat idx) with
       | Some m => Returns m
       | None => Undefined
       end.

(** [v[idx]] read as a value. *)
Definition operator_index (ndebug : bool) (v : Vector T) (idx : N) : outcome T :=
  match operator_index_member ndebug idx with
  | Returns m => Returns (get m v)
  | AssertionFailed => AssertionFailed
  | Undefined => Undefined
  end.

(** [operator+], [operator-] *)
Definition operator_plus (lhs rhs : Vector T) : Vector T :=
  mkVector (e_add (x lhs) (x rhs)) (e_add (y lhs) (y rhs)).

Definition operator_minus (lhs rhs : Vector T) : Vector T :=
  mkVector (e_sub (x lhs) (x rhs)) (e_sub (y lhs) (y rhs)).

(** [operator*], vector first and scalar first *)
Definition operator_mul (vector : Vector T) (scalar : T) : Vector T :=
  mkVector (e_mul (x vector) scalar) (e_mul (y vector) scalar).

Definition operator_mul_scalar_first (scalar : T) (vector : Vector T) : Vector T :=
  operator_mul vector scalar.

(** [operator/] *)
Definition operator_div (vector : Vector T) (scalar : T) : option (Vector T) :=
  qx ← e_div (x vector) scalar;
  qy ← e_div (y vector) scalar;
  Some (mkVector qx qy).

(** [operator==], [operator!=] *)
Definition operator_eq (lhs rhs : Vector T) : bool :=
  e_eq (x lhs) (x rhs) && e_eq (y lhs) (y rhs).

Definition operator_ne (lhs rhs : Vector T) : bool :=
  negb (operator_eq lhs rhs).

(** [operator<=], [operator>=], [operator<], [operator>] *)
Definition operator_le (lhs rhs : Vector T) : bool :=
  e_le (x lhs) (x rhs) && e_le (y lhs) (y rhs).

Definition operator_ge (lhs rhs : Vector T) : bool :=
  operator_le rhs lhs.

Definition operator_lt (lhs rhs : Vector T) : bool :=
  operator_le lhs rhs && operator_ne lhs rhs.

Definition operator_gt (lhs rhs : Vector T) : bool :=
  operator_lt rhs lhs.

(** [length] *)
Definition length (v : Vector T) : option T :=
  e_sqrt (e_add (e_mul (x v) (x v)) (e_mul (y v) (y v))).

(** [normalized] *)
Definition normalized (v : Vector T) : option (Vector T) :=
  l ← length v;
  if e_eq l e_zero then Some default else operator_div v l.

(** [std::less<Vector<T>>]: [std::tie(lhs.x, lhs.y) < std::tie(rhs.x, rhs.y)],
    with the comparison of tuples written out. *)
Definition less (lhs rhs : Vector T) : bool :=
  e_lt (x lhs) (x rhs)
  || (negb (e_lt (x rhs) (x lhs)) && e_lt (y lhs) (y rhs)).
End Operators.


(** *** The member functions that act through references

    [operator+=] and its siblings change the object [*this] and read their
    argument through a [const] reference, which may designate [*this] or one of
    its members.  Objects are therefore kept in a store and named by address. *)

Record Store (T : Type) : Type := mkStore {
  vectors : gmap nat (Vector T);
  scalars : gmap nat T
}.
Arguments mkStore {T} vectors scalars.
Arguments vectors {T} s.
Arguments scalars {T} s.

(** What a [T&] designates: an object of type [T] of its own, or a data
    member of a vector. *)
Inductive scalar_ref : Type :=
  | ref_scalar (a : nat)
  | ref_member (a : nat) (m : member).

(** A computation on the store; [None] is undefined behaviour. *)
Definition M (T A : Type) : Type := Store T -> option (A * Store T).

#[global] Instance M_ret {T} : MRet (M T) := fun A a s => Some (a, s).
#[global] Instance M_bind {T} : MBind (M T) := fun A B f c s =>
  match c s with
  | Some (a, s') => f a s'
  | None => None
  end.

Section Members.
Context {T : Type} `{Elem T}.

Definition lift {A} (o : option A) : M T A :=
  fun s => match o with Some a => Some (a, s) | None => None end.

Definition read_member (a : nat) (m : member) : M T T :=
  fun s => match vectors s !! a with
           | Some v => Some (get m v, s)
           | None => None
           end.

Definition write_member (a : nat) (m : member) (t : T) : M T unit :=
  fun s => match vectors s !! a with
           | Some v => Some (tt, mkStore (<[a := set m t v]> (vectors s)) (scalars s))
           | None => None
           end.

Definition read_ref (r : scalar_ref) : M T T :=
  match r with
  | ref_scalar a => fun s => match scalars s !! a with
                             | Some t => Some (t, s)
                             | None => None
                             end
  | ref_member a m => read_member a m
  end.

(** [m op= r] on a member of [*this], for a built-in [op]: [m = m op r]
    with [m] evaluated once. *)
Definition update_member (op : T -> T -> option T) (this : nat) (m : member)
    (r : T) : M T unit :=
  l ← read_member this m;
  t ← lift (op l r);
  write_member this m t.

Definition total (op : T -> T -> T) : T -> T -> option T :=
  fun a b => Some (op a b).

(** [operator+=], [operator-=]: the value is the returned reference. *)
Definition operator_plus_assign (this rhs : nat) : M T nat :=
  r ← read_member rhs member_x;
  update_member (total e_add) this member_x r;;
  r ← read_member rhs member_y;
  update_member (total e_add) this member_y r;;
  mret this.

Definition operator_minus_assign (this rhs : nat) : M T nat :=
  r ← read_member rhs member_x;
  update_member (total e_sub) this member_x r;;
  r ← read_member rhs member_y;
  update_member (total e_sub) this member_y r;;
  mret this.

(** [operator*=], [operator/=] *)
Definition operator_mul_assign (this : nat) (scalar : scalar_ref) : M T nat :=
  r ← read_ref scalar;
  update_member (total e_mul) this member_x r;;
  r ← read_ref scalar;
  update_member (total e_mul) this member_y r;;
  mret this.

Definition operator_div_assign (this : nat) (scalar : scalar_ref) : M T nat :=
  r ← read_ref scalar;
  update_member e_div this member_x r;;
  r ← read_ref scalar;
  update_member e_div this member_y r;;
  mret this.
End Members.

(** *** Stream output

    A stream is the text written to it so far; [operator<<] returns the
    stream it was given, with the two members and [", "] between them
    appended. *)
Definition operator_output {T : Type} `{Output T} (output : string)
    (vector : Vector T) : string :=
  output +:+ e_out (x vector) +:+ ", " +:+ e_out (y vector).

End vector_hpp.

(** ** point.hpp *)

Module point_hpp.

Import vector_hpp.

Record Point (T : Type) : Type := mkPoint { x : T; y : T }.
Arguments mkPoint {T} x y.
Arguments x {T} p.
Arguments y {T} p.

Section Operators.
Context {T : Type} `{Elem T}.

(** [Point()] *)
Definition default : Point T := mkPoint e_zero e_zero.

Definition get (m : member) (p : Point T) : T :=
  match m with member_x => x p | member_y => y p end.

Definition set (m : member) (t : T) (p : Point T) : Point T :=
  match m with
  | member_x => mkPoint t (y p)
  | member_y => mkPoint (x p) t
  end.

Definition ptrs : list member := [member_x; member_y].

(** [operator[]] *)
Definition operator_index_member (ndebug : bool) (idx : N) : outcome member :=
  if negb ndebug && negb (idx <? 2)%N then AssertionFailed
  else match nth_error ptrs (N.to_nat idx) with
       | Some m => Returns m
       | None => Undefined
       end.

Definition operator_index (ndebug : bool) (p : Point T) (idx : N) : outcome T :=
  match operator_index_member ndebug idx with
  | Returns m => Returns (get m p)
  | AssertionFailed => AssertionFailed
  | Undefined => Undefined
  end.

(** [operator+] and [operator-] of a point and a vector *)
Definition operator_plus (lhs : Point T) (rhs : Vector T) : Point T :=
  mkPoint (e_add (x lhs) (vector_hpp.x rhs)) (e_add (y lhs) (vector_hpp.y rhs)).

Definition operator_minus (lhs : Point T) (rhs : Vector T) : Point T :=
  mkPoint (e_sub (x lhs) (vector_hpp.x rhs)) (e_sub (y lhs) (vector_hpp.y rhs)).

(** [operator-] of two points *)
Definition operator_minus_point (lhs rhs : Point T) : Vector T :=
  mkVector (e_sub (x lhs) (x rhs)) (e_sub (y lhs) (y rhs)).

(** [operator==], [operator!=] *)
Definition operator_eq (lhs rhs : Point T) : bool :=
  e_eq (x lhs) (x rhs) && e_eq (y lhs) (y rhs).

Definition operator_ne (lhs rhs : Point T) : bool :=
  negb (operator_eq lhs rhs).

(** [operator<=], [operator>=], [operator<], [operator>] *)
Definition operator_le (lhs rhs : Point T) : bool :=
  e_le (x lhs) (x rhs) && e_le (y lhs) (y rhs).

Definition operator_ge (lhs rhs : Point T) : bool :=
  operator_le rhs lhs.

Definition operator_lt (lhs rhs : Point T) : bool :=
  operator_le lhs rhs && operator_ne lhs rhs.

Definition operator_gt (lhs rhs : Point T) : bool :=
  operator_lt rhs lhs.

(** [std::less<Point<T>>] *)
Definition less (lhs rhs : Point T) : bool :=
  e_lt (x lhs) (x rhs)
  || (negb (e_lt (x rhs) (x lhs)) && e_lt (y lhs) (y rhs)).
End Operators.

(** *** The member functions that act through references

    A point and a vector are objects of different types, so the argument of
    [operator+=] never designates [*this]: the points have a store of their
    own beside the one of vector.hpp. *)

Record Store (T : Type) : Type := mkStore {
  points : gmap nat (Point T);
  others : vector_hpp.Store T
}.
Arguments mkStore {T} points others.
Arguments points {T} s.
Arguments others {T} s.

Definition M (T A : Type) : Type := Store T -> option (A * Store T).

#[global] Instance M_ret {T} : MRet (M T) := fun A a s => Some (a, s).
#[global] Instance M_bind {T} : MBind (M T) := fun A B f c s =>
  match c s with
  | Some (a, s') => f a s'
  | None => None
  end.

Section Members.
Context {T : Type} `{Elem T}.

(** A member of a vector, read through [rhs]. *)
Definition read_vector_member (a : nat) (m : member) : M T T :=
  fun s => match vectors (others s) !! a with
           | Some v => Some (vector_hpp.get m v, s)
           | None => None
           end.

Definition read_member (a : nat) (m : member) : M T T :=
  fun s => match points s !! a with
           | Some p => Some (get m p, s)
           | None => None
           end.

Definition write_member (a : nat) (m : member) (t : T) : M T unit :=
  fun s => match points s !! a with
           | Some p => Some (tt, mkStore (<[a := set m t p]> (points s)) (others s))
           | None => None
           end.

Definition update_member (op : T -> T -> T) (this : nat) (m : member)
    (r : T) : M T unit :=
  l ← read_member this m;
  write_member this m (op l r).

(** [operator+=], [operator-=] *)
Definition operator_plus_assign (this rhs : nat) : M T nat :=
  r ← read_vector_member rhs member_x;
  update_member e_add this member_x r;;
  r ← read_vector_member rhs member_y;
  update_member e_add this member_y r;;
  mret this.

Definition operator_minus_assign (this rhs : nat) : M T nat :=
  r ← read_vector_member rhs member_x;
  update_member e_sub this member_x r;;
  r ← read_vector_member rhs member_y;
  update_member e_sub this member_y r;;
  mret this.
End Members.

(** *** Stream output *)
Definition operator_output {T : Type} `{Output T} (output : string)
    (point : Point T) : string :=
  output +:+ e_out (x point) +:+ ", " +:+ e_out (y point).

End point_hpp.

(** * Notions used in the statements *)

(** The store after the vector at [this] has become [v]. *)
Definition with_vector {T : Type} (this : nat) (v : vector_hpp.Vector T)
    (s : vector_hpp.Store T) : vector_hpp.Store T :=
  vector_hpp.mkStore (<[this := v]> (vector_hpp.vectors s)) (vector_hpp.scalars s).

(** The store after the point at [this] has become [p]. *)
Definition with_point {T : Type} (this : nat) (p : point_hpp.Point T)
    (s : point_hpp.Store T) : point_hpp.Store T :=
  point_hpp.mkStore (<[this := p]> (point_hpp.points s)) (point_hpp.others s).

(** What a member function leaves behind when all it does is to give the
    vector at [this] the value [v]: every other vector and every scalar as
    it was. *)
Definition vector_assigned {T : Type} (s s' : vector_hpp.Store T) (this : nat)
    (v : vector_hpp.Vector T) : Prop :=
  vector_hpp.vectors s' !! this = Some v
  /\ (forall o : nat, o <> this -> vector_hpp.vectors s' !! o = vector_hpp.vectors s !! o)
  /\ vector_hpp.scalars s' = vector_hpp.scalars s.

(** The same for the point at [this]: every other point, and all the
    vectors and scalars, as they were. *)
Definition point_assigned {T : Type} (s s' : point_hpp.Store T) (this : nat)
    (p : point_hpp.Point T) : Prop :=
  point_hpp.points s' !! this = Some p
  /\ (forall o : nat, o <> this -> point_hpp.points s' !! o = point_hpp.points s !! o)
  /\ point_hpp.others s' = point_hpp.others s.

(** A text without a comma. *)
Fixpoint no_comma (s : string) : Prop :=
  match s with
  | EmptyString => True
  | String c s' => c <> ","%char /\ no_comma s'
  end.

(** A point compares as the vector with the same members does. *)
Definition position_vector {T : Type} (p : point_hpp.Point T) : vector_hpp.Vector T :=
  vector_hpp.mkVector (point_hpp.x p) (point_hpp.y p).

(** The members of a vector or point of machine integers, as integers, and
    back. *)
Definition values {w : Z} (v : vector_hpp.Vector (signed w)) : vector_hpp.Vector Z :=
  vector_hpp.mkVector (value (vector_hpp.x v)) (value (vector_hpp.y v)).

Definition of_values {w : Z} (v : vector_hpp.Vector Z) : vector_hpp.Vector (signed w) :=
  vector_hpp.mkVector (Signed (vector_hpp.x v)) (Signed (vector_hpp.y v)).

Definition point_values {w : Z} (p : point_hpp.Point (signed w)) : point_hpp.Point Z :=
  point_hpp.mkPoint (value (point_hpp.x p)) (value (point_hpp.y p)).

Definition of_point_values {w : Z} (p : point_hpp.Point Z) : point_hpp.Point (signed w) :=
  point_hpp.mkPoint (Signed (point_hpp.x p)) (Signed (point_hpp.y p)).

(** Both members are values of the machine integers of [w] digits. *)
Definition fits (w : Z) (v : vector_hpp.Vector Z) : Prop :=
  in_range w (vector_hpp.x v) /\ in_range w (vector_hpp.y v).

Definition point_fits (w : Z) (p : point_hpp.Point Z) : Prop :=
  in_range w (point_hpp.x p) /\ in_range w (point_hpp.y p).

(** [x * x + y * y], the number [length] takes the square root of, without
    a bound. *)
Definition squared_norm (v : vector_hpp.Vector Z) : Z :=
  (vector_hpp.x v * vector_hpp.x v + vector_hpp.y v * vector_hpp.y v)%Z.

Section OrderNotions.
Local Open Scope Z_scope.

(** What the relational operators of a struct with integer members [px]
    and [py] are to satisfy: [le] is dominance, member by member; it is
    reflexive and transitive; the pair [(1, 2)], [(2, 1)] is not related
    either way; [lt] is [le] together with [ne]. *)
Definition dominance_order {A : Type} (px py : A -> Z) (mk : Z -> Z -> A)
    (le lt ne : A -> A -> bool) : Prop :=
  (forall a b, le a b = true <-> px a <= px b /\ py a <= py b)
  /\ (forall a, le a a = true)
  /\ (forall a b c, le a b = true -> le b c = true -> le a c = true)
  /\ (le (mk 1 2) (mk 2 1) = false /\ le (mk 2 1) (mk 1 2) = false)
  /\ (forall a b, ne a b = true <-> a <> b)
  /\ (forall a b, lt a b = true <-> le a b = true /\ ne a b = true).

(** What [std::less] of such a struct is to satisfy: it compares [px]
    first and [py] on a tie, and is a strict total order. *)
Definition lexicographic_order {A : Type} (px py : A -> Z)
    (less : A -> A -> bool) : Prop :=
  (forall a b, less a b = true <-> px a < px b \/ (px a = px b /\ py a < py b))
  /\ (forall a, less a a = false)
  /\ (forall a b c, less a b = true -> less b c = true -> less a c = true)
  /\ (forall a b, a <> b -> less a b = true \/ less b a = true).

(** The result of sorting with a comparison [less], as [std::sort]
    promises it: a rearrangement of the input in which no element is
    [less] than an earlier one. *)
Definition sorted_by {A : Type} (less : A -> A -> bool) (l : list A) : Prop :=
  StronglySorted (fun a b => less b a = false) l.

Definition sorts_to {A : Type} (less : A -> A -> bool) (input output : list A)
  : Prop :=
  Permutation input output /\ sorted_by less output.

(** What the four relational operators of a struct with integer members are
    to satisfy beyond being the dominance order: [le] is antisymmetric, so a
    partial order; [lt] is its strict part, irreflexive, transitive and
    asymmetric, and holds when no member is larger and one is smaller; [ge]
    and [gt] are [le] and [lt] with the operands exchanged. *)
Definition dominance_partial_order {A : Type} (px py : A -> Z)
    (le ge lt gt : A -> A -> bool) : Prop :=
  (forall a b, le a b = true -> le b a = true -> a = b)
  /\ (forall a, lt a a = false)
  /\ (forall a b c, lt a b = true -> lt b c = true -> lt a c = true)
  /\ (forall a b, lt a b = true -> lt b a = false)
  /\ (forall a b, le a b = true <-> lt a b = true \/ a = b)
  /\ (forall a b,
        lt a b = true
        <-> px a <= px b /\ py a <= py b /\ (px a < px b \/ py a < py b))
  /\ (forall a b, ge a b = true <-> px b <= px a /\ py b <= py a)
  /\ (forall a b, gt a b = true
                  <-> px b <= px a /\ py b <= py a /\ (px b < px a \/ py b < py a)).
End OrderNotions.

(** What [operator<=], [operator<] and [operator!=] of a struct with
    [double] members [px] and [py] satisfy: [le] is dominance, member by
    member; it is reflexive on the values that [eq] holds of, transitive,
    and relates [(1, 2)] and [(2, 1)] neither way; [lt] is [le] together
    with [ne]. *)
Definition dominance_order_on_double {A : Type} (px py : A -> float)
    (mk : float -> float -> A) (eq le lt ne : A -> A -> bool) : Prop :=
  (forall a b, le a b = PrimFloat.leb (px a) (px b) && PrimFloat.leb (py a) (py b))
  /\ (forall a, eq a a = true -> le a a = true)
  /\ (forall a b c, le a b = true -> le b c = true -> le a c = true)
  /\ (le (mk 1 2) (mk 2 1) = false /\ le (mk 2 1) (mk 1 2) = false)%float
  /\ (forall a b, lt a b = le a b && ne a b).

(** What [std::less] of a struct with [double] members [px] and [py]
    satisfies.  It is irreflexive.  On the values that [eq] holds of, those
    without a NaN member, it compares [px] first and [py] on a tie, is
    transitive, and relates, one way or the other, any two values that [eq]
    tells apart. *)
Definition lexicographic_order_on_double {A : Type} (px py : A -> float)
    (eq less : A -> A -> bool) : Prop :=
  (forall a b, eq a a = true -> eq b b = true ->
     (less a b = true
      <-> PrimFloat.ltb (px a) (px b) = true
          \/ (PrimFloat.eqb (px a) (px b) = true
              /\ PrimFloat.ltb (py a) (py b) = true)))
  /\ (forall a, less a a = false)
  /\ (forall a b c, eq a a = true -> eq b b = true -> eq c c = true ->
        less a b = true -> less b c = true -> less a c = true)
  /\ (forall a b, eq a a = true -> eq b b = true -> eq a b = false ->
        less a b = true \/ less b a = true).

(** * Properties *)

(** ** The square root of an integer through [double]

    [std::sqrt] of an integer converts it to [double], takes the square root
    there and, in [length], converts the result back.  Up to [2 ^ 52] the
    conversion is exact and the rounded root, truncated, is the integer
    square root: the rounding of the square root never reaches the next
    integer. *)

Section SqrtThroughDouble.
Local Open Scope Z_scope.

Lemma digits2_pos_size (p : positive) : digits2_pos p = Pos.size p.
Proof. induction p as [p IH|p IH|]; cbn; [rewrite IH..|]; reflexivity. Qed.

(** The number of binary digits of a positive number, from bounds. *)
Lemma digits2_pos_bounds (p : positive) :
  2 ^ (Z.pos (digits2_pos p) - 1) <= Z.pos p < 2 ^ Z.pos (digits2_pos p).
Proof.
  rewrite digits2_pos_size.
  pose proof (Pos.size_gt p) as Hgt. pose proof (Pos.size_le p) as Hle.
  apply Pos2Z.pos_lt_pos in Hgt. apply Pos2Z.pos_le_pos in Hle.
  rewrite Pos2Z.inj_pow in Hgt, Hle.
  change (Z.pos p~0) with (2 * Z.pos p) in Hle.
  split; [|exact Hgt].
  replace (Z.pos (Pos.size p)) with (Z.succ (Z.pos (Pos.size p) - 1)) in Hle by lia.
  rewrite Z.pow_succ_r in Hle by lia. lia.
Qed.

Lemma digits2_pos_unique (p : positive) (c : Z) :
  2 ^ (c - 1) <= Z.pos p < 2 ^ c -> Z.pos (digits2_pos p) = c.
Proof.
  intros [Hlo Hhi]. pose proof (digits2_pos_bounds p) as [Hlo' Hhi'].
  assert (0 < c).
  { destruct (Z.lt_trichotomy c 0) as [Hc|[Hc|Hc]]; [|subst c|exact Hc].
    - rewrite Z.pow_neg_r in Hhi by lia. lia.
    - cbn in Hhi. lia. }
  assert (c - 1 < Z.pos (digits2_pos p)).
  { apply (Z.pow_lt_mono_r_iff 2); lia. }
  assert (Z.pos (digits2_pos p) - 1 < c).
  { apply (Z.pow_lt_mono_r_iff 2); lia. }
  lia.
Qed.

Lemma iter_xO_value (p d : positive) :
  Z.pos (Pos.iter xO p d) = Z.pos p * 2 ^ Z.pos d.
Proof.
  induction d as [|d IH] using Pos.peano_ind.
  - cbn. lia.
  - rewrite Pos.iter_succ, Pos2Z.inj_xO, IH, Pos2Z.inj_succ, Z.pow_succ_r by lia.
    lia.
Qed.

(** Rounding a mantissa of 53 digits that is already rounded changes
    nothing. *)
Lemma shr_fexp_53 (m : positive) (e : Z) (l : location) :
  Z.pos (digits2_pos m) = 53 -> -1074 <= e ->
  shr_fexp prec emax (Z.pos m) e l = (shr_record_of_loc (Z.pos m) l, e).
Proof.
  intros Hd He. unfold shr_fexp. cbn [Zdigits2]. rewrite Hd.
  replace (fexp prec emax (53 + e) - e) with 0; [reflexivity|].
  unfold fexp, emin, prec, emax. lia.
Qed.

Definition rounded (q : Z) (l : location) : Z :=
  match l with loc_Inexact Gt => q + 1 | _ => q end.

Lemma binary_round_aux_53 (q : positive) (e : Z) (l : location) :
  l <> loc_Inexact Eq ->
  2 ^ 52 <= Z.pos q -> rounded (Z.pos q) l < 2 ^ 53 ->
  -1074 <= e <= 971 ->
  binary_round_aux prec emax false (Z.pos q) e l
  = S754_finite false (Z.to_pos (rounded (Z.pos q) l)) e.
Proof.
  intros Hl Hlo Hhi He. unfold binary_round_aux.
  assert (Hq : Z.pos (digits2_pos q) = 53).
  { apply digits2_pos_unique. change (53 - 1) with 52.
    split; [exact Hlo|]. destruct l as [|[]]; cbn in Hhi; lia. }
  rewrite shr_fexp_53 by (exact Hq || lia).
  assert (Hr : round_nearest_even (shr_m (shr_record_of_loc (Z.pos q) l))
                 (loc_of_shr_record (shr_record_of_loc (Z.pos q) l))
               = rounded (Z.pos q) l).
  { destruct l as [|[]]; try reflexivity. congruence. }
  rewrite Hr.
  assert (Hpos : 2 ^ 52 <= rounded (Z.pos q) l).
  { destruct l as [|[]]; cbn; lia. }
  destruct (rounded (Z.pos q) l) as [|r|r] eqn:Er; try lia.
  rewrite shr_fexp_53.
  - cbn [shr_record_of_loc shr_m]. 
    destruct (Z.leb_spec e (emax - prec)) as [_|Hbad]; [reflexivity|].
    unfold emax, prec in Hbad. lia.
  - apply digits2_pos_unique. change (53 - 1) with 52. lia.
  - lia.
Qed.

(** The conversion of an integer of at most 52 binary digits to [double] is
    exact: the mantissa is the integer, shifted to 53 digits. *)
Lemma int_to_double_exact (p : positive) :
  let d := Z.pos (digits2_pos p) in
  d <= 52 ->
  Prim2SF (int_to_double (Z.pos p))
  = S754_finite false (Pos.iter xO p (Z.to_pos (53 - d))) (d - 53).
Proof.
  intros d Hd. unfold int_to_double. cbn [Z.ltb Z.compare].
  pose proof (digits2_pos_bounds p) as [Hlo Hhi]. fold d in Hlo, Hhi.
  assert (Hd0 : 0 < d) by (unfold d; lia).
  assert (Hp : Z.pos p < 2 ^ 52).
  { eapply Z.lt_le_trans; [exact Hhi|]. apply Z.pow_le_mono_r; lia. }
  rewrite FloatAxioms.of_uint63_spec, Uint63.of_Z_spec.
  rewrite Z.mod_small by (change wB with (2 ^ 63); split; [lia|];
    eapply Z.lt_trans; [exact Hp|reflexivity]).
  unfold binary_normalize, binary_round, shl_align. fold d.
  assert (Hf : fexp prec emax (d + 0) = d - 53)
    by (unfold fexp, emin, prec, emax; lia).
  rewrite Hf.
  assert (Hs : d - 53 - 0 = Z.neg (Z.to_pos (53 - d))).
  { rewrite <- Pos2Z.opp_pos, Z2Pos.id by lia. lia. }
  rewrite Hs.
  assert (Hm : Z.pos (Pos.iter xO p (Z.to_pos (53 - d))) = Z.pos p * 2 ^ (53 - d)).
  { rewrite iter_xO_value, Z2Pos.id by lia. reflexivity. }
  assert (Hpow : 2 ^ (d - 1) * 2 ^ (53 - d) = 2 ^ 52).
  { rewrite <- Z.pow_add_r by lia. f_equal. lia. }
  assert (Hpow' : 2 ^ d * 2 ^ (53 - d) = 2 ^ 53).
  { rewrite <- Z.pow_add_r by lia. f_equal. lia. }
  assert (0 < 2 ^ (53 - d)) by (apply Z.pow_pos_nonneg; lia).
  rewrite binary_round_aux_53.
  - cbn [rounded Z.to_pos]. reflexivity.
  - discriminate.
  - rewrite Hm, <- Hpow. apply Z.mul_le_mono_nonneg_r; lia.
  - cbn [rounded]. rewrite Hm, <- Hpow'. apply Z.mul_lt_mono_pos_r; lia.
  - lia.
Qed.

(** The integer square root of a number scaled by an even power of two,
    against the scaled integer square root. *)
Lemma sqrt_scaled (n P : Z) :
  0 <= n -> 0 < P -> 2 * (Z.sqrt n + 1) <= P ->
  Z.sqrt n * P <= Z.sqrt (n * P * P)
  /\ Z.sqrt (n * P * P) + 1 < (Z.sqrt n + 1) * P.
Proof.
  intros Hn HP Hk.
  pose proof (Z.sqrt_spec n Hn) as [Hlo Hhi]. cbv zeta in *.
  pose proof (Z.sqrt_nonneg n) as Hk0.
  set (k := Z.sqrt n) in *.
  assert (HnP : 0 <= n * P * P) by nia.
  split.
  - apply Z.sqrt_le_square; [exact HnP|nia|]. nia.
  - assert (Z.sqrt (n * P * P) < (k + 1) * P - 1); [|lia].
    apply Z.sqrt_lt_square; [exact HnP|nia|]. nia.
Qed.

(** The square root of [double] on an integer of at most 52 binary digits,
    converted back: the integer square root. *)
Lemma sqrt_via_double_exact (n : Z) :
  0 <= n < 2 ^ 52 -> sqrt_via_double n = Some (Z.sqrt n).
Proof.
  intros [Hn0 Hn]. destruct n as [|p|p]; [vm_compute; reflexivity| |lia].
  unfold sqrt_via_double, double_to_int.
  set (d := Z.pos (digits2_pos p)).
  pose proof (digits2_pos_bounds p) as [Hlo Hhi]. fold d in Hlo, Hhi.
  assert (Hd0 : 0 < d) by (unfold d; lia).
  assert (Hd : d <= 52).
  { assert (d - 1 < 52); [|lia]. apply (Z.pow_lt_mono_r_iff 2); lia. }
  rewrite FloatAxioms.sqrt_spec, int_to_double_exact by exact Hd. fold d.
  set (m := Pos.iter xO p (Z.to_pos (53 - d))).
  assert (Hm : Z.pos m = Z.pos p * 2 ^ (53 - d)).
  { unfold m. rewrite iter_xO_value, Z2Pos.id by lia. reflexivity. }
  assert (Hmd : Z.pos (digits2_pos m) = 53).
  { apply digits2_pos_unique. change (53 - 1) with 52. rewrite Hm.
    assert (0 < 2 ^ (53 - d)) by (apply Z.pow_pos_nonneg; lia).
    split.
    - replace (2 ^ 52) with (2 ^ (d - 1) * 2 ^ (53 - d))
        by (rewrite <- Z.pow_add_r by lia; f_equal; lia).
      apply Z.mul_le_mono_nonneg_r; lia.
    - replace (2 ^ 53) with (2 ^ d * 2 ^ (53 - d))
        by (rewrite <- Z.pow_add_r by lia; f_equal; lia).
      apply Z.mul_lt_mono_pos_r; lia. }
  set (h := (d + 1) / 2).
  assert (Hh : 1 <= h <= 26 /\ d <= 2 * h <= d + 1) by (unfold h; Z.div_mod_to_equations; lia).
  set (P := 2 ^ (53 - h)).
  assert (HP : 0 < P) by (apply Z.pow_pos_nonneg; lia).
  unfold SF64sqrt, SFsqrt, SFsqrt_core_binary. cbn [Zdigits2]. rewrite Hmd.
  replace (Z.min (fexp prec emax (Z.div2 (53 + (d - 53) + 1))) (Z.div2 (d - 53)))
    with (h - 53)
    by (rewrite !Z.div2_div; unfold fexp, emin, prec, emax, h;
        Z.div_mod_to_equations; lia).
  replace (d - 53 - 2 * (h - 53)) with (d + 53 - 2 * h) by lia.
  assert (Hshift : match d + 53 - 2 * h with
                   | 0 => Z.pos m
                   | Z.pos _ => Z.shiftl (Z.pos m) (d + 53 - 2 * h)
                   | Z.neg _ => 0
                   end = Z.pos p * P * P).
  { destruct (d + 53 - 2 * h) as [|s|s] eqn:Es; [lia| |lia].
    rewrite Z.shiftl_mul_pow2, Hm, <- Es by lia. unfold P.
    rewrite <- !Z.mul_assoc, <- !Z.pow_add_r by lia. do 2 f_equal. lia. }
  rewrite Hshift.
  pose proof (Z.sqrtrem_spec (Z.pos p * P * P) ltac:(nia)) as Hspec.
  pose proof (Z.sqrtrem_sqrt (Z.pos p * P * P)) as Hfst.
  destruct (Z.sqrtrem (Z.pos p * P * P)) as [q r]. cbn [fst] in Hfst.
  destruct Hspec as [Hqr Hr].
  (* the integer square root of the argument, against powers of two *)
  pose proof (Z.sqrt_nonneg (Z.pos p)) as Hk0.
  assert (Hk1 : 2 ^ (h - 1) <= Z.sqrt (Z.pos p)).
  { apply Z.sqrt_le_square; [lia|apply Z.pow_nonneg; lia|].
    rewrite <- Z.pow_add_r by lia. eapply Z.le_trans; [|exact Hlo].
    apply Z.pow_le_mono_r; lia. }
  assert (Hk2 : Z.sqrt (Z.pos p) < 2 ^ h).
  { apply Z.sqrt_lt_square; [lia|apply Z.pow_nonneg; lia|].
    rewrite <- Z.pow_add_r by lia. eapply Z.lt_le_trans; [exact Hhi|].
    apply Z.pow_le_mono_r; lia. }
  assert (HhP : 2 ^ h * 2 <= P).
  { unfold P. replace (2 ^ h * 2) with (2 ^ (h + 1))
      by (rewrite Z.pow_add_r by lia; reflexivity).
    apply Z.pow_le_mono_r; lia. }
  assert (H52 : 2 ^ (h - 1) * P = 2 ^ 52).
  { unfold P. rewrite <- Z.pow_add_r by lia. f_equal. lia. }
  assert (H53 : 2 ^ h * P = 2 ^ 53).
  { unfold P. rewrite <- Z.pow_add_r by lia. f_equal. lia. }
  destruct (sqrt_scaled (Z.pos p) P ltac:(lia) HP ltac:(lia)) as [Hq1 Hq2].
  rewrite <- Hfst in Hq1, Hq2.
  set (k := Z.sqrt (Z.pos p)) in *.
  set (l := if r =? 0 then loc_Exact
            else loc_Inexact (if r <=? q then Lt else Gt)).
  assert (Hl : l <> loc_Inexact Eq).
  { unfold l. destruct (r =? 0); [discriminate|].
    destruct (r <=? q); discriminate. }
  assert (Hrl : q <= rounded q l <= q + 1).
  { destruct l as [|[]]; cbn; lia. }
  assert (Hq52 : 2 ^ 52 <= q) by nia.
  assert (Hq53 : rounded q l < 2 ^ 53) by nia.
  destruct q as [|q|q]; [lia| |lia].
  rewrite binary_round_aux_53 by (assumption || lia).
  destruct (Z.leb_spec 0 (h - 53)) as [Hbad|_]; [lia|].
  f_equal.
  rewrite Z2Pos.id by lia.
  replace (- (h - 53)) with (53 - h) by lia. fold P.
  symmetry. apply Z.div_unique with (rounded (Z.pos q) l - k * P); nia.
Qed.
End SqrtThroughDouble.

(** ** Length and normalization *)

Section Geometry.
Import vector_hpp.
Local Open Scope Z_scope.

Lemma sum_of_squares_nonneg (a b : Z) : 0 <= a * a + b * b.
Proof. nia. Qed.

(** On integers [length] never meets the undefined conversion. *)
Lemma length_int (v : Vector Z) :
  length v = Some (Z.sqrt (x v * x v + y v * y v)).
Proof.
  unfold length; cbn.
  destruct (Z.ltb_spec (x v * x v + y v * y v) 0) as [Hneg|_]; [|reflexivity].
  pose proof (sum_of_squares_nonneg (x v) (y v)); lia.
Qed.

Lemma length_double (v : Vector float) :
  length v = Some (PrimFloat.sqrt (x v * x v + y v * y v))%float.
Proof. reflexivity. Qed.

Lemma int_sqrt_bounds (n : Z) :
  0 <= n -> 0 <= Z.sqrt n /\ Z.sqrt n * Z.sqrt n <= n < (Z.sqrt n + 1) * (Z.sqrt n + 1).
Proof.
  intros Hn. split; [apply Z.sqrt_nonneg|].
  pose proof (Z.sqrt_spec n Hn) as Hs. cbv zeta in Hs.
  replace (Z.succ (Z.sqrt n)) with (Z.sqrt n + 1) in Hs by lia. exact Hs.
Qed.

Lemma int_sqrt_zero (n : Z) : 0 <= n -> Z.sqrt n = 0 -> n = 0.
Proof.
  intros Hn Hs. destruct (int_sqrt_bounds n Hn) as [_ Hb].
  rewrite Hs in Hb. lia.
Qed.

Lemma length_int_zero (v : Vector Z) :
  length v = Some 0 <-> v = mkVector 0 0.
Proof.
  rewrite length_int. split.
  - intros [= Hs]. apply int_sqrt_zero in Hs; [|apply sum_of_squares_nonneg].
    destruct v as [a b]; cbn in *. f_equal; nia.
  - intros ->. reflexivity.
Qed.

(** The components of an integer vector do not exceed its length. *)
Lemma abs_le_length (a b : Z) :
  Z.abs a <= Z.sqrt (a * a + b * b).
Proof.
  destruct (int_sqrt_bounds (a * a + b * b) (sum_of_squares_nonneg a b)) as [H0 [_ Hlt]].
  nia.
Qed.

(** A quotient by a bound of the dividend is a sign. *)
Lemma quot_by_bound (a l : Z) :
  0 < l -> Z.abs a <= l ->
  Z.quot a l = if Z.abs a =? l then Z.sgn a else 0.
Proof.
  intros Hl Ha. destruct (Z.eqb_spec (Z.abs a) l) as [He|Hne].
  - destruct (Z.abs_spec a) as [[Hs Hab]|[Hs Hab]].
    + assert (a = l) by lia. subst a. rewrite Z.quot_same by lia.
      symmetry. apply Z.sgn_pos. lia.
    + assert (a = - l) by lia. subst a.
      rewrite Z.quot_opp_l, Z.quot_same by lia.
      symmetry. apply Z.sgn_neg. lia.
  - destruct (Z.abs_spec a) as [[Hs Hab]|[Hs Hab]].
    + apply Z.quot_small. lia.
    + replace a with (- (- a)) by lia.
      rewrite Z.quot_opp_l by lia. rewrite Z.quot_small; lia.
Qed.

Lemma normalized_int (v : Vector Z) :
  normalized v =
    Some (let l := Z.sqrt (x v * x v + y v * y v) in
          if l =? 0 then mkVector 0 0
          else mkVector (Z.quot (x v) l) (Z.quot (y v) l)).
Proof.
  unfold normalized. rewrite length_int. cbn.
  destruct (Z.sqrt (x v * x v + y v * y v) =? 0); reflexivity.
Qed.




(** On [double] the product [x*x] of a small component underflows to zero:
    a vector that is not zero can have length [0.0] and normalize to the
    zero vector. *)
Lemma normalized_double_underflow :
  normalized (mkVector 0x1p-600 0)%float = Some (mkVector 0 0)%float.
Proof. vm_compute. reflexivity. Qed.
End Geometry.

(** ** The algebra of points and vectors *)

Section Algebra.
Import vector_hpp.
Local Open Scope Z_scope.

Abbreviation Point := point_hpp.Point.
Abbreviation mkPoint := point_hpp.mkPoint.

(** On integers [operator==] decides equality of the two structs. *)
Lemma vector_eq_int (a b : Vector Z) : operator_eq a b = true <-> a = b.
Proof.
  destruct a as [ax ay], b as [bx b_y]. unfold operator_eq; cbn.
  rewrite andb_true_iff, !Z.eqb_eq. split.
  - intros [-> ->]. reflexivity.
  - intros [= -> ->]. split; reflexivity.
Qed.

Lemma point_eq_int (a b : Point Z) : point_hpp.operator_eq a b = true <-> a = b.
Proof.
  destruct a as [ax ay], b as [bx b_y]. unfold point_hpp.operator_eq; cbn.
  rewrite andb_true_iff, !Z.eqb_eq. split.
  - intros [-> ->]. reflexivity.
  - intros [= -> ->]. split; reflexivity.
Qed.

(** C4, as stated, fails on [double]: [1 + 2^53] is not a double and rounds
    to [2^53], so translating the point [(1, 0)] by [(2^53, 0)] and back
    gives [(0, 0)], which [operator==] tells apart from the point. *)
Lemma point_translation_double_rounds :
  let p := mkPoint 1%float 0%float in
  let v := mkVector 9007199254740992%float 0%float in
  point_hpp.operator_plus p v = mkPoint 9007199254740992%float 0%float
  /\ point_hpp.operator_minus (point_hpp.operator_plus p v) v
     = mkPoint 0%float 0%float
  /\ point_hpp.operator_eq
       (point_hpp.operator_minus (point_hpp.operator_plus p v) v) p = false.
Proof. repeat split; vm_compute; reflexivity. Qed.

(** C4, amended: on an integral element type, where [+] and [-] are exact,
    translating a point by a vector and back returns the point, in either
    order, and the displacement [p - q], a [Vector], carries [q] to [p];
    each equation holds for the structs and for [operator==]. *)
Theorem point_translation_round_trip (p q : Point Z) (v : Vector Z) :
  let back1 := point_hpp.operator_minus (point_hpp.operator_plus p v) v in
  let back2 := point_hpp.operator_plus (point_hpp.operator_minus p v) v in
  let d : Vector Z := point_hpp.operator_minus_point p q in
  (back1 = p /\ point_hpp.operator_eq back1 p = true)
  /\ (back2 = p /\ point_hpp.operator_eq back2 p = true)
  /\ (point_hpp.operator_plus q d = p
      /\ point_hpp.operator_eq (point_hpp.operator_plus q d) p = true).
Proof.
  cbv zeta.
  assert (E1 : point_hpp.operator_minus (point_hpp.operator_plus p v) v = p).
  { destruct p, v; unfold point_hpp.operator_minus, point_hpp.operator_plus; cbn.
    f_equal; lia. }
  assert (E2 : point_hpp.operator_plus (point_hpp.operator_minus p v) v = p).
  { destruct p, v; unfold point_hpp.operator_minus, point_hpp.operator_plus; cbn.
    f_equal; lia. }
  assert (E3 : point_hpp.operator_plus q (point_hpp.operator_minus_point p q) = p).
  { destruct p, q; unfold point_hpp.operator_minus_point, point_hpp.operator_plus; cbn.
    f_equal; lia. }
  rewrite E1, E2, E3. repeat split; apply point_eq_int; reflexivity.
Qed.

(** The scenario of the specification, on integers. *)
Example translation_scenario :
  point_hpp.operator_plus (mkPoint 1 2) (mkVector 3 (-1)) = mkPoint 4 1
  /\ point_hpp.operator_minus (mkPoint 1 2) (mkVector 3 (-1)) = mkPoint (-2) 3
  /\ point_hpp.operator_minus_point (mkPoint 4 1) (mkPoint 1 2) = mkVector 3 (-1).
Proof. repeat split. Qed.

(** The same scenario on [double], where these sums are exact. *)
Example translation_scenario_double :
  (point_hpp.operator_plus (mkPoint 1 2) (mkVector 3 (-1)) = mkPoint 4 1
   /\ point_hpp.operator_minus (mkPoint 1 2) (mkVector 3 (-1)) = mkPoint (-2) 3
   /\ point_hpp.operator_minus_point (mkPoint 4 1) (mkPoint 1 2)
      = mkVector 3 (-1))%float.
Proof. repeat split; vm_compute; reflexivity. Qed.

(** C5, as stated, fails on [double]: with [a = (2^53, 0)] and
    [b = c = (1, 0)], each addition of [1] to [2^53] rounds back to [2^53],
    while [1 + 1] is added exactly, and [operator==] tells the two sums
    apart. *)
Lemma vector_plus_double_not_associative :
  let a := mkVector 9007199254740992%float 0%float in
  let b := mkVector 1%float 0%float in
  let c := mkVector 1%float 0%float in
  operator_plus (operator_plus a b) c = mkVector 9007199254740992%float 0%float
  /\ operator_plus a (operator_plus b c) = mkVector 9007199254740994%float 0%float
  /\ operator_eq (operator_plus (operator_plus a b) c)
                 (operator_plus a (operator_plus b c)) = false.
Proof. repeat split; vm_compute; reflexivity. Qed.

(** C5, amended: on an integral element type the addition of vectors is
    associative and commutative, for the structs and for [operator==]. *)
Theorem vector_plus_assoc_comm (a b c : Vector Z) :
  (operator_plus (operator_plus a b) c = operator_plus a (operator_plus b c)
   /\ operator_eq (operator_plus (operator_plus a b) c)
                  (operator_plus a (operator_plus b c)) = true)
  /\ (operator_plus a b = operator_plus b a
      /\ operator_eq (operator_plus a b) (operator_plus b a) = true).
Proof.
  assert (Ea : operator_plus (operator_plus a b) c
               = operator_plus a (operator_plus b c)).
  { destruct a, b, c; unfold operator_plus; cbn. f_equal; lia. }
  assert (Ec : operator_plus a b = operator_plus b a).
  { destruct a, b; unfold operator_plus; cbn. f_equal; lia. }
  repeat split; try assumption; apply vector_eq_int; assumption.
Qed.

(** On [double] the round trip is not exact: a tenth times three, divided
    by three, is the next double after a tenth. *)
Lemma vector_mul_div_double_inexact :
  (operator_div (operator_mul (mkVector 0x1.999999999999ap-4 1) 3) 3
   = Some (mkVector 0x1.999999999999bp-4 1))%float.
Proof. vm_compute. reflexivity. Qed.
End Algebra.

(** ** The two orders *)

Section Orders.
Local Open Scope Z_scope.

Lemma vector_le_int (a b : vector_hpp.Vector Z) :
  vector_hpp.operator_le a b = true
  <-> vector_hpp.x a <= vector_hpp.x b /\ vector_hpp.y a <= vector_hpp.y b.
Proof.
  unfold vector_hpp.operator_le; cbn. rewrite andb_true_iff, !Z.leb_le. tauto.
Qed.

Lemma point_le_int (a b : point_hpp.Point Z) :
  point_hpp.operator_le a b = true
  <-> point_hpp.x a <= point_hpp.x b /\ point_hpp.y a <= point_hpp.y b.
Proof.
  unfold point_hpp.operator_le; cbn. rewrite andb_true_iff, !Z.leb_le. tauto.
Qed.

Lemma vector_ne_int (a b : vector_hpp.Vector Z) :
  vector_hpp.operator_ne a b = true <-> a <> b.
Proof.
  unfold vector_hpp.operator_ne. rewrite negb_true_iff.
  rewrite <- vector_eq_int. destruct (vector_hpp.operator_eq a b); intuition congruence.
Qed.

Lemma point_ne_int (a b : point_hpp.Point Z) :
  point_hpp.operator_ne a b = true <-> a <> b.
Proof.
  unfold point_hpp.operator_ne. rewrite negb_true_iff.
  rewrite <- point_eq_int. destruct (point_hpp.operator_eq a b); intuition congruence.
Qed.

Lemma vector_less_int (a b : vector_hpp.Vector Z) :
  vector_hpp.less a b = true
  <-> vector_hpp.x a < vector_hpp.x b
      \/ (vector_hpp.x a = vector_hpp.x b /\ vector_hpp.y a < vector_hpp.y b).
Proof.
  unfold vector_hpp.less; cbn.
  rewrite orb_true_iff, andb_true_iff, negb_true_iff, !Z.ltb_lt, Z.ltb_ge. lia.
Qed.

Lemma point_less_int (a b : point_hpp.Point Z) :
  point_hpp.less a b = true
  <-> point_hpp.x a < point_hpp.x b
      \/ (point_hpp.x a = point_hpp.x b /\ point_hpp.y a < point_hpp.y b).
Proof.
  unfold point_hpp.less; cbn.
  rewrite orb_true_iff, andb_true_iff, negb_true_iff, !Z.ltb_lt, Z.ltb_ge. lia.
Qed.

(** Any comparison that is lexicographic on the members is a strict total
    order, provided the members determine the struct. *)
Lemma lexicographic_from_spec {A : Type} (px py : A -> Z) (less : A -> A -> bool) :
  (forall a b, px a = px b -> py a = py b -> a = b) ->
  (forall a b, less a b = true <-> px a < px b \/ (px a = px b /\ py a < py b)) ->
  lexicographic_order px py less.
Proof.
  intros Hext Hspec. split; [exact Hspec|]. split; [|split].
  - intros a. destruct (less a a) eqn:E; [|reflexivity].
    apply Hspec in E. lia.
  - intros a b c Hab Hbc. apply Hspec in Hab, Hbc. apply Hspec. lia.
  - intros a b Hne. rewrite !Hspec.
    destruct (Z.lt_total (px a) (px b)) as [?|[Ex|?]]; [lia| |lia].
    destruct (Z.lt_total (py a) (py b)) as [?|[Ey|?]]; [lia| |lia].
    exfalso. apply Hne. apply Hext; assumption.
Qed.

(** Two sorted rearrangements of one list are equal when no two different
    elements are unordered. *)
Lemma sorted_by_unique {A : Type} (less : A -> A -> bool) :
  (forall a b, less a b = false -> less b a = false -> a = b) ->
  forall l1 l2 : list A,
    Permutation l1 l2 -> sorted_by less l1 -> sorted_by less l2 -> l1 = l2.
Proof.
  intros Hanti. unfold sorted_by.
  induction l1 as [|a l1 IH]; intros l2 Hp H1 H2.
  - apply Permutation_nil in Hp. now subst.
  - destruct l2 as [|b l2].
    { apply Permutation_sym, Permutation_nil in Hp. discriminate. }
    apply StronglySorted_inv in H1 as [H1 Ha].
    apply StronglySorted_inv in H2 as [H2 Hb].
    rewrite Forall_forall in Ha, Hb.
    assert (E : a = b).
    { assert (Hin_a : In a (b :: l2))
        by (eapply Permutation_in; [exact Hp|left; reflexivity]).
      assert (Hin_b : In b (a :: l1))
        by (eapply Permutation_in; [apply Permutation_sym; exact Hp|left; reflexivity]).
      destruct Hin_a as [->|Hin_a]; [reflexivity|].
      destruct Hin_b as [->|Hin_b]; [reflexivity|].
      apply Hanti.
      - apply list_elem_of_In in Hin_a. exact (Hb a Hin_a).
      - apply list_elem_of_In in Hin_b. exact (Ha b Hin_b). }
    subst b. f_equal. apply IH; try assumption.
    eapply Permutation_cons_inv. exact Hp.
Qed.

(** On [Vector] and on [Point] over the integers,
    [operator<=] is the dominance order, member by member; it is reflexive
    and transitive and not total, [(1, 2)] and [(2, 1)] being unrelated; and
    [a < b] holds exactly when [a <= b] and [a != b]. *)
Lemma dominance_operators :
  dominance_order vector_hpp.x vector_hpp.y vector_hpp.mkVector
    vector_hpp.operator_le vector_hpp.operator_lt vector_hpp.operator_ne
  /\ dominance_order point_hpp.x point_hpp.y point_hpp.mkPoint
       point_hpp.operator_le point_hpp.operator_lt point_hpp.operator_ne.
Proof.
  split.
  - split; [exact vector_le_int|]. split; [|split; [|split; [|split]]].
    + intros a. apply vector_le_int. lia.
    + intros a b c Hab Hbc. apply vector_le_int in Hab, Hbc.
      apply vector_le_int. lia.
    + split; reflexivity.
    + exact vector_ne_int.
    + intros a b. unfold vector_hpp.operator_lt. apply andb_true_iff.
  - split; [exact point_le_int|]. split; [|split; [|split; [|split]]].
    + intros a. apply point_le_int. lia.
    + intros a b c Hab Hbc. apply point_le_int in Hab, Hbc.
      apply point_le_int. lia.
    + split; reflexivity.
    + exact point_ne_int.
    + intros a b. unfold point_hpp.operator_lt. apply andb_true_iff.
Qed.

(** [std::less] of [Vector] and of [Point] over the integers
    compares [x] first and [y] on a tie, and is a strict total order.
    The only way to sort [(2,1); (1,5); (1,2)] with it is
    [(1,2); (1,5); (2,1)].  It is not the dominance order: [(1, 5)] is
    [less] than [(2, 1)], and neither [operator<] nor [operator<=] relates
    them. *)
Lemma less_is_lexicographic :
  lexicographic_order vector_hpp.x vector_hpp.y vector_hpp.less
  /\ lexicographic_order point_hpp.x point_hpp.y point_hpp.less
  /\ (let input := [point_hpp.mkPoint 2 1; point_hpp.mkPoint 1 5; point_hpp.mkPoint 1 2] in
      let output := [point_hpp.mkPoint 1 2; point_hpp.mkPoint 1 5; point_hpp.mkPoint 2 1] in
      sorts_to point_hpp.less input output
      /\ forall l, sorts_to point_hpp.less input l -> l = output)
  /\ (point_hpp.less (point_hpp.mkPoint 1 5) (point_hpp.mkPoint 2 1) = true
      /\ point_hpp.operator_lt (point_hpp.mkPoint 1 5) (point_hpp.mkPoint 2 1) = false
      /\ point_hpp.operator_le (point_hpp.mkPoint 1 5) (point_hpp.mkPoint 2 1) = false
      /\ vector_hpp.less (vector_hpp.mkVector 1 5) (vector_hpp.mkVector 2 1) = true
      /\ vector_hpp.operator_lt (vector_hpp.mkVector 1 5) (vector_hpp.mkVector 2 1) = false
      /\ vector_hpp.operator_le (vector_hpp.mkVector 1 5) (vector_hpp.mkVector 2 1) = false).
Proof.
  assert (Hv : lexicographic_order vector_hpp.x vector_hpp.y vector_hpp.less).
  { apply lexicographic_from_spec; [|exact vector_less_int].
    intros [] []; cbn; congruence. }
  assert (Hp : lexicographic_order point_hpp.x point_hpp.y point_hpp.less).
  { apply lexicographic_from_spec; [|exact point_less_int].
    intros [] []; cbn; congruence. }
  split; [exact Hv|]. split; [exact Hp|]. split; [|repeat split].
  cbv zeta.
  assert (Hsorted : sorts_to point_hpp.less
            [point_hpp.mkPoint 2 1; point_hpp.mkPoint 1 5; point_hpp.mkPoint 1 2]
            [point_hpp.mkPoint 1 2; point_hpp.mkPoint 1 5; point_hpp.mkPoint 2 1]).
  { split.
    - etransitivity; [apply perm_swap|].
      etransitivity; [apply perm_skip, perm_swap|].
      apply perm_swap.
    - unfold sorted_by. repeat constructor. }
  split; [exact Hsorted|].
  intros l [Hperm Hl]. destruct Hsorted as [Hperm' Hout].
  apply (sorted_by_unique point_hpp.less); try assumption.
  - destruct Hp as [_ [_ [_ Htotal]]].
    intros a b Hab Hba.
    destruct (point_hpp.operator_eq a b) eqn:E.
    + apply point_eq_int. exact E.
    + assert (Hne : a <> b) by (rewrite <- point_eq_int; congruence).
      destruct (Htotal a b Hne); congruence.
  - etransitivity; [symmetry; exact Hperm|exact Hperm'].
Qed.

End Orders.

(** ** The two orders over any element type

    What the operators and [std::less] inherit from comparisons of the
    element type that form a total order on the values that compare equal to
    themselves. *)

Section OrdersOverAnElementType.
Import vector_hpp.
Context {T : Type} `{Elem T}.

Hypothesis le_refl : forall a : T, e_eq a a = true -> e_le a a = true.
Hypothesis le_trans : forall a b c : T,
    e_le a b = true -> e_le b c = true -> e_le a c = true.
Hypothesis lt_irrefl : forall a : T, e_lt a a = false.
Hypothesis lt_trans : forall a b c : T,
    e_lt a b = true -> e_lt b c = true -> e_lt a c = true.
Hypothesis eq_lt_trans : forall a b c : T,
    e_eq a b = true -> e_lt b c = true -> e_lt a c = true.
Hypothesis lt_eq_trans : forall a b c : T,
    e_lt a b = true -> e_eq b c = true -> e_lt a c = true.
Hypothesis eq_not_lt : forall a b : T,
    e_eq a b = true -> e_lt a b = false /\ e_lt b a = false.
Hypothesis trichotomy : forall a b : T,
    e_eq a a = true -> e_eq b b = true ->
    e_lt a b = true \/ e_eq a b = true \/ e_lt b a = true.

Lemma lt_asym (a b : T) : e_lt a b = true -> e_lt b a = false.
Proof using lt_irrefl lt_trans.
  intros Hab. destruct (e_lt b a) eqn:Hba; [|reflexivity].
  rewrite <- (lt_irrefl a). symmetry. exact (lt_trans a b a Hab Hba).
Qed.

Lemma operator_le_refl (a : Vector T) :
  operator_eq a a = true -> operator_le a a = true.
Proof using le_refl.
  unfold operator_eq, operator_le. rewrite !andb_true_iff.
  intros [Hx Hy]. split; apply le_refl; assumption.
Qed.

Lemma operator_le_trans (a b c : Vector T) :
  operator_le a b = true -> operator_le b c = true -> operator_le a c = true.
Proof using le_trans.
  unfold operator_le. rewrite !andb_true_iff.
  intros [Hx Hy] [Hx' Hy']. split; eapply le_trans; eassumption.
Qed.

Lemma less_irrefl (a : Vector T) : less a a = false.
Proof using lt_irrefl.
  unfold less. rewrite !lt_irrefl. reflexivity.
Qed.

Lemma less_trans (a b c : Vector T) :
  operator_eq a a = true -> operator_eq b b = true -> operator_eq c c = true ->
  less a b = true -> less b c = true -> less a c = true.
Proof using lt_irrefl lt_trans eq_lt_trans lt_eq_trans eq_not_lt trichotomy.
  unfold operator_eq, less. rewrite !andb_true_iff.
  intros [Hxa Hya] [Hxb Hyb] [Hxc Hyc] Hab Hbc.
  destruct (trichotomy (x a) (x b) Hxa Hxb) as [Lab|[Eab|Lba]].
  - destruct (trichotomy (x b) (x c) Hxb Hxc) as [Lbc|[Ebc|Lcb]].
    + rewrite (lt_trans _ _ _ Lab Lbc). reflexivity.
    + rewrite (lt_eq_trans _ _ _ Lab Ebc). reflexivity.
    + rewrite (lt_asym _ _ Lcb), Lcb in Hbc. discriminate.
  - destruct (eq_not_lt _ _ Eab) as [Nab Nba]. rewrite Nab, Nba in Hab.
    cbn in Hab.
    destruct (trichotomy (x b) (x c) Hxb Hxc) as [Lbc|[Ebc|Lcb]].
    + rewrite (eq_lt_trans _ _ _ Eab Lbc). reflexivity.
    + destruct (eq_not_lt _ _ Ebc) as [Nbc Ncb]. rewrite Nbc, Ncb in Hbc.
      cbn in Hbc. rewrite (lt_trans _ _ _ Hab Hbc).
      destruct (e_lt (x c) (x a)) eqn:Lca.
      * rewrite (lt_eq_trans _ _ _ Lca Eab) in Ncb. discriminate.
      * apply orb_true_r.
    + rewrite (lt_asym _ _ Lcb), Lcb in Hbc. discriminate.
  - rewrite (lt_asym _ _ Lba), Lba in Hab. discriminate.
Qed.

Lemma less_total (a b : Vector T) :
  operator_eq a a = true -> operator_eq b b = true ->
  operator_eq a b = false -> less a b = true \/ less b a = true.
Proof using eq_not_lt trichotomy.
  unfold operator_eq, less. rewrite !andb_true_iff.
  intros [Hxa Hya] [Hxb Hyb] Hne.
  destruct (trichotomy (x a) (x b) Hxa Hxb) as [Lab|[Eab|Lba]].
  - left. rewrite Lab. reflexivity.
  - rewrite Eab in Hne. cbn in Hne.
    destruct (eq_not_lt _ _ Eab) as [Nab Nba]. rewrite Nab, Nba. cbn.
    destruct (trichotomy (y a) (y b) Hya Hyb) as [L|[E|L]]; auto.
    congruence.
  - right. rewrite Lba. reflexivity.
Qed.
End OrdersOverAnElementType.

(** ** The two orders on [double]

    The comparisons of [double] are those of its specification, [SFcompare],
    which orders the floats that are not NaN by sign, exponent and mantissa.
    A float is not NaN exactly when it compares equal to itself. *)

Section DoubleOrders.
Import vector_hpp.

Ltac sf_compare :=
  repeat match goal with
         | H : context [Pos.compare_cont Eq ?a ?b] |- _ =>
             change (Pos.compare_cont Eq a b) with (Pos.compare a b) in H
         | |- context [Pos.compare_cont Eq ?a ?b] =>
             change (Pos.compare_cont Eq a b) with (Pos.compare a b)
         end;
  repeat match goal with
         | H : context [Z.compare ?a ?b] |- _ => destruct (Z.compare_spec a b)
         | |- context [Z.compare ?a ?b] => destruct (Z.compare_spec a b)
         | H : context [Pos.compare ?a ?b] |- _ => destruct (Pos.compare_spec a b)
         | |- context [Pos.compare ?a ?b] => destruct (Pos.compare_spec a b)
         end;
  cbn in *; try discriminate; try reflexivity; try lia.

Ltac sf_cases a b c :=
  destruct a as [[]|[]| |[] ?m ?e], b as [[]|[]| |[] ?m ?e],
           c as [[]|[]| |[] ?m ?e];
  cbn; intros; try discriminate; try reflexivity; sf_compare.

Lemma SFleb_trans (a b c : spec_float) :
  SFleb a b = true -> SFleb b c = true -> SFleb a c = true.
Proof. unfold SFleb. sf_cases a b c. Qed.

Lemma SFltb_trans (a b c : spec_float) :
  SFltb a b = true -> SFltb b c = true -> SFltb a c = true.
Proof. unfold SFltb. sf_cases a b c. Qed.

Lemma SFeqb_ltb_trans (a b c : spec_float) :
  SFeqb a b = true -> SFltb b c = true -> SFltb a c = true.
Proof. unfold SFltb, SFeqb. sf_cases a b c. Qed.

Lemma SFltb_eqb_trans (a b c : spec_float) :
  SFltb a b = true -> SFeqb b c = true -> SFltb a c = true.
Proof. unfold SFltb, SFeqb. sf_cases a b c. Qed.

Lemma SFleb_refl (a : spec_float) : SFeqb a a = true -> SFleb a a = true.
Proof.
  unfold SFleb, SFeqb.
  destruct (SFcompare a a) as [[]|]; intros; try discriminate; reflexivity.
Qed.

Lemma SFltb_irrefl (a : spec_float) : SFltb a a = false.
Proof.
  unfold SFltb. destruct a as [[]|[]| |[] m e]; cbn; try reflexivity; sf_compare.
Qed.

Lemma SFeqb_not_ltb (a b : spec_float) :
  SFeqb a b = true -> SFltb a b = false /\ SFltb b a = false.
Proof.
  unfold SFltb, SFeqb.
  destruct a as [[]|[]| |[] ma ea], b as [[]|[]| |[] mb eb];
    cbn; intros; try discriminate; split; try reflexivity; sf_compare.
Qed.

Lemma SF_trichotomy (a b : spec_float) :
  SFeqb a a = true -> SFeqb b b = true ->
  SFltb a b = true \/ SFeqb a b = true \/ SFltb b a = true.
Proof.
  unfold SFltb, SFeqb.
  destruct a as [[]|[]| |[] ma ea], b as [[]|[]| |[] mb eb];
    cbn; intros Ha Hb; try discriminate; auto; sf_compare; auto.
Qed.

(** The same facts for the comparisons of the element type [double]. *)
Lemma double_le_trans (a b c : float) :
  e_le a b = true -> e_le b c = true -> e_le a c = true.
Proof. cbn. rewrite !FloatAxioms.leb_spec. apply SFleb_trans. Qed.

Lemma double_le_refl (a : float) : e_eq a a = true -> e_le a a = true.
Proof. cbn. rewrite FloatAxioms.leb_spec, FloatAxioms.eqb_spec. apply SFleb_refl. Qed.

Lemma double_lt_irrefl (a : float) : e_lt a a = false.
Proof. cbn. rewrite FloatAxioms.ltb_spec. apply SFltb_irrefl. Qed.

Lemma double_lt_trans (a b c : float) :
  e_lt a b = true -> e_lt b c = true -> e_lt a c = true.
Proof. cbn. rewrite !FloatAxioms.ltb_spec. apply SFltb_trans. Qed.

Lemma double_eq_lt_trans (a b c : float) :
  e_eq a b = true -> e_lt b c = true -> e_lt a c = true.
Proof. cbn. rewrite !FloatAxioms.ltb_spec, FloatAxioms.eqb_spec. apply SFeqb_ltb_trans. Qed.

Lemma double_lt_eq_trans (a b c : float) :
  e_lt a b = true -> e_eq b c = true -> e_lt a c = true.
Proof. cbn. rewrite !FloatAxioms.ltb_spec, FloatAxioms.eqb_spec. apply SFltb_eqb_trans. Qed.

Lemma double_eq_not_lt (a b : float) :
  e_eq a b = true -> e_lt a b = false /\ e_lt b a = false.
Proof. cbn. rewrite !FloatAxioms.ltb_spec, FloatAxioms.eqb_spec. apply SFeqb_not_ltb. Qed.

Lemma double_trichotomy (a b : float) :
  e_eq a a = true -> e_eq b b = true ->
  e_lt a b = true \/ e_eq a b = true \/ e_lt b a = true.
Proof. cbn. rewrite !FloatAxioms.ltb_spec, !FloatAxioms.eqb_spec. apply SF_trichotomy. Qed.

(** X19: on [double], [operator<=] of vectors and of points is transitive,
    and reflexive on those without a NaN member; a NaN member makes a vector
    unrelated to itself. *)
Lemma dominance_on_double :
  (forall a : Vector float, operator_eq a a = true -> operator_le a a = true)
  /\ (forall a b c : Vector float,
        operator_le a b = true -> operator_le b c = true -> operator_le a c = true)
  /\ (forall a : point_hpp.Point float,
        point_hpp.operator_eq a a = true -> point_hpp.operator_le a a = true)
  /\ (forall a b c : point_hpp.Point float,
        point_hpp.operator_le a b = true -> point_hpp.operator_le b c = true ->
        point_hpp.operator_le a c = true)
  /\ operator_le (mkVector nan 0%float) (mkVector nan 0%float) = false.
Proof.
  split; [|split; [|split; [|split]]].
  - apply (operator_le_refl double_le_refl).
  - apply (operator_le_trans double_le_trans).
  - intros a. apply (operator_le_refl double_le_refl (position_vector a)).
  - intros a b c.
    apply (operator_le_trans double_le_trans
             (position_vector a) (position_vector b) (position_vector c)).
  - vm_compute. reflexivity.
Qed.

(** X20: on [double], [std::less] of vectors and of points is irreflexive,
    and on those without a NaN member it is transitive and relates, one way
    or the other, any two that [operator==] tells apart. *)
Lemma less_on_double :
  (forall a : Vector float, less a a = false)
  /\ (forall a b c : Vector float,
        operator_eq a a = true -> operator_eq b b = true -> operator_eq c c = true ->
        less a b = true -> less b c = true -> less a c = true)
  /\ (forall a b : Vector float,
        operator_eq a a = true -> operator_eq b b = true ->
        operator_eq a b = false -> less a b = true \/ less b a = true)
  /\ (forall a : point_hpp.Point float, point_hpp.less a a = false)
  /\ (forall a b c : point_hpp.Point float,
        point_hpp.operator_eq a a = true -> point_hpp.operator_eq b b = true ->
        point_hpp.operator_eq c c = true ->
        point_hpp.less a b = true -> point_hpp.less b c = true ->
        point_hpp.less a c = true)
  /\ (forall a b : point_hpp.Point float,
        point_hpp.operator_eq a a = true -> point_hpp.operator_eq b b = true ->
        point_hpp.operator_eq a b = false ->
        point_hpp.less a b = true \/ point_hpp.less b a = true).
Proof.
  pose proof (less_irrefl double_lt_irrefl) as Hirr.
  pose proof (less_trans double_lt_irrefl double_lt_trans double_eq_lt_trans
                double_lt_eq_trans double_eq_not_lt double_trichotomy) as Htrans.
  pose proof (less_total double_eq_not_lt double_trichotomy) as Htotal.
  split; [exact Hirr|]. split; [exact Htrans|]. split; [exact Htotal|].
  split; [|split].
  - intros a. apply (Hirr (position_vector a)).
  - intros a b c.
    apply (Htrans (position_vector a) (position_vector b) (position_vector c)).
  - intros a b. apply (Htotal (position_vector a) (position_vector b)).
Qed.
End DoubleOrders.

(** ** The two orders, for the integers and for [double] *)

Section OrdersOfTheLibrary.
Import vector_hpp.
Local Open Scope Z_scope.

(** C7, as stated, fails on [double]: no comparison holds of a NaN, so a
    vector or point with a NaN member is not [<=] itself. *)
Lemma dominance_not_reflexive_at_nan :
  operator_le (mkVector nan 0%float) (mkVector nan 0%float) = false
  /\ point_hpp.operator_le (point_hpp.mkPoint nan 0%float)
                           (point_hpp.mkPoint nan 0%float) = false.
Proof. split; vm_compute; reflexivity. Qed.

(** C7, amended: [operator<=] of [Vector] and of [Point] is the dominance
    order, member by member, and [a < b] holds exactly when [a <= b] and
    [a != b]; it is transitive, and not total, [(1, 2)] and [(2, 1)] being
    unrelated.  It is reflexive on an integral element type, and on
    [double] for the vectors and points without a NaN member, which are
    those that [operator==] holds of. *)
Theorem operators_are_dominance :
  (dominance_order x y mkVector operator_le operator_lt operator_ne
   /\ dominance_order point_hpp.x point_hpp.y point_hpp.mkPoint
        point_hpp.operator_le point_hpp.operator_lt point_hpp.operator_ne)
  /\ (dominance_order_on_double x y mkVector
        operator_eq operator_le operator_lt operator_ne
      /\ dominance_order_on_double point_hpp.x point_hpp.y point_hpp.mkPoint
           point_hpp.operator_eq point_hpp.operator_le point_hpp.operator_lt
           point_hpp.operator_ne).
Proof.
  split; [exact dominance_operators|]. split.
  - split; [reflexivity|]. split; [apply (operator_le_refl double_le_refl)|].
    split; [apply (operator_le_trans double_le_trans)|].
    split; [split; vm_compute; reflexivity|reflexivity].
  - split; [reflexivity|]. split; [|split].
    + intros a. apply (operator_le_refl double_le_refl (position_vector a)).
    + intros a b c.
      apply (operator_le_trans double_le_trans
               (position_vector a) (position_vector b) (position_vector c)).
    + split; [split; vm_compute; reflexivity|reflexivity].
Qed.

Lemma operators_are_dominance_witness :
  operator_eq (mkVector 1 2)%float (mkVector 1 2)%float = true
  /\ operator_le (mkVector 1 2)%float (mkVector 1 2)%float = true.
Proof.
  split; [vm_compute; reflexivity|].
  destruct operators_are_dominance as (_ & (_ & Hrefl & _) & _).
  apply Hrefl. vm_compute. reflexivity.
Defined.

(** C8, as stated, fails on [double]: with a NaN member [std::less] is not
    transitive, [(1, 5)] being less than [(NaN, 6)] and [(NaN, 6)] less than
    [(0, 7)], but [(1, 5)] not less than [(0, 7)]; and it is not total,
    relating [(NaN, 0)] and [(1, 0)] neither way. *)
Lemma less_not_an_order_at_nan :
  (less (mkVector 1 5) (mkVector nan 6) = true
   /\ less (mkVector nan 6) (mkVector 0 7) = true
   /\ less (mkVector 1 5) (mkVector 0 7) = false)%float
  /\ (less (mkVector nan 0) (mkVector 1 0) = false
      /\ less (mkVector 1 0) (mkVector nan 0) = false)%float
  /\ (point_hpp.less (point_hpp.mkPoint 1 5) (point_hpp.mkPoint nan 6) = true
      /\ point_hpp.less (point_hpp.mkPoint nan 6) (point_hpp.mkPoint 0 7) = true
      /\ point_hpp.less (point_hpp.mkPoint 1 5) (point_hpp.mkPoint 0 7) = false)%float.
Proof. repeat split; vm_compute; reflexivity. Qed.

Lemma less_on_double_by_members (a b : Vector float) :
  operator_eq a a = true -> operator_eq b b = true ->
  less a b = true
  <-> PrimFloat.ltb (x a) (x b) = true
      \/ (PrimFloat.eqb (x a) (x b) = true /\ PrimFloat.ltb (y a) (y b) = true).
Proof.
  unfold operator_eq, less. rewrite !andb_true_iff. intros [Hxa _] [Hxb _].
  change (@e_lt float _) with PrimFloat.ltb.
  destruct (double_trichotomy (x a) (x b) Hxa Hxb) as [L|[E|L]].
  - change (@e_lt float _) with PrimFloat.ltb in L. rewrite L. cbn. tauto.
  - destruct (double_eq_not_lt _ _ E) as [N1 N2].
    change (@e_lt float _) with PrimFloat.ltb in N1, N2.
    change (@e_eq float _) with PrimFloat.eqb in E.
    rewrite N1, N2, E. cbn. split.
    + intros Hy. right. split; [reflexivity|exact Hy].
    + intros [Hf|[_ Hy]]; [discriminate|exact Hy].
  - pose proof (lt_asym double_lt_irrefl double_lt_trans _ _ L) as N.
    change (@e_lt float _) with PrimFloat.ltb in L, N. rewrite N, L. cbn.
    split; [discriminate|]. intros [Hf|[E _]]; [discriminate|].
    destruct (double_eq_not_lt (x a) (x b) E) as [_ N2].
    change (@e_lt float _) with PrimFloat.ltb in N2. congruence.
Qed.

(** C8, amended: [std::less] of [Vector] and of [Point] compares [x] first
    and [y] on a tie.  On an integral element type it is a strict total
    order, and the only way to sort [(2,1); (1,5); (1,2)] with it is
    [(1,2); (1,5); (2,1)]; it is not the dominance order, [(1, 5)] being
    [less] than [(2, 1)] while neither [operator<] nor [operator<=] relates
    them.  On [double] it is irreflexive, and a strict total order on the
    vectors and points without a NaN member. *)
Theorem less_is_lexicographic_without_nan :
  (lexicographic_order x y less
   /\ lexicographic_order point_hpp.x point_hpp.y point_hpp.less
   /\ (let input := [point_hpp.mkPoint 2 1; point_hpp.mkPoint 1 5; point_hpp.mkPoint 1 2] in
       let output := [point_hpp.mkPoint 1 2; point_hpp.mkPoint 1 5; point_hpp.mkPoint 2 1] in
       sorts_to point_hpp.less input output
       /\ forall l, sorts_to point_hpp.less input l -> l = output)
   /\ (point_hpp.less (point_hpp.mkPoint 1 5) (point_hpp.mkPoint 2 1) = true
       /\ point_hpp.operator_lt (point_hpp.mkPoint 1 5) (point_hpp.mkPoint 2 1) = false
       /\ point_hpp.operator_le (point_hpp.mkPoint 1 5) (point_hpp.mkPoint 2 1) = false
       /\ less (mkVector 1 5) (mkVector 2 1) = true
       /\ operator_lt (mkVector 1 5) (mkVector 2 1) = false
       /\ operator_le (mkVector 1 5) (mkVector 2 1) = false)%Z)
  /\ (lexicographic_order_on_double x y operator_eq less
      /\ lexicographic_order_on_double point_hpp.x point_hpp.y
           point_hpp.operator_eq point_hpp.less).
Proof.
  split; [exact less_is_lexicographic|].
  pose proof (less_irrefl double_lt_irrefl) as Hirr.
  pose proof (less_trans double_lt_irrefl double_lt_trans double_eq_lt_trans
                double_lt_eq_trans double_eq_not_lt double_trichotomy) as Htrans.
  pose proof (less_total double_eq_not_lt double_trichotomy) as Htotal.
  split.
  - split; [exact less_on_double_by_members|].
    split; [exact Hirr|]. split; [exact Htrans|exact Htotal].
  - split; [|split; [|split]].
    + intros a b. apply (less_on_double_by_members (position_vector a) (position_vector b)).
    + intros a. apply (Hirr (position_vector a)).
    + intros a b c.
      apply (Htrans (position_vector a) (position_vector b) (position_vector c)).
    + intros a b. apply (Htotal (position_vector a) (position_vector b)).
Qed.

Lemma less_is_lexicographic_without_nan_witness :
  operator_eq (mkVector 1 5)%float (mkVector 1 5)%float = true
  /\ operator_eq (mkVector 2 1)%float (mkVector 2 1)%float = true
  /\ operator_eq (mkVector 1 5)%float (mkVector 2 1)%float = false
  /\ (less (mkVector 1 5)%float (mkVector 2 1)%float = true
      \/ less (mkVector 2 1)%float (mkVector 1 5)%float = true).
Proof.
  split; [vm_compute; reflexivity|]. split; [vm_compute; reflexivity|].
  split; [vm_compute; reflexivity|].
  destruct less_is_lexicographic_without_nan as (_ & (_ & _ & _ & Htotal) & _).
  apply Htotal; vm_compute; reflexivity.
Defined.
End OrdersOfTheLibrary.

(** ** Indexed access *)

Section Indexing.
Context {T : Type}.

(** C9: [v[0]] is [v.x] and [v[1]] is [v.y], for a vector and for a point,
    whether or not assertions are compiled in; for every index below 2 the
    access returns, so the assertion does not fail and nothing outside the
    table is read; for any other index the assertion fails or, when it is
    compiled out, the behaviour is undefined. *)
Theorem index_access (ndebug : bool) (v : vector_hpp.Vector T)
    (p : point_hpp.Point T) :
  (vector_hpp.operator_index ndebug v 0 = Returns (vector_hpp.x v)
   /\ vector_hpp.operator_index ndebug v 1 = Returns (vector_hpp.y v)
   /\ point_hpp.operator_index ndebug p 0 = Returns (point_hpp.x p)
   /\ point_hpp.operator_index ndebug p 1 = Returns (point_hpp.y p))
  /\ (forall idx : N,
        (idx < 2)%N ->
        (exists t, vector_hpp.operator_index ndebug v idx = Returns t)
        /\ (exists t, point_hpp.operator_index ndebug p idx = Returns t))
  /\ (forall idx : N,
        (2 <= idx)%N ->
        vector_hpp.operator_index ndebug v idx
          = (if ndebug then Undefined else AssertionFailed)
        /\ point_hpp.operator_index ndebug p idx
          = (if ndebug then Undefined else AssertionFailed)).
Proof.
  split; [|split].
  - destruct ndebug; repeat split.
  - intros idx Hidx.
    assert (Hcases : idx = 0%N \/ idx = 1%N) by lia.
    destruct Hcases as [-> | ->]; destruct ndebug; split; eexists; reflexivity.
  - intros idx Hidx.
    unfold vector_hpp.operator_index, point_hpp.operator_index,
      vector_hpp.operator_index_member, point_hpp.operator_index_member.
    destruct (N.ltb_spec idx 2) as [?|_]; [lia|].
    destruct ndebug; cbn [negb andb]; [|split; reflexivity].
    assert (Hnth : forall l : list member,
               List.length l = 2%nat -> nth_error l (N.to_nat idx) = None).
    { intros l Hlen. apply nth_error_None. lia. }
    rewrite (Hnth vector_hpp.ptrs eq_refl), (Hnth point_hpp.ptrs eq_refl).
    split; reflexivity.
Qed.
End Indexing.

Lemma index_access_witness :
  (exists t, vector_hpp.operator_index false (vector_hpp.mkVector 7 9)%Z 1 = Returns t)
  /\ (exists t, point_hpp.operator_index false (point_hpp.mkPoint 3 5)%Z 1 = Returns t).
Proof.
  apply (proj1 (proj2 (index_access false (vector_hpp.mkVector 7 9)%Z
                         (point_hpp.mkPoint 3 5)%Z)) 1%N).
  reflexivity.
Defined.

(** ** Compound assignment *)

Section CompoundAssignment.
Import vector_hpp.
Context {T : Type} `{Elem T}.

Lemma bind_run {A B : Type} (c : M T A) (f : A -> M T B) (s : Store T) :
  (c ≫= f) s = match c s with Some (a, s') => f a s' | None => None end.
Proof. reflexivity. Qed.

Lemma read_member_run (s : Store T) (a : nat) (m : member) (v : Vector T) :
  vectors s !! a = Some v -> read_member a m s = Some (get m v, s).
Proof. intros E. unfold read_member. now rewrite E. Qed.

Lemma write_member_run (s : Store T) (a : nat) (m : member) (t : T) (v : Vector T) :
  vectors s !! a = Some v ->
  write_member a m t s = Some (tt, with_vector a (set m t v) s).
Proof. intros E. unfold write_member. now rewrite E. Qed.

Lemma update_member_run (op : T -> T -> option T) (s : Store T) (a : nat)
    (m : member) (r : T) (v : Vector T) :
  vectors s !! a = Some v ->
  update_member op a m r s =
    match op (get m v) r with
    | Some t => Some (tt, with_vector a (set m t v) s)
    | None => None
    end.
Proof.
  intros E. unfold update_member.
  rewrite bind_run, (read_member_run s a m v E), bind_run. unfold lift.
  destruct (op (get m v) r); [|reflexivity].
  apply write_member_run, E.
Qed.

Lemma with_vector_lookup (s : Store T) (a : nat) (v : Vector T) :
  vectors (with_vector a v s) !! a = Some v.
Proof. cbn. apply lookup_insert_eq. Qed.

Lemma with_vector_lookup_ne (s : Store T) (a b : nat) (v : Vector T) :
  a <> b -> vectors (with_vector a v s) !! b = vectors s !! b.
Proof. intros Hne. cbn. now apply lookup_insert_ne. Qed.

Lemma with_vector_twice (s : Store T) (a : nat) (v w : Vector T) :
  with_vector a w (with_vector a v s) = with_vector a w s.
Proof. unfold with_vector; cbn. f_equal. apply insert_insert_eq. Qed.

(** The member [m] of the vector at [rhs], read after the member [x] of
    the vector at [this] has been assigned: the same as before, unless it
    is that very member. *)
Lemma read_member_after_x (s : Store T) (this rhs : nat) (m : member)
    (a b : Vector T) (t : T) :
  vectors s !! this = Some a -> vectors s !! rhs = Some b ->
  (rhs, m) <> (this, member_x) ->
  read_member rhs m (with_vector this (set member_x t a) s)
  = Some (get m b, with_vector this (set member_x t a) s).
Proof.
  intros Ea Eb Hne. destruct (Nat.eq_dec this rhs) as [->|Hd].
  - assert (a = b) by congruence. subst b.
    rewrite (read_member_run _ rhs m _ (with_vector_lookup s rhs _)).
    destruct m; [congruence|reflexivity].
  - apply read_member_run. rewrite with_vector_lookup_ne by assumption.
    exact Eb.
Qed.

(** A step-by-step account of an operator that assigns to [x], then
    to [y], and returns [*this]. *)
Lemma two_updates_run (op : T -> T -> option T) (s : Store T) (this : nat)
    (a : Vector T) (rx ry : T) (read_x read_y : M T T) :
  vectors s !! this = Some a ->
  read_x s = Some (rx, s) ->
  (forall t, read_y (with_vector this (set member_x t a) s)
             = Some (ry, with_vector this (set member_x t a) s)) ->
  (r ← read_x; update_member op this member_x r;;
   r ← read_y; update_member op this member_y r;;
   mret this) s
  = match op (x a) rx, op (y a) ry with
    | Some tx, Some ty => Some (this, with_vector this (mkVector tx ty) s)
    | _, _ => None
    end.
Proof.
  intros Ea Ex Ey.
  rewrite bind_run, Ex, bind_run, (update_member_run op s this member_x rx a Ea).
  cbn [get]. destruct (op (x a) rx) as [tx|]; [|reflexivity].
  rewrite bind_run, Ey, bind_run.
  rewrite (update_member_run op _ this member_y ry _ (with_vector_lookup s this _)).
  cbn [get set x y]. destruct (op (y a) ry) as [ty|]; [|reflexivity].
  rewrite with_vector_twice. reflexivity.
Qed.

(** A scalar read through [r] after the member [x] of the vector at [this]
    has been assigned: the same as before, unless [r] designates that
    member. *)
Lemma read_ref_after_x (s : Store T) (this : nat) (r : scalar_ref)
    (a : Vector T) (k t : T) :
  vectors s !! this = Some a ->
  read_ref r s = Some (k, s) ->
  r <> ref_member this member_x ->
  read_ref r (with_vector this (set member_x t a) s)
  = Some (k, with_vector this (set member_x t a) s).
Proof.
  intros Ea Er Hne. destruct r as [n|o m]; cbn [read_ref] in *.
  - destruct (scalars s !! n) as [k'|] eqn:En; [|discriminate].
    injection Er as ->. cbn. now rewrite En.
  - unfold read_member in Er.
    destruct (vectors s !! o) as [b|] eqn:Eb; [|discriminate].
    injection Er as <-.
    apply (read_member_after_x s this o m a b t Ea Eb). congruence.
Qed.

(** [a += b] and [a -= b] leave in [a] the value of [a + b] and of [a - b]
    and return [a], also when [b] is [a] itself. *)
Lemma vector_plus_assign_agrees (s : Store T) (this rhs : nat) (a b : Vector T) :
  vectors s !! this = Some a -> vectors s !! rhs = Some b ->
  operator_plus_assign this rhs s
  = Some (this, with_vector this (operator_plus a b) s).
Proof.
  intros Ea Eb. unfold operator_plus_assign.
  rewrite (two_updates_run (total e_add) s this a (x b) (y b)); try assumption.
  - reflexivity.
  - apply (read_member_run s rhs member_x b Eb).
  - intros t. apply (read_member_after_x s this rhs member_y a b t Ea Eb).
    congruence.
Qed.

Lemma vector_minus_assign_agrees (s : Store T) (this rhs : nat) (a b : Vector T) :
  vectors s !! this = Some a -> vectors s !! rhs = Some b ->
  operator_minus_assign this rhs s
  = Some (this, with_vector this (operator_minus a b) s).
Proof.
  intros Ea Eb. unfold operator_minus_assign.
  rewrite (two_updates_run (total e_sub) s this a (x b) (y b)); try assumption.
  - reflexivity.
  - apply (read_member_run s rhs member_x b Eb).
  - intros t. apply (read_member_after_x s this rhs member_y a b t Ea Eb).
    congruence.
Qed.

(** [a *= k] and [a /= k] agree with [a * k] and [a / k] when the scalar is
    not the member [x] of [a]. *)
Lemma vector_mul_assign_agrees (s : Store T) (this : nat) (scalar : scalar_ref)
    (a : Vector T) (k : T) :
  vectors s !! this = Some a ->
  read_ref scalar s = Some (k, s) ->
  scalar <> ref_member this member_x ->
  operator_mul_assign this scalar s
  = Some (this, with_vector this (operator_mul a k) s).
Proof.
  intros Ea Ek Hne. unfold operator_mul_assign.
  rewrite (two_updates_run (total e_mul) s this a k k); try assumption.
  - reflexivity.
  - intros t. now apply read_ref_after_x.
Qed.

Lemma vector_div_assign_agrees (s : Store T) (this : nat) (scalar : scalar_ref)
    (a : Vector T) (k : T) :
  vectors s !! this = Some a ->
  read_ref scalar s = Some (k, s) ->
  scalar <> ref_member this member_x ->
  operator_div_assign this scalar s
  = match operator_div a k with
    | Some q => Some (this, with_vector this q s)
    | None => None
    end.
Proof.
  intros Ea Ek Hne. unfold operator_div_assign.
  rewrite (two_updates_run e_div s this a k k); try assumption.
  - unfold operator_div.
    destruct (e_div (x a) k), (e_div (y a) k); reflexivity.
  - intros t. now apply read_ref_after_x.
Qed.

(** When the scalar is the member [x] of [a], the second member is scaled
    by the new value of [x]. *)
Lemma vector_mul_assign_aliased (s : Store T) (this : nat) (a : Vector T) :
  vectors s !! this = Some a ->
  operator_mul_assign this (ref_member this member_x) s
  = Some (this,
          with_vector this
            (mkVector (e_mul (x a) (x a)) (e_mul (y a) (e_mul (x a) (x a)))) s).
Proof.
  intros Ea. unfold operator_mul_assign. cbn [read_ref].
  rewrite bind_run, (read_member_run s this member_x a Ea), bind_run.
  rewrite (update_member_run _ s this member_x _ a Ea). cbn [total get set x y].
  rewrite bind_run.
  rewrite (read_member_run _ this member_x _ (with_vector_lookup s this _)).
  rewrite bind_run.
  rewrite (update_member_run _ _ this member_y _ _ (with_vector_lookup s this _)).
  cbn [total get set x y]. rewrite with_vector_twice. reflexivity.
Qed.

Lemma vector_div_assign_aliased (s : Store T) (this : nat) (a : Vector T) :
  vectors s !! this = Some a ->
  operator_div_assign this (ref_member this member_x) s
  = match e_div (x a) (x a) with
    | Some qx =>
        match e_div (y a) qx with
        | Some qy => Some (this, with_vector this (mkVector qx qy) s)
        | None => None
        end
    | None => None
    end.
Proof.
  intros Ea. unfold operator_div_assign. cbn [read_ref].
  rewrite bind_run, (read_member_run s this member_x a Ea), bind_run.
  rewrite (update_member_run _ s this member_x _ a Ea). cbn [get].
  destruct (e_div (x a) (x a)) as [qx|]; [|reflexivity].
  rewrite bind_run.
  rewrite (read_member_run _ this member_x _ (with_vector_lookup s this _)).
  rewrite bind_run.
  rewrite (update_member_run _ _ this member_y _ _ (with_vector_lookup s this _)).
  cbn [get set x y]. destruct (e_div (y a) qx) as [qy|]; [|reflexivity].
  rewrite with_vector_twice. reflexivity.
Qed.

Lemma point_bind_run {A B : Type} (c : point_hpp.M T A)
    (f : A -> point_hpp.M T B) (s : point_hpp.Store T) :
  (c ≫= f) s = match c s with Some (a, s') => f a s' | None => None end.
Proof. reflexivity. Qed.

Lemma point_read_vector_run (s : point_hpp.Store T) (a : nat) (m : member)
    (v : Vector T) :
  vectors (point_hpp.others s) !! a = Some v ->
  point_hpp.read_vector_member a m s = Some (get m v, s).
Proof. intros E. unfold point_hpp.read_vector_member. now rewrite E. Qed.

Lemma point_update_run (op : T -> T -> T) (s : point_hpp.Store T) (a : nat)
    (m : member) (r : T) (p : point_hpp.Point T) :
  point_hpp.points s !! a = Some p ->
  point_hpp.update_member op a m r s
  = Some (tt, with_point a (point_hpp.set m (op (point_hpp.get m p) r) p) s).
Proof.
  intros E. unfold point_hpp.update_member, point_hpp.read_member.
  rewrite point_bind_run, E. unfold point_hpp.write_member. now rewrite E.
Qed.

Lemma point_two_updates_run (op : T -> T -> T) (s : point_hpp.Store T)
    (this rhs : nat) (p : point_hpp.Point T) (v : Vector T) :
  point_hpp.points s !! this = Some p ->
  vectors (point_hpp.others s) !! rhs = Some v ->
  (r ← point_hpp.read_vector_member rhs member_x;
   point_hpp.update_member op this member_x r;;
   r ← point_hpp.read_vector_member rhs member_y;
   point_hpp.update_member op this member_y r;;
   mret this) s
  = Some (this,
          with_point this
            (point_hpp.mkPoint (op (point_hpp.x p) (x v)) (op (point_hpp.y p) (y v)))
            s).
Proof.
  intros Ep Ev.
  rewrite point_bind_run, (point_read_vector_run s rhs member_x v Ev).
  rewrite point_bind_run, (point_update_run op s this member_x _ p Ep).
  cbn [get point_hpp.get point_hpp.set].
  rewrite point_bind_run.
  erewrite (point_read_vector_run _ rhs member_y v) by exact Ev.
  rewrite point_bind_run.
  erewrite point_update_run by (cbn; apply lookup_insert_eq).
  cbn [get point_hpp.get point_hpp.set point_hpp.x point_hpp.y].
  unfold with_point; cbn. now rewrite insert_insert_eq.
Qed.

(** [p += v] and [p -= v] leave in [p] the value of [p + v] and of [p - v]
    and return [p]. *)
Lemma point_plus_assign_agrees (s : point_hpp.Store T) (this rhs : nat)
    (p : point_hpp.Point T) (v : Vector T) :
  point_hpp.points s !! this = Some p ->
  vectors (point_hpp.others s) !! rhs = Some v ->
  point_hpp.operator_plus_assign this rhs s
  = Some (this, with_point this (point_hpp.operator_plus p v) s).
Proof. apply point_two_updates_run. Qed.

Lemma point_minus_assign_agrees (s : point_hpp.Store T) (this rhs : nat)
    (p : point_hpp.Point T) (v : Vector T) :
  point_hpp.points s !! this = Some p ->
  vectors (point_hpp.others s) !! rhs = Some v ->
  point_hpp.operator_minus_assign this rhs s
  = Some (this, with_point this (point_hpp.operator_minus p v) s).
Proof. apply point_two_updates_run. Qed.
End CompoundAssignment.

Section CompoundAssignmentOnIntegers.
Import vector_hpp.
Local Open Scope Z_scope.

(** C10 holds for [+=] and [-=], and for [*=] and [/=] with a scalar that
    is not the member [x] of the left operand; it fails for [v *= v.x]
    and [v /= v.x].  With [v = (2, 3)], [v * v.x]
    is [(4, 6)], but [v *= v.x] leaves [(4, 12)] in [v]: the scalar is read
    again, through the reference, after [x] was assigned.  With
    [v = (6, 12)], [v / v.x] is [(1, 2)], but [v /= v.x] leaves [(1, 12)]. *)
Theorem scalar_assign_reads_updated_member :
  let s2 := mkStore {[ 0%nat := mkVector 2 3 ]} ∅ in
  let s6 := mkStore {[ 0%nat := mkVector 6 12 ]} ∅ in
  (read_ref (ref_member 0%nat member_x) s2 = Some (2, s2)
      /\ operator_mul (mkVector 2 3) 2 = mkVector 4 6
      /\ operator_mul_assign 0%nat (ref_member 0%nat member_x) s2
         = Some (0%nat, with_vector 0%nat (mkVector 4 12) s2))
  /\ (read_ref (ref_member 0%nat member_x) s6 = Some (6, s6)
      /\ operator_div (mkVector 6 12) 6 = Some (mkVector 1 2)
      /\ operator_div_assign 0%nat (ref_member 0%nat member_x) s6
         = Some (0%nat, with_vector 0%nat (mkVector 1 12) s6)).
Proof.
  cbv zeta. split.
  - split; [reflexivity|]. split; [reflexivity|].
    rewrite (vector_mul_assign_aliased _ 0%nat (mkVector 2 3)) by reflexivity.
    reflexivity.
  - split; [reflexivity|]. split; [reflexivity|].
    rewrite (vector_div_assign_aliased _ 0%nat (mkVector 6 12)) by reflexivity.
    reflexivity.
Qed.

(** The same call with the scalar held in an object of its own. *)
Example scalar_assign_from_copy :
  let s := mkStore {[ 0%nat := mkVector 2 3 ]} {[ 7%nat := 2 ]} in
  operator_mul_assign 0%nat (ref_scalar 7%nat) s
  = Some (0%nat, with_vector 0%nat (mkVector 4 6) s).
Proof.
  cbv zeta.
  rewrite (vector_mul_assign_agrees _ 0%nat (ref_scalar 7%nat) (mkVector 2 3) 2);
    [reflexivity|reflexivity|reflexivity|discriminate].
Qed.

(** [v += v]: the argument is the left operand itself, and the result is
    still that of [v + v]. *)
Example plus_assign_self :
  let s := mkStore {[ 0%nat := mkVector 2 3 ]} ∅ in
  operator_plus_assign 0%nat 0%nat s
  = Some (0%nat, with_vector 0%nat (mkVector 4 6) s).
Proof.
  cbv zeta.
  rewrite (vector_plus_assign_agrees _ 0%nat 0%nat (mkVector 2 3) (mkVector 2 3))
    by reflexivity.
  reflexivity.
Qed.
End CompoundAssignmentOnIntegers.

(** * Further properties *)

(** ** The algebra of vectors and points on integers *)

Section FurtherAlgebra.
Import vector_hpp.
Local Open Scope Z_scope.

Abbreviation Point := point_hpp.Point.

Ltac by_members :=
  repeat match goal with v : Vector Z |- _ => destruct v end;
  repeat match goal with p : Point Z |- _ => destruct p end;
  cbv [operator_plus operator_minus operator_mul operator_mul_scalar_first default
       point_hpp.operator_plus point_hpp.operator_minus
       point_hpp.operator_minus_point point_hpp.default x y point_hpp.x point_hpp.y
       e_add e_sub e_mul e_zero int_elem];
  f_equal; lia.

(** X1: on integers the vectors form a group under [operator+], with
    [Vector()] as its zero and [operator-] as the subtraction: [a - a] is
    zero, adding zero changes nothing, [(a - b) + b] and [(a + b) - b] are
    [a], [a - b] is [a + b * (-1)], and [a - b] and [b - a] add up to
    zero. *)
Theorem vector_minus_laws (a b : Vector Z) :
  operator_minus a a = default
  /\ operator_plus a default = a
  /\ operator_plus default a = a
  /\ operator_plus (operator_minus a b) b = a
  /\ operator_minus (operator_plus a b) b = a
  /\ operator_minus a b = operator_plus a (operator_mul b (-1))
  /\ operator_plus (operator_minus a b) (operator_minus b a) = default.
Proof. repeat split; by_members. Qed.

(** X2: on integers the multiplication by a scalar distributes over the
    sum and the difference of vectors and over the sum of scalars, composes
    as the product of the scalars, has [1] as unit and [0] as annihilator,
    and gives the same vector with the scalar written first. *)
Theorem vector_scalar_laws (a b : Vector Z) (s t : Z) :
  operator_mul (operator_plus a b) s
    = operator_plus (operator_mul a s) (operator_mul b s)
  /\ operator_mul (operator_minus a b) s
     = operator_minus (operator_mul a s) (operator_mul b s)
  /\ operator_mul a (s + t) = operator_plus (operator_mul a s) (operator_mul a t)
  /\ operator_mul (operator_mul a s) t = operator_mul a (s * t)
  /\ operator_mul a 1 = a
  /\ operator_mul a 0 = default
  /\ operator_mul_scalar_first s (operator_plus a b)
     = operator_plus (operator_mul_scalar_first s a) (operator_mul_scalar_first s b).
Proof. repeat split; by_members. Qed.

(** X3: on integers the points are an affine space over the vectors:
    displacements compose, [(p - q) + (q - r)] being [p - r]; [p - p] is
    zero and [q - p] is [(p - q) * (-1)]; translating by [v] and then by [w]
    is translating by [v + w]; translating a point moves its displacement
    from any other point by the same vector, and translating both points
    leaves their displacement as it was. *)
Theorem point_affine_laws (p q r : Point Z) (v w : Vector Z) :
  operator_plus (point_hpp.operator_minus_point p q)
                (point_hpp.operator_minus_point q r)
    = point_hpp.operator_minus_point p r
  /\ point_hpp.operator_minus_point p p = default
  /\ point_hpp.operator_minus_point q p
     = operator_mul (point_hpp.operator_minus_point p q) (-1)
  /\ point_hpp.operator_plus (point_hpp.operator_plus p v) w
     = point_hpp.operator_plus p (operator_plus v w)
  /\ point_hpp.operator_minus (point_hpp.operator_minus p v) w
     = point_hpp.operator_minus p (operator_plus v w)
  /\ point_hpp.operator_minus p v = point_hpp.operator_plus p (operator_mul v (-1))
  /\ point_hpp.operator_minus_point (point_hpp.operator_plus p v) q
     = operator_plus (point_hpp.operator_minus_point p q) v
  /\ point_hpp.operator_minus_point (point_hpp.operator_plus p v)
                                    (point_hpp.operator_plus q v)
     = point_hpp.operator_minus_point p q
  /\ point_hpp.operator_plus p default = p.
Proof. repeat split; by_members. Qed.

Lemma int_div_scalar (v : Vector Z) (s : Z) :
  s <> 0 -> operator_div v s = Some (mkVector (Z.quot (x v) s) (Z.quot (y v) s)).
Proof.
  intros Hs. unfold operator_div; cbn.
  destruct (Z.eqb_spec s 0); [contradiction|reflexivity].
Qed.

Lemma quot_remainder (a s : Z) :
  s <> 0 -> a - Z.quot a s * s = Z.rem a s.
Proof. intros Hs. rewrite (Z.rem_eq a s Hs). lia. Qed.

(** On the integers without a bound [v / s], for [s] not zero, truncates
    each member towards zero: what [(v / s) * s] leaves of [v] is, in each
    member, smaller in magnitude than [s] and of the sign of [v]'s member,
    and it is zero, so that [(v / s) * s] is [v], exactly when [s] divides
    both members. *)
Lemma vector_div_truncates (v : Vector Z) (s : Z) :
  s <> 0 ->
  exists q,
    operator_div v s = Some q
    /\ (let r := operator_minus v (operator_mul q s) in
        Z.abs (x r) < Z.abs s /\ Z.abs (y r) < Z.abs s
        /\ 0 <= x r * x v /\ 0 <= y r * y v)
    /\ (operator_mul q s = v <-> (s | x v) /\ (s | y v)).
Proof.
  intros Hs. exists (mkVector (Z.quot (x v) s) (Z.quot (y v) s)).
  split; [apply int_div_scalar, Hs|].
  destruct v as [a b]. unfold operator_minus, operator_mul.
  cbn [x y e_sub e_mul int_elem].
  rewrite !quot_remainder by assumption. split.
  - repeat split;
      first [apply Z.rem_bound_abs; assumption | apply Z.rem_sign_mul; assumption].
  - rewrite <- !Z.rem_divide by assumption.
    rewrite <- !(quot_remainder _ s Hs).
    generalize (Z.quot a s) (Z.quot b s). intros qa qb. split.
    + intros [= Ha Hb]. lia.
    + intros [Ha Hb]. f_equal; lia.
Qed.

End FurtherAlgebra.

(** ** The two orders on integers, further *)

Section FurtherOrders.
Local Open Scope Z_scope.

Ltac int_compare :=
  repeat match goal with
         | |- context [Z.eqb ?m ?n] => destruct (Z.eqb_spec m n) as [?|?]
         | H : context [Z.eqb ?m ?n] |- _ => destruct (Z.eqb_spec m n) as [?|?]
         | |- context [Z.ltb ?m ?n] => destruct (Z.ltb_spec m n) as [?|?]
         | H : context [Z.ltb ?m ?n] |- _ => destruct (Z.ltb_spec m n) as [?|?]
         | |- context [Z.leb ?m ?n] => destruct (Z.leb_spec m n) as [?|?]
         | H : context [Z.leb ?m ?n] |- _ => destruct (Z.leb_spec m n) as [?|?]
         end;
  cbn in *; try discriminate; try reflexivity; try lia.

Ltac by_comparisons :=
  intros;
  repeat match goal with v : vector_hpp.Vector Z |- _ => destruct v end;
  repeat match goal with p : point_hpp.Point Z |- _ => destruct p end;
  cbv [vector_hpp.operator_le vector_hpp.operator_ge vector_hpp.operator_lt
       vector_hpp.operator_gt vector_hpp.operator_eq vector_hpp.operator_ne
       vector_hpp.less vector_hpp.operator_plus vector_hpp.operator_mul
       vector_hpp.default vector_hpp.x vector_hpp.y
       point_hpp.operator_le point_hpp.operator_ge point_hpp.operator_lt
       point_hpp.operator_gt point_hpp.operator_eq point_hpp.operator_ne
       point_hpp.less point_hpp.operator_plus point_hpp.operator_minus
       point_hpp.operator_minus_point point_hpp.x point_hpp.y
       e_le e_lt e_eq e_add e_sub e_mul e_zero int_elem] in *;
  int_compare.

Lemma vector_members_eq (a b : vector_hpp.Vector Z) :
  a = b <-> vector_hpp.x a = vector_hpp.x b /\ vector_hpp.y a = vector_hpp.y b.
Proof.
  destruct a, b; cbn. split; [intros [= -> ->]; auto|intros [-> ->]; reflexivity].
Qed.

Lemma point_members_eq (a b : point_hpp.Point Z) :
  a = b <-> point_hpp.x a = point_hpp.x b /\ point_hpp.y a = point_hpp.y b.
Proof.
  destruct a, b; cbn. split; [intros [= -> ->]; auto|intros [-> ->]; reflexivity].
Qed.

(** X5: on integers [operator<=] of vectors and of points is antisymmetric,
    hence a partial order, and [operator<] is its strict part: irreflexive,
    transitive, asymmetric, holding exactly when no member is larger and at
    least one is smaller; [a <= b] is [a < b] or [a == b]; [operator>=] and
    [operator>] are the same relations with the operands exchanged. *)
Theorem dominance_is_partial_order :
  dominance_partial_order vector_hpp.x vector_hpp.y
    vector_hpp.operator_le vector_hpp.operator_ge
    vector_hpp.operator_lt vector_hpp.operator_gt
  /\ dominance_partial_order point_hpp.x point_hpp.y
       point_hpp.operator_le point_hpp.operator_ge
       point_hpp.operator_lt point_hpp.operator_gt.
Proof.
  split.
  - repeat split; intros; try by_comparisons;
      try (rewrite vector_members_eq in *; by_comparisons).
  - repeat split; intros; try by_comparisons;
      try (rewrite point_members_eq in *; by_comparisons).
Qed.

Lemma dominance_is_partial_order_witness :
  vector_hpp.operator_lt (vector_hpp.mkVector 1 1) (vector_hpp.mkVector 3 4) = true.
Proof.
  destruct dominance_is_partial_order as [(_ & _ & Htrans & _) _].
  apply (Htrans _ (vector_hpp.mkVector 1 4)); reflexivity.
Defined.

(** On the integers without a bound both orders and the equality are invariant
    under translation: adding one vector to two vectors, or to two points,
    changes none of [<=], [<], [==] and [std::less] between them; and two points
    compare as the zero vector and their displacement do. *)
Lemma orders_translation_invariant :
  (forall a b c : vector_hpp.Vector Z,
      let a' := vector_hpp.operator_plus a c in
      let b' := vector_hpp.operator_plus b c in
      vector_hpp.operator_le a' b' = vector_hpp.operator_le a b
      /\ vector_hpp.operator_lt a' b' = vector_hpp.operator_lt a b
      /\ vector_hpp.operator_eq a' b' = vector_hpp.operator_eq a b
      /\ vector_hpp.less a' b' = vector_hpp.less a b)
  /\ (forall (p q : point_hpp.Point Z) (v : vector_hpp.Vector Z),
        let p' := point_hpp.operator_plus p v in
        let q' := point_hpp.operator_plus q v in
        point_hpp.operator_le p' q' = point_hpp.operator_le p q
        /\ point_hpp.operator_lt p' q' = point_hpp.operator_lt p q
        /\ point_hpp.operator_eq p' q' = point_hpp.operator_eq p q
        /\ point_hpp.less p' q' = point_hpp.less p q)
  /\ (forall p q : point_hpp.Point Z,
        let d := point_hpp.operator_minus_point q p in
        point_hpp.operator_le p q = vector_hpp.operator_le vector_hpp.default d
        /\ point_hpp.operator_lt p q = vector_hpp.operator_lt vector_hpp.default d
        /\ point_hpp.operator_eq p q = vector_hpp.operator_eq vector_hpp.default d
        /\ point_hpp.less p q = vector_hpp.less vector_hpp.default d).
Proof.
  cbv zeta. split; [|split]; intros; repeat split; by_comparisons.
Qed.

(** On the integers without a bound the multiplication by a positive scalar
    keeps [operator<=] and [std::less] between two vectors, and the
    multiplication by a negative scalar reverses them. *)
Lemma orders_under_scaling (a b : vector_hpp.Vector Z) (s : Z) :
  s <> 0 ->
  let a' := vector_hpp.operator_mul a s in
  let b' := vector_hpp.operator_mul b s in
  vector_hpp.operator_le a' b'
    = (if 0 <? s then vector_hpp.operator_le a b else vector_hpp.operator_le b a)
  /\ vector_hpp.less a' b'
     = (if 0 <? s then vector_hpp.less a b else vector_hpp.less b a).
Proof.
  intros Hs. cbv zeta. destruct a as [ax ay], b as [bx b_y].
  cbv [vector_hpp.operator_le vector_hpp.less vector_hpp.operator_mul
       vector_hpp.x vector_hpp.y e_le e_lt e_mul int_elem].
  destruct (Z.ltb_spec 0 s) as [Hpos|Hneg].
  - split; int_compare; nia.
  - assert (s < 0) by lia. split; int_compare; nia.
Qed.

(** X8: on integers [std::less] extends the strict dominance order: a
    vector or point that is [<] another is also [less] than it, so that
    sorting with [std::less] puts a dominated element first.  The elements
    that [std::less] leaves unordered are those that [operator==] holds of. *)
Theorem less_extends_dominance :
  (forall a b : vector_hpp.Vector Z,
      vector_hpp.operator_lt a b = true -> vector_hpp.less a b = true)
  /\ (forall a b : point_hpp.Point Z,
        point_hpp.operator_lt a b = true -> point_hpp.less a b = true)
  /\ (forall a b : vector_hpp.Vector Z,
        vector_hpp.operator_eq a b
        = negb (vector_hpp.less a b) && negb (vector_hpp.less b a))
  /\ (forall a b : point_hpp.Point Z,
        point_hpp.operator_eq a b
        = negb (point_hpp.less a b) && negb (point_hpp.less b a)).
Proof.
  repeat split; by_comparisons.
Qed.

Lemma less_extends_dominance_witness :
  vector_hpp.less (vector_hpp.mkVector 1 2) (vector_hpp.mkVector 1 3) = true.
Proof.
  apply (proj1 less_extends_dominance). reflexivity.
Defined.
End FurtherOrders.

(** ** Length and normalization on integers, further *)

Section FurtherGeometry.
Import vector_hpp.
Local Open Scope Z_scope.

Lemma int_sqrt_below (n k : Z) : 0 <= n -> 0 <= k -> n < (k + 1) * (k + 1) -> Z.sqrt n <= k.
Proof.
  intros Hn Hk Hlt. destruct (int_sqrt_bounds n Hn) as [H0 [Hle _]]. nia.
Qed.

Lemma int_sqrt_above (n k : Z) : 0 <= k -> k * k <= n -> k <= Z.sqrt n.
Proof.
  intros Hk Hle. assert (Hn : 0 <= n) by nia.
  destruct (int_sqrt_bounds n Hn) as [H0 [_ Hlt]]. nia.
Qed.

(** On the integers without a bound the length of a vector lies between the
    larger of the magnitudes of its members and their sum; it is zero only for
    the zero vector; and it is the same for the vector with a member negated,
    with the members exchanged, or multiplied by [-1]. *)
Lemma length_int_bounds (v : Vector Z) :
  exists l,
    length v = Some l
    /\ Z.max (Z.abs (x v)) (Z.abs (y v)) <= l <= Z.abs (x v) + Z.abs (y v)
    /\ (l = 0 <-> v = default)
    /\ length (mkVector (- x v) (y v)) = Some l
    /\ length (mkVector (y v) (x v)) = Some l
    /\ length (operator_mul v (-1)) = Some l.
Proof.
  exists (Z.sqrt (x v * x v + y v * y v)). split; [apply length_int|].
  split; [|split; [|split; [|split]]].
  - split.
    + pose proof (abs_le_length (x v) (y v)) as Hx.
      pose proof (abs_le_length (y v) (x v)) as Hy.
      replace (y v * y v + x v * x v) with (x v * x v + y v * y v) in Hy by lia.
      lia.
    + apply int_sqrt_below; [apply sum_of_squares_nonneg|lia|].
      rewrite <- (Z.abs_square (x v)), <- (Z.abs_square (y v)).
      pose proof (Z.abs_nonneg (x v)) as Hx. pose proof (Z.abs_nonneg (y v)) as Hy.
      revert Hx Hy. generalize (Z.abs (x v)) (Z.abs (y v)). intros p q Hp Hq. nia.
  - rewrite <- length_int_zero, length_int. split; congruence.
  - rewrite length_int. cbn [x y]. do 2 f_equal. lia.
  - rewrite length_int. cbn [x y]. do 2 f_equal. lia.
  - rewrite length_int. unfold operator_mul. cbn [x y e_mul int_elem].
    do 2 f_equal. lia.
Qed.

Lemma dot_product_bound (ax ay bx b_y : Z) :
  (ax * bx + ay * b_y) * (ax * bx + ay * b_y)
  <= (ax * ax + ay * ay) * (bx * bx + b_y * b_y).
Proof.
  pose proof (Z.square_nonneg (ax * b_y - ay * bx)) as H. lia.
Qed.

(** The truncated square root of the squared norm of a sum. *)
Lemma int_norm_of_sum (ax ay bx b_y : Z) :
  Z.sqrt ((ax + bx) * (ax + bx) + (ay + b_y) * (ay + b_y))
  <= Z.sqrt (ax * ax + ay * ay) + Z.sqrt (bx * bx + b_y * b_y) + 1.
Proof.
  set (na := ax * ax + ay * ay). set (nb := bx * bx + b_y * b_y).
  assert (Hna : 0 <= na) by apply sum_of_squares_nonneg.
  assert (Hnb : 0 <= nb) by apply sum_of_squares_nonneg.
  destruct (int_sqrt_bounds na Hna) as [Ha0 [Hale Halt]].
  destruct (int_sqrt_bounds nb Hnb) as [Hb0 [Hble Hblt]].
  set (la := Z.sqrt na) in *. set (lb := Z.sqrt nb) in *.
  apply int_sqrt_below; [apply sum_of_squares_nonneg|lia|].
  pose proof (dot_product_bound ax ay bx b_y) as Hdot.
  fold na nb in Hdot.
  set (d := ax * bx + ay * b_y) in *.
  assert (Hd : d < (la + 1) * (lb + 1)).
  { assert (Hprod : na * nb < ((la + 1) * (lb + 1)) * ((la + 1) * (lb + 1))) by nia.
    nia. }
  replace ((ax + bx) * (ax + bx) + (ay + b_y) * (ay + b_y))
    with (na + nb + 2 * d) by (unfold na, nb, d; lia).
  nia.
Qed.

(** On the integers without a bound the truncated length obeys the triangle inequality up
    to one unit, [length(a + b) <= length(a) + length(b) + 1]; the unit is
    needed, [(2, 2) + (2, 2)] having length [5] and [(2, 2)] length [2].
    The length of [v * s] lies between [|s|] times the length of [v] and
    [|s|] times that length plus one. *)
Lemma length_int_triangle (a b : Vector Z) (s : Z) :
  exists la lb lab las,
    length a = Some la /\ length b = Some lb
    /\ length (operator_plus a b) = Some lab
    /\ length (operator_mul a s) = Some las
    /\ lab <= la + lb + 1
    /\ Z.abs s * la <= las <= Z.abs s * (la + 1)
    /\ (length (mkVector 2 2) = Some 2
        /\ length (operator_plus (mkVector 2 2) (mkVector 2 2)) = Some 5).
Proof.
  do 4 eexists. rewrite !length_int.
  split; [reflexivity|]. split; [reflexivity|]. split; [reflexivity|].
  split; [reflexivity|].
  destruct a as [ax ay], b as [bx b_y].
  unfold operator_plus, operator_mul. cbn [x y e_add e_mul int_elem].
  split; [apply int_norm_of_sum|]. split; [|split; reflexivity].
  set (na := ax * ax + ay * ay).
  assert (Hna : 0 <= na) by apply sum_of_squares_nonneg.
  destruct (int_sqrt_bounds na Hna) as [Ha0 [Hale Halt]].
  set (la := Z.sqrt na) in *.
  replace (ax * s * (ax * s) + ay * s * (ay * s)) with (na * (s * s))
    by (unfold na; lia).
  assert (Hs : Z.abs s * Z.abs s = s * s) by lia.
  assert (Hs0 : 0 <= Z.abs s) by lia.
  split.
  - apply int_sqrt_above; [nia|]. nia.
  - apply int_sqrt_below; [nia|nia|]. nia.
Qed.

(** On the integers without a bound the length of the displacement between two
    points behaves as a distance: it is the same from [p] to [q] as from [q] to
    [p], zero only when the points are the same, unchanged when both points are
    translated by one vector, and the distance from [p] to [r] exceeds the
    distances from [p] to [q] and from [q] to [r] together by one unit at most. *)
Lemma distance_on_integers (p q r : point_hpp.Point Z) (v : Vector Z) :
  exists dpq dqr dpr,
    length (point_hpp.operator_minus_point p q) = Some dpq
    /\ length (point_hpp.operator_minus_point q r) = Some dqr
    /\ length (point_hpp.operator_minus_point p r) = Some dpr
    /\ length (point_hpp.operator_minus_point q p) = Some dpq
    /\ (dpq = 0 <-> p = q)
    /\ length (point_hpp.operator_minus_point (point_hpp.operator_plus p v)
                                              (point_hpp.operator_plus q v))
       = Some dpq
    /\ dpr <= dpq + dqr + 1.
Proof.
  do 3 eexists. rewrite !length_int.
  split; [reflexivity|]. split; [reflexivity|]. split; [reflexivity|].
  destruct p as [px py], q as [qx qy], r as [rx ry], v as [vx vy].
  unfold point_hpp.operator_minus_point, point_hpp.operator_plus.
  cbn [x y point_hpp.x point_hpp.y e_add e_sub int_elem].
  split; [|split; [|split]].
  - do 2 f_equal. lia.
  - split.
    + intros Hz. apply int_sqrt_zero in Hz; [|apply sum_of_squares_nonneg].
      pose proof (Z.square_nonneg (px - qx)) as Hx.
      pose proof (Z.square_nonneg (py - qy)) as Hy.
      assert (Ex : (px - qx) * (px - qx) = 0) by lia.
      assert (Ey : (py - qy) * (py - qy) = 0) by lia.
      apply Z.mul_eq_0 in Ex, Ey. f_equal; lia.
    + intros [= -> ->]. rewrite !Z.sub_diag. reflexivity.
  - do 2 f_equal. lia.
  - pose proof (int_norm_of_sum (px - qx) (py - qy) (qx - rx) (qy - ry)) as Htri.
    replace (px - qx + (qx - rx)) with (px - rx) in Htri by lia.
    replace (py - qy + (qy - ry)) with (py - ry) in Htri by lia.
    exact Htri.
Qed.

(** On the integers without a bound the length is monotone for the dominance
    order on the vectors whose members are not negative: from [Vector() <= a]
    and [a <= b] follows [length(a) <= length(b)]. *)
Lemma length_int_monotone (a b : Vector Z) :
  operator_le default a = true ->
  operator_le a b = true ->
  exists la lb, length a = Some la /\ length b = Some lb /\ la <= lb.
Proof.
  intros H0 Hab. do 2 eexists. rewrite !length_int.
  split; [reflexivity|]. split; [reflexivity|].
  apply vector_le_int in H0, Hab. cbn in H0.
  apply Z.sqrt_le_mono. nia.
Qed.

Lemma normalized_of_signs (sx sy : Z) :
  -1 <= sx <= 1 -> -1 <= sy <= 1 ->
  normalized (mkVector sx sy) = Some (mkVector sx sy).
Proof.
  intros Hx Hy.
  assert (Cx : sx = -1 \/ sx = 0 \/ sx = 1) by lia.
  assert (Cy : sy = -1 \/ sy = 0 \/ sy = 1) by lia.
  destruct Cx as [->|[->| ->]], Cy as [->|[->| ->]]; reflexivity.
Qed.

(** On the integers without a bound [normalized] keeps of each member its sign,
    if its magnitude is the truncated length of the vector, and nothing
    otherwise; so the members of the result are [-1], [0] or [1], and
    normalizing a second time changes nothing. *)
Lemma normalized_int_signs (v : Vector Z) :
  exists l n,
    length v = Some l /\ normalized v = Some n
    /\ x n = (if Z.abs (x v) =? l then Z.sgn (x v) else 0)
    /\ y n = (if Z.abs (y v) =? l then Z.sgn (y v) else 0)
    /\ normalized n = Some n.
Proof.
  set (l := Z.sqrt (x v * x v + y v * y v)).
  assert (Hclosed :
            normalized v
            = Some (mkVector (if Z.abs (x v) =? l then Z.sgn (x v) else 0)
                             (if Z.abs (y v) =? l then Z.sgn (y v) else 0))).
  { rewrite normalized_int. cbv zeta. fold l.
    pose proof (abs_le_length (x v) (y v)) as Hx. fold l in Hx.
    pose proof (abs_le_length (y v) (x v)) as Hy.
    replace (y v * y v + x v * x v) with (x v * x v + y v * y v) in Hy by lia.
    fold l in Hy.
    destruct (Z.eqb_spec l 0) as [Hl|Hl].
    - assert (x v = 0) by lia. assert (y v = 0) by lia.
      replace (x v) with 0 by lia. replace (y v) with 0 by lia.
      rewrite Hl. reflexivity.
    - assert (Hpos : 0 < l) by (pose proof (Z.sqrt_nonneg (x v * x v + y v * y v)); lia).
      rewrite (quot_by_bound (x v) l Hpos Hx), (quot_by_bound (y v) l Hpos Hy).
      reflexivity. }
  exists l. eexists. split; [apply length_int|]. split; [exact Hclosed|].
  split; [reflexivity|]. split; [reflexivity|].
  apply normalized_of_signs.
  - destruct (Z.abs (x v) =? l); [|lia].
    destruct (Z.sgn_spec (x v)) as [[_ ->]|[[_ ->]|[_ ->]]]; lia.
  - destruct (Z.abs (y v) =? l); [|lia].
    destruct (Z.sgn_spec (y v)) as [[_ ->]|[[_ ->]|[_ ->]]]; lia.
Qed.
End FurtherGeometry.

(** ** Equality, and the sum on [double] *)

Section FurtherEquality.
Import vector_hpp.

Ltac sf_compare :=
  repeat match goal with
         | H : context [Pos.compare_cont Eq ?a ?b] |- _ =>
             change (Pos.compare_cont Eq a b) with (Pos.compare a b) in H
         | |- context [Pos.compare_cont Eq ?a ?b] =>
             change (Pos.compare_cont Eq a b) with (Pos.compare a b)
         end;
  repeat match goal with
         | H : context [Z.compare ?a ?b] |- _ => destruct (Z.compare_spec a b)
         | |- context [Z.compare ?a ?b] => destruct (Z.compare_spec a b)
         | H : context [Pos.compare ?a ?b] |- _ => destruct (Pos.compare_spec a b)
         | |- context [Pos.compare ?a ?b] => destruct (Pos.compare_spec a b)
         end;
  cbn in *; try discriminate; try reflexivity; try lia.

Lemma SFeqb_sym (a b : spec_float) : SFeqb a b = SFeqb b a.
Proof.
  unfold SFeqb.
  destruct a as [[]|[]| |[] ma ea], b as [[]|[]| |[] mb eb];
    cbn; try reflexivity; sf_compare.
Qed.

Lemma SFeqb_trans (a b c : spec_float) :
  SFeqb a b = true -> SFeqb b c = true -> SFeqb a c = true.
Proof.
  unfold SFeqb.
  destruct a as [[]|[]| |[] ma ea], b as [[]|[]| |[] mb eb],
           c as [[]|[]| |[] mc ec];
    cbn; intros; try discriminate; try reflexivity; sf_compare.
Qed.

Lemma double_eq_sym (a b : float) : e_eq a b = e_eq b a.
Proof. cbn. rewrite !FloatAxioms.eqb_spec. apply SFeqb_sym. Qed.

Lemma double_eq_trans (a b c : float) :
  e_eq a b = true -> e_eq b c = true -> e_eq a c = true.
Proof. cbn. rewrite !FloatAxioms.eqb_spec. apply SFeqb_trans. Qed.

(** X13: [operator==] of vectors and of points is an equivalence on
    integers, where it holds of two structs exactly when they are the same
    and [operator!=] exactly when they are not.  On [double] it is symmetric
    and transitive; a vector equals itself unless a member is NaN; and it
    holds of [(0, 0)] and [(-0, 0)], which are not the same struct. *)
Theorem equality_operators :
  (forall a b : Vector Z,
      (operator_eq a b = true <-> a = b) /\ (operator_ne a b = true <-> a <> b))
  /\ (forall a b : point_hpp.Point Z,
        (point_hpp.operator_eq a b = true <-> a = b)
        /\ (point_hpp.operator_ne a b = true <-> a <> b))
  /\ (forall a b : Vector float, operator_eq a b = operator_eq b a)
  /\ (forall a b c : Vector float,
        operator_eq a b = true -> operator_eq b c = true -> operator_eq a c = true)
  /\ (forall a b : point_hpp.Point float,
        point_hpp.operator_eq a b = point_hpp.operator_eq b a)
  /\ (forall a b c : point_hpp.Point float,
        point_hpp.operator_eq a b = true -> point_hpp.operator_eq b c = true ->
        point_hpp.operator_eq a c = true)
  /\ (forall a : Vector float,
        operator_eq a a = negb (is_nan (x a) || is_nan (y a)))
  /\ (operator_eq (mkVector 0 0)%float (mkVector (-0) 0)%float = true
      /\ mkVector 0%float 0%float <> mkVector (-0)%float 0%float).
Proof.
  split; [|split; [|split; [|split; [|split; [|split; [|split]]]]]].
  - intros a b. split; [apply vector_eq_int|apply vector_ne_int].
  - intros a b. split; [apply point_eq_int|apply point_ne_int].
  - intros a b. unfold operator_eq.
    rewrite (double_eq_sym (x a)), (double_eq_sym (y a)). reflexivity.
  - intros a b c. unfold operator_eq. rewrite !andb_true_iff.
    intros [Hx Hy] [Hx' Hy']. split; eapply double_eq_trans; eassumption.
  - intros a b. unfold point_hpp.operator_eq.
    rewrite (double_eq_sym (point_hpp.x a)), (double_eq_sym (point_hpp.y a)).
    reflexivity.
  - intros a b c. unfold point_hpp.operator_eq. rewrite !andb_true_iff.
    intros [Hx Hy] [Hx' Hy']. split; eapply double_eq_trans; eassumption.
  - intros a. unfold operator_eq, is_nan. cbn.
    destruct (PrimFloat.eqb (x a) (x a)), (PrimFloat.eqb (y a) (y a)); reflexivity.
  - split; [vm_compute; reflexivity|].
    intros E. apply (f_equal x) in E. cbn in E.
    apply (f_equal (fun f => PrimFloat.div 1 f)) in E.
    vm_compute in E.
    apply (f_equal (fun f => PrimFloat.ltb 0 f)) in E.
    vm_compute in E. discriminate.
Qed.

Lemma equality_operators_witness :
  operator_eq (mkVector 1 2)%float (mkVector 1 2)%float = true.
Proof.
  destruct equality_operators as (_ & _ & _ & Htrans & _).
  apply (Htrans _ (mkVector 1 2)%float); vm_compute; reflexivity.
Defined.

Lemma SFadd_comm (prec emax : Z) (a b : spec_float) :
  SFadd prec emax a b = SFadd prec emax b a.
Proof.
  destruct a as [[]|[]| |sa ma ea], b as [[]|[]| |sb mb eb]; cbn; try reflexivity.
  rewrite (Z.min_comm eb ea). f_equal. apply Z.add_comm.
Qed.

Lemma double_add_comm (a b : float) : e_add a b = e_add b a.
Proof.
  cbn. apply FloatAxioms.Prim2SF_inj. rewrite !FloatAxioms.add_spec. apply SFadd_comm.
Qed.

(** X14: on [double] the sum of two vectors does not depend on their order:
    [a + b] and [b + a] are the same struct, whatever the members, although
    the sum is not associative there. *)
Theorem vector_plus_double_comm (a b : Vector float) :
  operator_plus a b = operator_plus b a.
Proof.
  unfold operator_plus. f_equal; apply double_add_comm.
Qed.
End FurtherEquality.

(** ** Compound assignment, further *)

Section FurtherCompoundAssignment.
Import vector_hpp.
Context {T : Type} `{Elem T}.

Lemma with_vector_assigned (s : Store T) (this : nat) (v : Vector T) :
  vector_assigned s (with_vector this v s) this v.
Proof.
  split; [apply with_vector_lookup|]. split; [|reflexivity].
  intros o Ho. apply with_vector_lookup_ne. congruence.
Qed.

Lemma with_point_assigned (s : point_hpp.Store T) (this : nat)
    (p : point_hpp.Point T) :
  point_assigned s (with_point this p s) this p.
Proof.
  split; [apply lookup_insert_eq|]. split; [|reflexivity].
  intros o Ho. cbn. apply lookup_insert_ne. congruence.
Qed.

(** X15: [a += b] and [a -= b] on vectors return [a], leave in it the value
    of [a + b] and of [a - b] taken before the call, also when [b] is [a]
    itself, and change no other object. *)
Theorem vector_plus_minus_assign (s : Store T) (this rhs : nat) (a b : Vector T) :
  vectors s !! this = Some a ->
  vectors s !! rhs = Some b ->
  (exists s', operator_plus_assign this rhs s = Some (this, s')
              /\ vector_assigned s s' this (operator_plus a b))
  /\ (exists s', operator_minus_assign this rhs s = Some (this, s')
                 /\ vector_assigned s s' this (operator_minus a b)).
Proof.
  intros Ea Eb. split; eexists; split.
  - apply (vector_plus_assign_agrees s this rhs a b Ea Eb).
  - apply with_vector_assigned.
  - apply (vector_minus_assign_agrees s this rhs a b Ea Eb).
  - apply with_vector_assigned.
Qed.

(** X16: [a *= k] and [a /= k] on a vector, with a scalar that is read
    through any reference but one to the member [x] of [a] itself, return
    [a], leave in it the value of [a * k] and of [a / k], and change no other
    object; [a /= k] is undefined exactly when [a / k] is. *)
Theorem vector_scalar_assign (s : Store T) (this : nat) (scalar : scalar_ref)
    (a : Vector T) (k : T) :
  vectors s !! this = Some a ->
  read_ref scalar s = Some (k, s) ->
  scalar <> ref_member this member_x ->
  (exists s', operator_mul_assign this scalar s = Some (this, s')
              /\ vector_assigned s s' this (operator_mul a k))
  /\ match operator_div a k with
     | Some q => exists s', operator_div_assign this scalar s = Some (this, s')
                            /\ vector_assigned s s' this q
     | None => operator_div_assign this scalar s = None
     end.
Proof.
  intros Ea Ek Hne. split.
  - eexists. split; [apply (vector_mul_assign_agrees s this scalar a k Ea Ek Hne)|].
    apply with_vector_assigned.
  - rewrite (vector_div_assign_agrees s this scalar a k Ea Ek Hne).
    destruct (operator_div a k) as [q|]; [|reflexivity].
    eexists. split; [reflexivity|]. apply with_vector_assigned.
Qed.

(** X17: [p += v] and [p -= v] on a point return [p], leave in it the value
    of [p + v] and of [p - v], and change no other point and no vector. *)
Theorem point_plus_minus_assign (s : point_hpp.Store T) (this rhs : nat)
    (p : point_hpp.Point T) (v : Vector T) :
  point_hpp.points s !! this = Some p ->
  vectors (point_hpp.others s) !! rhs = Some v ->
  (exists s', point_hpp.operator_plus_assign this rhs s = Some (this, s')
              /\ point_assigned s s' this (point_hpp.operator_plus p v))
  /\ (exists s', point_hpp.operator_minus_assign this rhs s = Some (this, s')
                 /\ point_assigned s s' this (point_hpp.operator_minus p v)).
Proof.
  intros Ep Ev. split; eexists; split.
  - apply (point_plus_assign_agrees s this rhs p v Ep Ev).
  - apply with_point_assigned.
  - apply (point_minus_assign_agrees s this rhs p v Ep Ev).
  - apply with_point_assigned.
Qed.
End FurtherCompoundAssignment.

Section FurtherCompoundAssignmentOnIntegers.
Import vector_hpp.
Local Open Scope Z_scope.

Lemma vector_plus_minus_assign_witness :
  let s := mkStore {[ 0%nat := mkVector 2 3; 1%nat := mkVector 5 7 ]} ∅ in
  (exists s', operator_plus_assign 0%nat 1%nat s = Some (0%nat, s')
              /\ vector_assigned s s' 0%nat (operator_plus (mkVector 2 3) (mkVector 5 7)))
  /\ (exists s', operator_minus_assign 0%nat 1%nat s = Some (0%nat, s')
                 /\ vector_assigned s s' 0%nat (operator_minus (mkVector 2 3) (mkVector 5 7))).
Proof.
  cbv zeta.
  apply (vector_plus_minus_assign _ 0%nat 1%nat (mkVector 2 3) (mkVector 5 7));
    reflexivity.
Defined.

Lemma vector_scalar_assign_witness :
  let s := mkStore {[ 0%nat := mkVector 6 12 ]} {[ 4%nat := 3 ]} in
  (exists s', operator_mul_assign 0%nat (ref_scalar 4%nat) s = Some (0%nat, s')
              /\ vector_assigned s s' 0%nat (operator_mul (mkVector 6 12) 3))
  /\ (exists s', operator_div_assign 0%nat (ref_scalar 4%nat) s = Some (0%nat, s')
                 /\ vector_assigned s s' 0%nat (mkVector 2 4)).
Proof.
  cbv zeta.
  assert (Hne : ref_scalar 4%nat <> ref_member 0%nat member_x) by discriminate.
  exact (vector_scalar_assign (mkStore {[ 0%nat := mkVector 6 12 ]} {[ 4%nat := 3 ]})
           0%nat (ref_scalar 4%nat) (mkVector 6 12) 3 eq_refl eq_refl Hne).
Defined.

Lemma point_plus_minus_assign_witness :
  let s := point_hpp.mkStore {[ 0%nat := point_hpp.mkPoint 1 2 ]}
             (mkStore {[ 0%nat := mkVector 3 (-1) ]} ∅) in
  (exists s', point_hpp.operator_plus_assign 0%nat 0%nat s = Some (0%nat, s')
              /\ point_assigned s s' 0%nat
                   (point_hpp.operator_plus (point_hpp.mkPoint 1 2) (mkVector 3 (-1))))
  /\ (exists s', point_hpp.operator_minus_assign 0%nat 0%nat s = Some (0%nat, s')
                 /\ point_assigned s s' 0%nat
                      (point_hpp.operator_minus (point_hpp.mkPoint 1 2) (mkVector 3 (-1)))).
Proof.
  cbv zeta.
  apply (point_plus_minus_assign _ 0%nat 0%nat (point_hpp.mkPoint 1 2)
           (mkVector 3 (-1))); reflexivity.
Defined.

Lemma with_vector_same (s : Store Z) (this : nat) (a : Vector Z) :
  vectors s !! this = Some a -> with_vector this a s = s.
Proof.
  intros Ea. destruct s as [vs ss]. unfold with_vector; cbn in *.
  f_equal. apply insert_id, Ea.
Qed.

Lemma with_point_same (s : point_hpp.Store Z) (this : nat) (p : point_hpp.Point Z) :
  point_hpp.points s !! this = Some p -> with_point this p s = s.
Proof.
  intros Ep. destruct s as [ps os]. unfold with_point; cbn in *.
  f_equal. apply insert_id, Ep.
Qed.

(** X18: on integers [a += b] followed by [a -= b] restores the whole store
    when [a] and [b] are two objects; when [b] is [a] itself the two calls
    leave the zero vector in [a].  For a point, [p += v] followed by
    [p -= v] always restores the store. *)
Theorem plus_then_minus_assign_restores :
  (forall (s : Store Z) (this rhs : nat) (a b : Vector Z),
      vectors s !! this = Some a ->
      vectors s !! rhs = Some b ->
      (operator_plus_assign this rhs ≫= (fun r => operator_minus_assign r rhs)) s
      = Some (this, if Nat.eqb this rhs then with_vector this default s else s))
  /\ (forall (s : point_hpp.Store Z) (this rhs : nat) (p : point_hpp.Point Z)
             (v : Vector Z),
        point_hpp.points s !! this = Some p ->
        vectors (point_hpp.others s) !! rhs = Some v ->
        (point_hpp.operator_plus_assign this rhs
           ≫= (fun r => point_hpp.operator_minus_assign r rhs)) s
        = Some (this, s)).
Proof.
  split.
  - intros s this rhs a b Ea Eb.
    rewrite bind_run, (vector_plus_assign_agrees s this rhs a b Ea Eb).
    destruct (Nat.eqb_spec this rhs) as [->|Hne].
    + assert (a = b) by congruence. subst b.
      rewrite (vector_minus_assign_agrees _ rhs rhs (operator_plus a a)
                 (operator_plus a a))
        by apply with_vector_lookup.
      rewrite with_vector_twice. do 3 f_equal.
      destruct a; unfold operator_minus, operator_plus, default; cbn.
      f_equal; lia.
    + rewrite (vector_minus_assign_agrees _ this rhs (operator_plus a b) b).
      * rewrite with_vector_twice. do 2 f_equal.
        replace (operator_minus (operator_plus a b) b) with a.
        -- apply with_vector_same, Ea.
        -- destruct a, b; unfold operator_minus, operator_plus; cbn. f_equal; lia.
      * apply with_vector_lookup.
      * rewrite with_vector_lookup_ne by assumption. exact Eb.
  - intros s this rhs p v Ep Ev.
    change ((point_hpp.operator_plus_assign this rhs
               ≫= (fun r => point_hpp.operator_minus_assign r rhs)) s)
      with (match point_hpp.operator_plus_assign this rhs s with
            | Some (r, s') => point_hpp.operator_minus_assign r rhs s'
            | None => None
            end).
    rewrite (point_plus_assign_agrees s this rhs p v Ep Ev).
    rewrite (point_minus_assign_agrees _ this rhs (point_hpp.operator_plus p v) v).
    + do 2 f_equal. unfold with_point at 1; cbn. rewrite insert_insert_eq.
      replace (point_hpp.operator_minus (point_hpp.operator_plus p v) v) with p.
      * apply with_point_same, Ep.
      * destruct p, v; unfold point_hpp.operator_minus, point_hpp.operator_plus; cbn.
        f_equal; lia.
    + cbn. apply lookup_insert_eq.
    + exact Ev.
Qed.

Lemma plus_then_minus_assign_restores_witness :
  let s := mkStore {[ 0%nat := mkVector 2 3; 1%nat := mkVector 5 7 ]} ∅ in
  (operator_plus_assign 0%nat 1%nat ≫= (fun r => operator_minus_assign r 1%nat)) s
  = Some (0%nat, if Nat.eqb 0 1 then with_vector 0%nat default s else s).
Proof.
  cbv zeta.
  exact (proj1 plus_then_minus_assign_restores
           (mkStore {[ 0%nat := mkVector 2 3; 1%nat := mkVector 5 7 ]} ∅)
           0%nat 1%nat (mkVector 2 3) (mkVector 5 7) eq_refl eq_refl).
Defined.
End FurtherCompoundAssignmentOnIntegers.

(** ** Stream output *)

Section StreamOutput.

Lemma digit_no_comma (d : N) : pretty_N_char d <> ","%char.
Proof. unfold pretty_N_char. repeat case_match; discriminate. Qed.

Lemma pretty_N_go_no_comma (n : N) (s : string) :
  no_comma s -> no_comma (pretty_N_go n s).
Proof.
  revert s. induction (N.lt_wf_0 n) as [n _ IH]. intros s Hs.
  destruct (N.eq_dec n 0%N) as [->|Hn].
  - rewrite pretty_N_go_0. exact Hs.
  - rewrite pretty_N_go_step by lia. apply IH.
    + apply N.div_lt; lia.
    + split; [apply digit_no_comma|exact Hs].
Qed.

Lemma int_output_no_comma (z : Z) : no_comma (e_out z).
Proof.
  unfold e_out, int_output, pretty, pretty_Z.
  destruct z as [|p|p].
  - cbn. split; [discriminate|exact I].
  - unfold pretty, pretty_positive, pretty, pretty_N.
    destruct (decide (N.pos p = 0%N)); [discriminate|].
    apply pretty_N_go_no_comma. exact I.
  - cbn [String.append]. split; [discriminate|].
    unfold pretty, pretty_positive, pretty, pretty_N.
    destruct (decide (N.pos p = 0%N)); [discriminate|].
    apply pretty_N_go_no_comma. exact I.
Qed.

Lemma append_cancel (o u v : string) : o +:+ u = o +:+ v -> u = v.
Proof. induction o as [|c o IH]; cbn; [auto|]. intros [= E]. auto. Qed.

Lemma split_at_comma (s1 s2 t1 t2 : string) :
  no_comma s1 -> no_comma s2 ->
  s1 +:+ String ","%char t1 = s2 +:+ String ","%char t2 -> s1 = s2 /\ t1 = t2.
Proof.
  revert s2. induction s1 as [|c s1 IH]; intros [|d s2]; cbn.
  - intros _ _ [= E]. auto.
  - intros _ [Hd _] [= E _]. congruence.
  - intros [Hc _] _ [= E _]. congruence.
  - intros [_ H1] [_ H2] [= -> E]. destruct (IH s2 H1 H2 E) as [-> ->]. auto.
Qed.

Lemma members_from_text (o : string) (ax ay bx b_y : Z) :
  o +:+ e_out ax +:+ ", " +:+ e_out ay = o +:+ e_out bx +:+ ", " +:+ e_out b_y ->
  ax = bx /\ ay = b_y.
Proof.
  intros E. apply append_cancel in E.
  apply split_at_comma in E; try apply int_output_no_comma.
  destruct E as [Ex Ey]. cbn in Ey. injection Ey as Ey.
  split; apply (inj pretty); assumption.
Qed.

(** X21: written to a stream, an integer vector or point appears as its two
    members in decimal with [", "] between them, after what the stream held;
    two vectors, or two points, that are written as the same text are the
    same; and a point is written as the vector with its members is. *)
Theorem output_is_unambiguous :
  (forall (o : string) (a b : vector_hpp.Vector Z),
      vector_hpp.operator_output o a = vector_hpp.operator_output o b -> a = b)
  /\ (forall (o : string) (a b : point_hpp.Point Z),
        point_hpp.operator_output o a = point_hpp.operator_output o b -> a = b)
  /\ (forall (o : string) (p : point_hpp.Point Z),
        point_hpp.operator_output o p
        = vector_hpp.operator_output o (position_vector p))
  /\ vector_hpp.operator_output "v = " (vector_hpp.mkVector (-3) 40)%Z = "v = -3, 40".
Proof.
  split; [|split; [|split]].
  - intros o [ax ay] [bx b_y] E. unfold vector_hpp.operator_output in E. cbn in E.
    destruct (members_from_text o ax ay bx b_y E) as [-> ->]. reflexivity.
  - intros o [ax ay] [bx b_y] E. unfold point_hpp.operator_output in E. cbn in E.
    destruct (members_from_text o ax ay bx b_y E) as [-> ->]. reflexivity.
  - reflexivity.
  - vm_compute. reflexivity.
Qed.

Lemma output_is_unambiguous_witness :
  vector_hpp.mkVector 12%Z (-5)%Z = vector_hpp.mkVector 12%Z (-5)%Z.
Proof.
  apply (proj1 output_is_unambiguous ""). reflexivity.
Defined.
End StreamOutput.

(** ** [double], further *)

Section FurtherDouble.
Import vector_hpp.

Lemma binary_round_aux_not_negative (prec emax mz ez : Z) (lz : location)
    (f : spec_float) :
  SFltb (binary_round_aux prec emax false mz ez lz) f = true ->
  SFltb (S754_zero false) f = true.
Proof.
  unfold binary_round_aux.
  destruct (shr_fexp prec emax mz ez lz) as [mrs' e'].
  destruct (shr_fexp prec emax _ e' loc_Exact) as [mrs'' e''].
  destruct (shr_m mrs'') as [|m|m]; [auto| |discriminate].
  destruct (e'' <=? emax - prec)%Z;
    unfold SFltb; destruct f as [[]|[]| |[] mf ef]; cbn; try discriminate; auto.
Qed.

Lemma SFsqrt_not_negative (prec emax : Z) (a : spec_float) :
  SFltb (SFsqrt prec emax a) (S754_zero false) = false.
Proof.
  destruct (SFltb (SFsqrt prec emax a) (S754_zero false)) eqn:E; [|reflexivity].
  destruct a as [[]|[]| |[] m e]; cbn in E; try discriminate.
  destruct (SFsqrt_core_binary prec emax (Z.pos m) e) as [[mz ez] lz].
  apply binary_round_aux_not_negative in E. discriminate.
Qed.

(** X22: on [double] the length of a vector is never negative, whatever the
    members: it is not [< 0], also when it is an infinity or NaN. *)
Theorem length_double_not_negative (v : Vector float) :
  exists l, length v = Some l /\ e_lt l e_zero = false.
Proof.
  eexists. split; [apply length_double|]. cbn.
  rewrite FloatAxioms.ltb_spec, FloatAxioms.sqrt_spec. apply SFsqrt_not_negative.
Qed.

Lemma SFmul_square_abs (prec emax : Z) (a : spec_float) :
  SFmul prec emax a a = SFmul prec emax (SFabs a) (SFabs a).
Proof. destruct a as [[]|[]| |[] m e]; reflexivity. Qed.

Lemma binary_round_aux_abs (prec emax : Z) (s : bool) (m e : Z) (l : location) :
  SFabs (binary_round_aux prec emax s m e l)
  = SFabs (binary_round_aux prec emax false m e l).
Proof.
  unfold binary_round_aux.
  destruct (shr_fexp prec emax m e l) as [mrs' e'].
  destruct (shr_fexp prec emax _ e' loc_Exact) as [mrs'' e''].
  destruct (shr_m mrs'') as [|p|p]; [reflexivity| |reflexivity].
  destruct (e'' <=? emax - prec)%Z; reflexivity.
Qed.

Lemma binary_round_abs (prec emax : Z) (s : bool) (m : positive) (e : Z) :
  SFabs (binary_round prec emax s m e) = SFabs (binary_round prec emax false m e).
Proof.
  unfold binary_round. destruct (shl_align _ _ _) as [mz ez].
  apply binary_round_aux_abs.
Qed.

Lemma binary_normalize_abs_opp (prec emax m e : Z) :
  SFabs (binary_normalize prec emax (- m) e false)
  = SFabs (binary_normalize prec emax m e false).
Proof.
  destruct m as [|p|p]; cbn; [reflexivity| |].
  - apply binary_round_abs.
  - symmetry. apply binary_round_abs.
Qed.

Lemma SFsub_abs_sym (prec emax : Z) (a b : spec_float) :
  SFabs (SFsub prec emax a b) = SFabs (SFsub prec emax b a).
Proof.
  destruct a as [[]|[]| |sa ma ea], b as [[]|[]| |sb mb eb]; cbn; try reflexivity.
  rewrite (Z.min_comm eb ea), <- binary_normalize_abs_opp. do 2 f_equal. lia.
Qed.

(** The square of a difference does not depend on the order of its terms. *)
Lemma double_square_of_difference (a b : float) :
  e_mul (e_sub a b) (e_sub a b) = e_mul (e_sub b a) (e_sub b a).
Proof.
  cbn. apply FloatAxioms.Prim2SF_inj.
  rewrite !FloatAxioms.mul_spec, !FloatAxioms.sub_spec.
  unfold SF64mul, SF64sub.
  rewrite SFmul_square_abs, (SFmul_square_abs _ _ (SFsub _ _ (Prim2SF b) (Prim2SF a))).
  rewrite (SFsub_abs_sym _ _ (Prim2SF a) (Prim2SF b)). reflexivity.
Qed.

(** X24: on [double] the length of a difference does not depend on the
    order of the operands, rounding or not: the distance from a point [p]
    to a point [q] is exactly the distance from [q] to [p], and
    [length(a - b)] is [length(b - a)] for vectors. *)
Theorem distance_double_symmetric :
  (forall p q : point_hpp.Point float,
      length (point_hpp.operator_minus_point p q)
      = length (point_hpp.operator_minus_point q p))
  /\ (forall a b : Vector float,
        length (operator_minus a b) = length (operator_minus b a)).
Proof.
  split.
  - intros p q. rewrite !length_double.
    unfold point_hpp.operator_minus_point. cbn.
    pose proof (double_square_of_difference (point_hpp.x p) (point_hpp.x q)) as Ex.
    pose proof (double_square_of_difference (point_hpp.y p) (point_hpp.y q)) as Ey.
    cbn in Ex, Ey. rewrite Ex, Ey. reflexivity.
  - intros a b. rewrite !length_double.
    unfold operator_minus. cbn.
    pose proof (double_square_of_difference (x a) (x b)) as Ex.
    pose proof (double_square_of_difference (y a) (y b)) as Ey.
    cbn in Ex, Ey. rewrite Ex, Ey. reflexivity.
Qed.

Lemma dominance_on_double_witness :
  operator_le (mkVector 1 2)%float (mkVector 3 4)%float = true.
Proof.
  destruct dominance_on_double as (_ & Htrans & _).
  apply (Htrans _ (mkVector 2 2)%float); vm_compute; reflexivity.
Defined.

Lemma less_on_double_witness :
  less (mkVector 1 5)%float (mkVector 2 1)%float = true.
Proof.
  destruct less_on_double as (_ & Htrans & _).
  apply (Htrans _ (mkVector 1.5 0)%float); vm_compute; reflexivity.
Defined.
End FurtherDouble.

(** * Machine integers

    What depends on the size of a result, stated on [int] and [long long]
    as the machine computes them. *)

(** ** Machine integers against the integers *)

Section MachineIntegers.
Import vector_hpp.
Local Open Scope Z_scope.
Context (w : Z) (Hw : 0 < w).

Lemma pow_digits : 2 ^ w = 2 * 2 ^ (w - 1).
Proof using Hw.
  replace w with (Z.succ (w - 1)) at 1 by lia. apply Z.pow_succ_r. lia.
Qed.

Lemma pow_digits_pos : 0 < 2 ^ (w - 1).
Proof using Hw. apply Z.pow_pos_nonneg; lia. Qed.

Lemma wrap_in_range (z : Z) : in_range w z -> wrap w z = z.
Proof using Hw.
  unfold in_range, wrap, int_min, int_max. intros Hz.
  rewrite Z.mod_small; [lia|]. rewrite pow_digits. lia.
Qed.

Lemma wrap_fits (z : Z) : in_range w (wrap w z).
Proof using Hw.
  unfold in_range, wrap, int_min, int_max.
  pose proof (Z.mod_pos_bound (z - - 2 ^ (w - 1)) (2 ^ w)) as Hm.
  rewrite pow_digits in *. pose proof pow_digits_pos. lia.
Qed.

Lemma wrap_mod (z : Z) : wrap w z mod 2 ^ w = z mod 2 ^ w.
Proof using Hw.
  unfold wrap. rewrite Zplus_mod_idemp_l. f_equal. lia.
Qed.

(** While the result fits, the machine computes what the integers do. *)
Lemma signed_add_exact (a b : signed w) :
  in_range w (value a + value b) -> e_add a b = Signed (value a + value b).
Proof using Hw. intros Hr. cbn. now rewrite wrap_in_range. Qed.

Lemma signed_sub_exact (a b : signed w) :
  in_range w (value a - value b) -> e_sub a b = Signed (value a - value b).
Proof using Hw. intros Hr. cbn. now rewrite wrap_in_range. Qed.

Lemma signed_mul_exact (a b : signed w) :
  in_range w (value a * value b) -> e_mul a b = Signed (value a * value b).
Proof using Hw. intros Hr. cbn. now rewrite wrap_in_range. Qed.

(** In every case the machine computes what the integers do, modulo
    [2 ^ w], and the result fits. *)
Lemma signed_add_mod (a b : signed w) :
  value (e_add a b) mod 2 ^ w = (value a + value b) mod 2 ^ w
  /\ in_range w (value (e_add a b)).
Proof using Hw. split; [apply wrap_mod|apply wrap_fits]. Qed.

Lemma signed_sub_mod (a b : signed w) :
  value (e_sub a b) mod 2 ^ w = (value a - value b) mod 2 ^ w
  /\ in_range w (value (e_sub a b)).
Proof using Hw. split; [apply wrap_mod|apply wrap_fits]. Qed.

Lemma signed_mul_mod (a b : signed w) :
  value (e_mul a b) mod 2 ^ w = (value a * value b) mod 2 ^ w
  /\ in_range w (value (e_mul a b)).
Proof using Hw. split; [apply wrap_mod|apply wrap_fits]. Qed.

(** The quotient is undefined for a divisor that is zero and for the one
    quotient that does not fit; otherwise it is that of the integers, and
    fits. *)
Lemma signed_div_exact (a b : signed w) :
  value b <> 0 -> ~ (value a = int_min w /\ value b = -1) ->
  e_div a b = Some (Signed (Z.quot (value a) (value b))).
Proof.
  intros Hb Hmin. cbn.
  destruct (Z.eqb_spec (value b) 0) as [|_]; [contradiction|].
  destruct (Z.eqb_spec (value a) (int_min w)) as [Ea|_],
           (Z.eqb_spec (value b) (-1)) as [Eb|_]; try reflexivity.
  exfalso. apply Hmin. split; assumption.
Qed.

Lemma signed_div_undefined (a b : signed w) :
  e_div a b = None <-> value b = 0 \/ (value a = int_min w /\ value b = -1).
Proof.
  cbn.
  destruct (Z.eqb_spec (value b) 0) as [Eb0|Nb0]; [tauto|].
  destruct (Z.eqb_spec (value a) (int_min w)) as [Ea|Na],
           (Z.eqb_spec (value b) (-1)) as [Eb|Nb]; cbn;
    split; try discriminate; try tauto; intros [?|[? ?]]; contradiction.
Qed.

Lemma quot_fits (a b : Z) :
  in_range w a -> b <> 0 -> ~ (a = int_min w /\ b = -1) ->
  in_range w (Z.quot a b).
Proof using Hw.
  unfold in_range, int_min, int_max. intros Ha Hb Hmin.
  pose proof pow_digits_pos as Hp.
  assert (Hq : Z.abs (Z.quot a b) <= Z.abs a).
  { rewrite <- Z.quot_abs by assumption.
    apply Z.quot_le_upper_bound; [lia|]. nia. }
  destruct (Z.eq_dec a (- 2 ^ (w - 1))) as [Ea|Na]; [|lia].
  assert (Nb : b <> -1) by (intros Eb; apply Hmin; split; assumption).
  destruct (Z.eq_dec b 1) as [->|Nb1]; [rewrite Z.quot_1_r; lia|].
  assert (Hq2 : Z.abs (Z.quot a b) <= Z.abs a / 2).
  { rewrite <- Z.quot_abs by assumption.
    rewrite Z.quot_div_nonneg by lia.
    apply Z.div_le_lower_bound; [lia|].
    pose proof (Z.mul_div_le (Z.abs a) (Z.abs b) ltac:(lia)).
    assert (2 <= Z.abs b) by lia. 
    pose proof (Z.div_pos (Z.abs a) (Z.abs b) ltac:(lia) ltac:(lia)). nia. }
  assert (Z.abs a / 2 <= 2 ^ (w - 1) - 1); [|lia].
  rewrite Ea, Z.abs_opp, Z.abs_eq by lia.
  assert (2 ^ (w - 1) / 2 < 2 ^ (w - 1)) by (apply Z.div_lt; lia). lia.
Qed.

(** The square root of a number of at most 52 binary digits is the integer
    square root; of a negative number, which only a sum that has wrapped
    around can be, the most negative integer. *)
Lemma signed_sqrt_exact (a : signed w) :
  0 <= value a < 2 ^ 52 -> e_sqrt a = Some (Signed (Z.sqrt (value a))).
Proof.
  intros Ha. cbn. destruct (Z.ltb_spec (value a) 0) as [|_]; [lia|].
  rewrite sqrt_via_double_exact by exact Ha. reflexivity.
Qed.

Lemma signed_sqrt_negative (a : signed w) :
  value a < 0 -> e_sqrt a = Some (Signed (int_min w)).
Proof.
  intros Ha. cbn. destruct (Z.ltb_spec (value a) 0) as [_|]; [reflexivity|lia].
Qed.

Lemma values_of_values (v : Vector Z) : values (@of_values w v) = v.
Proof. destruct v; reflexivity. Qed.

Lemma of_values_values (v : Vector (signed w)) : of_values (values v) = v.
Proof. destruct v as [[a] [b]]; reflexivity. Qed.

Lemma values_inj (a b : Vector (signed w)) : values a = values b -> a = b.
Proof.
  intros E. rewrite <- (of_values_values a), <- (of_values_values b), E.
  reflexivity.
Qed.

(** The operators on vectors of machine integers, against those on the
    integers. *)
Lemma vector_plus_exact (a b : Vector (signed w)) :
  fits w (operator_plus (values a) (values b)) ->
  operator_plus a b = of_values (operator_plus (values a) (values b)).
Proof using Hw.
  intros [Hx Hy]. unfold operator_plus, of_values. cbn [x y values] in *.
  rewrite !signed_add_exact by assumption. reflexivity.
Qed.

Lemma vector_minus_exact (a b : Vector (signed w)) :
  fits w (operator_minus (values a) (values b)) ->
  operator_minus a b = of_values (operator_minus (values a) (values b)).
Proof using Hw.
  intros [Hx Hy]. unfold operator_minus, of_values. cbn [x y values] in *.
  rewrite !signed_sub_exact by assumption. reflexivity.
Qed.

Lemma vector_mul_exact (a : Vector (signed w)) (s : signed w) :
  fits w (operator_mul (values a) (value s)) ->
  operator_mul a s = of_values (operator_mul (values a) (value s)).
Proof using Hw.
  intros [Hx Hy]. unfold operator_mul, of_values. cbn [x y values] in *.
  rewrite !signed_mul_exact by assumption. reflexivity.
Qed.

Lemma vector_div_exact (a : Vector (signed w)) (s : signed w) :
  value s <> 0 ->
  ~ (value s = -1 /\ (value (x a) = int_min w \/ value (y a) = int_min w)) ->
  operator_div a s
  = Some (of_values (mkVector (Z.quot (value (x a)) (value s))
                              (Z.quot (value (y a)) (value s)))).
Proof.
  intros Hs Hmin. unfold operator_div.
  rewrite !signed_div_exact by (assumption || tauto). reflexivity.
Qed.

Lemma vector_compare_exact (a b : Vector (signed w)) :
  operator_eq a b = operator_eq (values a) (values b)
  /\ operator_ne a b = operator_ne (values a) (values b)
  /\ operator_le a b = operator_le (values a) (values b)
  /\ operator_ge a b = operator_ge (values a) (values b)
  /\ operator_lt a b = operator_lt (values a) (values b)
  /\ operator_gt a b = operator_gt (values a) (values b)
  /\ less a b = less (values a) (values b).
Proof. repeat split; reflexivity. Qed.

Lemma squared_norm_nonneg (v : Vector Z) : 0 <= squared_norm v.
Proof. unfold squared_norm. nia. Qed.

(** A vector whose squared norm fits has members that fit, and squares of
    members that fit. *)
Lemma squared_norm_fits (v : Vector Z) :
  squared_norm v <= int_max w ->
  fits w v /\ in_range w (x v * x v) /\ in_range w (y v * y v)
  /\ in_range w (squared_norm v).
Proof using Hw.
  unfold squared_norm, fits, in_range, int_min, int_max.
  pose proof pow_digits_pos. intros Hn.
  assert (Z.abs (x v) <= x v * x v) by nia.
  assert (Z.abs (y v) <= y v * y v) by nia.
  repeat split; nia.
Qed.

Lemma length_exact (v : Vector (signed w)) :
  squared_norm (values v) <= int_max w -> squared_norm (values v) < 2 ^ 52 ->
  length v = Some (Signed (Z.sqrt (squared_norm (values v)))).
Proof using Hw.
  intros Hn H52. destruct (squared_norm_fits _ Hn) as (_ & Hx & Hy & Hs).
  unfold length. unfold squared_norm in *. cbn [x y values] in *.
  rewrite !signed_mul_exact by assumption.
  rewrite signed_add_exact by assumption.
  rewrite signed_sqrt_exact; [reflexivity|]. cbn [value].
  split; [nia|exact H52].
Qed.

Lemma normalized_exact (v : Vector (signed w)) :
  squared_norm (values v) <= int_max w -> squared_norm (values v) < 2 ^ 52 ->
  normalized v = option_map of_values (normalized (values v)).
Proof using Hw.
  intros Hn H52. unfold normalized at 1. rewrite length_exact by assumption.
  rewrite normalized_int. cbn [option_map mbind option_bind].
  fold (squared_norm (values v)).
  pose proof (Z.sqrt_nonneg (squared_norm (values v))) as Hl.
  change (e_eq (Signed (Z.sqrt (squared_norm (values v)))) (@e_zero (signed w) _))
    with (Z.sqrt (squared_norm (values v)) =? 0).
  cbv zeta.
  destruct (Z.eqb_spec (Z.sqrt (squared_norm (values v))) 0) as [E|N];
    [reflexivity|].
  rewrite vector_div_exact; [reflexivity|exact N|]. cbn [value]. lia.
Qed.
End MachineIntegers.

(** The same for the operators on points. *)

Section MachinePoints.
Import vector_hpp.
Local Open Scope Z_scope.
Context (w : Z) (Hw : 0 < w).

Lemma point_plus_exact (p : point_hpp.Point (signed w)) (v : Vector (signed w)) :
  point_fits w (point_hpp.operator_plus (point_values p) (values v)) ->
  point_hpp.operator_plus p v
  = of_point_values (point_hpp.operator_plus (point_values p) (values v)).
Proof using Hw.
  intros [Hx Hy]. unfold point_hpp.operator_plus, of_point_values.
  cbn [point_hpp.x point_hpp.y x y values point_values] in *.
  rewrite !(signed_add_exact w Hw) by assumption. reflexivity.
Qed.

Lemma point_minus_exact (p : point_hpp.Point (signed w)) (v : Vector (signed w)) :
  point_fits w (point_hpp.operator_minus (point_values p) (values v)) ->
  point_hpp.operator_minus p v
  = of_point_values (point_hpp.operator_minus (point_values p) (values v)).
Proof using Hw.
  intros [Hx Hy]. unfold point_hpp.operator_minus, of_point_values.
  cbn [point_hpp.x point_hpp.y x y values point_values] in *.
  rewrite !(signed_sub_exact w Hw) by assumption. reflexivity.
Qed.

Lemma point_minus_point_exact (p q : point_hpp.Point (signed w)) :
  fits w (point_hpp.operator_minus_point (point_values p) (point_values q)) ->
  point_hpp.operator_minus_point p q
  = of_values (point_hpp.operator_minus_point (point_values p) (point_values q)).
Proof using Hw.
  intros [Hx Hy]. unfold point_hpp.operator_minus_point, of_values.
  cbn [point_hpp.x point_hpp.y x y values point_values] in *.
  rewrite !(signed_sub_exact w Hw) by assumption. reflexivity.
Qed.

Lemma point_compare_exact (a b : point_hpp.Point (signed w)) :
  point_hpp.operator_eq a b = point_hpp.operator_eq (point_values a) (point_values b)
  /\ point_hpp.operator_ne a b = point_hpp.operator_ne (point_values a) (point_values b)
  /\ point_hpp.operator_le a b = point_hpp.operator_le (point_values a) (point_values b)
  /\ point_hpp.operator_ge a b = point_hpp.operator_ge (point_values a) (point_values b)
  /\ point_hpp.operator_lt a b = point_hpp.operator_lt (point_values a) (point_values b)
  /\ point_hpp.operator_gt a b = point_hpp.operator_gt (point_values a) (point_values b)
  /\ point_hpp.less a b = point_hpp.less (point_values a) (point_values b).
Proof. repeat split; reflexivity. Qed.

Lemma point_values_of_values (p : point_hpp.Point Z) :
  point_values (@of_point_values w p) = p.
Proof. destruct p; reflexivity. Qed.

Lemma point_values_inj (a b : point_hpp.Point (signed w)) :
  point_values a = point_values b -> a = b.
Proof.
  destruct a as [[ax] [ay]], b as [[bx] [b_y]]. cbn. intros [= -> ->]. reflexivity.
Qed.
End MachinePoints.


(** ** Length and normalization on [int] and [long long] *)

Section MachineGeometry.
Import vector_hpp.
Local Open Scope Z_scope.

Lemma int_digits : 0 < 32.
Proof. reflexivity. Qed.

Lemma long_long_digits : 0 < 64.
Proof. reflexivity. Qed.

(** Every non-negative [int] has at most 52 binary digits. *)
Lemma int_max_small (n : Z) : n <= int_max 32 -> n < 2 ^ 52.
Proof. unfold int_max. change (2 ^ (32 - 1) - 1) with 2147483647.
  change (2 ^ 52) with 4503599627370496. lia. Qed.

Lemma long_long_max_large (n : Z) : n < 2 ^ 52 -> n <= int_max 64.
Proof. unfold int_max. change (2 ^ (64 - 1) - 1) with 9223372036854775807.
  change (2 ^ 52) with 4503599627370496. lia. Qed.

Lemma int_length (v : Vector c_int) :
  squared_norm (values v) <= int_max 32 ->
  length v = Some (Signed (Z.sqrt (squared_norm (values v)))).
Proof.
  intros Hn. apply (length_exact 32 int_digits); [exact Hn|].
  apply int_max_small, Hn.
Qed.

Lemma int_normalized (v : Vector c_int) :
  squared_norm (values v) <= int_max 32 ->
  normalized v = option_map of_values (normalized (values v)).
Proof.
  intros Hn. apply (normalized_exact 32 int_digits); [exact Hn|].
  apply int_max_small, Hn.
Qed.

(** C3, as stated, fails on integral element types.  On [int] the sum of the
    squares wraps around: for [(46341, 0)] it is negative, its square root
    is NaN, and the length is the most negative [int], where the truncated
    square root of [x*x + y*y] is [46341].  On [long long] the sum for
    [(134217728, 16384)] fits, but its square root in [double] rounds up to
    the next integer: the length is [134217729], one more than the
    truncated square root. *)
Lemma length_not_truncated_sqrt :
  length (mkVector (Signed 46341) (Signed 0) : Vector c_int)
    = Some (Signed (-2147483648))
  /\ Z.sqrt (squared_norm (mkVector 46341 0)) = 46341
  /\ in_range 64 (squared_norm (mkVector 134217728 16384))
  /\ length (mkVector (Signed 134217728) (Signed 16384) : Vector c_long_long)
     = Some (Signed 134217729)
  /\ Z.sqrt (squared_norm (mkVector 134217728 16384)) = 134217728.
Proof.
  split; [vm_compute; reflexivity|]. split; [vm_compute; reflexivity|].
  split; [split; vm_compute; discriminate|].
  split; vm_compute; reflexivity.
Qed.

(** C3, amended: [length] is the square root, taken in [double], of
    [x*x + y*y] as the element type computes it, converted back to the
    element type.  On [int] it is the truncated square root of [x*x + y*y],
    the largest [l >= 0] with [l*l <= x*x + y*y], whenever [x*x + y*y] fits
    an [int]; on [long long], whenever [x*x + y*y] is below [2 ^ 52].  The
    length of the [int] vector [(1, 1)] is [1].  On [double] it is what the
    IEEE specification gives for the square root of the sum of the two
    squares, each operation rounding, and the length of [(3.0, 4.0)] is
    exactly [5.0]. *)
Theorem length_through_double :
  (forall v : Vector c_int,
      squared_norm (values v) <= int_max 32 ->
      exists l, length v = Some (Signed l) /\ 0 <= l
                /\ l * l <= squared_norm (values v) < (l + 1) * (l + 1))
  /\ (forall v : Vector c_long_long,
        squared_norm (values v) < 2 ^ 52 ->
        exists l, length v = Some (Signed l) /\ 0 <= l
                  /\ l * l <= squared_norm (values v) < (l + 1) * (l + 1))
  /\ length (mkVector (Signed 1) (Signed 1) : Vector c_int) = Some (Signed 1)
  /\ (forall v : Vector float,
        exists l,
          length v = Some l
          /\ Prim2SF l
             = SFsqrt prec emax
                 (SFadd prec emax
                    (SFmul prec emax (Prim2SF (x v)) (Prim2SF (x v)))
                    (SFmul prec emax (Prim2SF (y v)) (Prim2SF (y v)))))
  /\ length (mkVector 3 4)%float = Some 5%float.
Proof.
  split; [|split; [|split; [|split]]].
  - intros v Hn. exists (Z.sqrt (squared_norm (values v))).
    split; [apply int_length, Hn|].
    apply int_sqrt_bounds, squared_norm_nonneg.
  - intros v Hn. exists (Z.sqrt (squared_norm (values v))).
    split; [apply (length_exact 64 long_long_digits);
            [apply long_long_max_large, Hn|exact Hn]|].
    apply int_sqrt_bounds, squared_norm_nonneg.
  - vm_compute. reflexivity.
  - intros v. eexists. split; [apply length_double|].
    rewrite FloatAxioms.sqrt_spec, FloatAxioms.add_spec, !FloatAxioms.mul_spec.
    reflexivity.
  - vm_compute. reflexivity.
Qed.

Lemma length_through_double_witness :
  squared_norm (values (mkVector (Signed 3) (Signed (-4)) : Vector c_int))
    <= int_max 32
  /\ exists l, length (mkVector (Signed 3) (Signed (-4)) : Vector c_int)
               = Some (Signed l)
               /\ 0 <= l
               /\ l * l <= squared_norm (values (mkVector (Signed 3) (Signed (-4))
                                                  : Vector c_int))
                  < (l + 1) * (l + 1).
Proof.
  split; [vm_compute; discriminate|].
  apply (proj1 length_through_double). vm_compute. discriminate.
Defined.



End MachineGeometry.

(** ** Multiplication and division by a scalar on [int] and [long long] *)

Section MachineAlgebra.
Import vector_hpp.
Local Open Scope Z_scope.
Context (w : Z) (Hw : 0 < w).

End MachineAlgebra.

Section MachineRoundTrip.
Import vector_hpp.
Local Open Scope Z_scope.


End MachineRoundTrip.

(** ** Division on [int] *)

Section MachineDivision.
Import vector_hpp.
Local Open Scope Z_scope.

(** What a truncated quotient, multiplied back, keeps of the dividend: a
    number between zero and the dividend. *)
Lemma quot_mul_between (a s : Z) :
  s <> 0 ->
  (0 <= a -> 0 <= Z.quot a s * s <= a) /\ (a <= 0 -> a <= Z.quot a s * s <= 0).
Proof.
  intros Hs. pose proof (Z.quot_rem' a s) as E.
  split; intros Ha.
  - pose proof (Z.rem_nonneg a s Hs Ha) as Hr.
    assert (0 <= Z.quot a s * s); [|lia].
    destruct (Z.lt_trichotomy s 0) as [Hn|[?|Hp]]; [|contradiction|].
    + assert (Z.quot a s <= 0); [|nia].
      replace s with (- - s) by lia. rewrite Z.quot_opp_r by lia.
      pose proof (Z.quot_pos a (- s) Ha ltac:(lia)). lia.
    + pose proof (Z.quot_pos a s Ha Hp). nia.
  - pose proof (Z.rem_nonpos a s Hs Ha) as Hr.
    assert (Z.quot a s * s <= 0); [|lia].
    replace a with (- - a) by lia. rewrite Z.quot_opp_l by exact Hs.
    destruct (Z.lt_trichotomy s 0) as [Hn|[?|Hp]]; [|contradiction|].
    + replace s with (- - s) at 1 by lia. rewrite Z.quot_opp_r by lia.
      pose proof (Z.quot_pos (- a) (- s) ltac:(lia) ltac:(lia)). nia.
    + pose proof (Z.quot_pos (- a) s ltac:(lia) Hp). nia.
Qed.

Lemma in_range_between (w a b : Z) :
  0 < w -> in_range w a -> (0 <= a -> 0 <= b <= a) -> (a <= 0 -> a <= b <= 0) ->
  in_range w b.
Proof.
  unfold in_range, int_min, int_max. intros Hw Ha Hp Hn.
  pose proof (pow_digits_pos w Hw). lia.
Qed.

(** X4: on [int], [v / s] is undefined when [s] is zero, and when [s] is
    [-1] and a member of [v] is the most negative [int].  Otherwise it
    truncates each member towards zero: what [(v / s) * s] leaves of [v] is,
    in each member, smaller in magnitude than [s] and of the sign of [v]'s
    member, and it is zero, so that [(v / s) * s] is [v], exactly when [s]
    divides both members.  Nothing overflows on the way. *)
Theorem int_vector_div_truncates (v : Vector c_int) (s : c_int) :
  fits 32 (values v) ->
  (operator_div v s = None
   <-> value s = 0
       \/ (value s = -1 /\ (value (x v) = int_min 32 \/ value (y v) = int_min 32)))
  /\ forall q,
      operator_div v s = Some q ->
      fits 32 (values q)
      /\ (let r := operator_minus v (operator_mul q s) in
          Z.abs (value (x r)) < Z.abs (value s)
          /\ Z.abs (value (y r)) < Z.abs (value s)
          /\ 0 <= value (x r) * value (x v) /\ 0 <= value (y r) * value (y v))
      /\ (operator_mul q s = v
          <-> (value s | value (x v)) /\ (value s | value (y v))).
Proof.
  intros [Hx Hy].
  pose proof (signed_div_undefined 32 (x v) s) as Ux.
  pose proof (signed_div_undefined 32 (y v) s) as Uy.
  split.
  - assert (Hnone : operator_div v s = None
                    <-> e_div (x v) s = None \/ e_div (y v) s = None).
    { unfold operator_div.
      destruct (e_div (x v) s), (e_div (y v) s); cbn; split;
        solve [discriminate | intros [?|?]; discriminate | auto]. }
    rewrite Hnone, Ux, Uy. tauto.
  - intros q Hq.
    assert (Hs : value s <> 0).
    { intros E. unfold operator_div in Hq.
      rewrite (proj2 Ux (or_introl E)) in Hq. discriminate. }
    assert (Hmin : ~ (value s = -1 /\ (value (x v) = int_min 32 \/ value (y v) = int_min 32))).
    { intros [E [Em|Em]]; unfold operator_div in Hq.
      - rewrite (proj2 Ux (or_intror (conj Em E))) in Hq. discriminate.
      - rewrite (proj2 Uy (or_intror (conj Em E))) in Hq.
        destruct (e_div (x v) s); discriminate. }
    rewrite (vector_div_exact 32 v s Hs Hmin) in Hq. injection Hq as <-.
    set (sz := value s) in *.
    set (qz := mkVector (Z.quot (value (x v)) sz) (Z.quot (value (y v)) sz)).
    destruct (quot_mul_between (value (x v)) sz Hs) as [Bx1 Bx2].
    destruct (quot_mul_between (value (y v)) sz Hs) as [By1 By2].
    assert (Hmul : fits 32 (operator_mul qz sz)).
    { split; cbn [x y operator_mul qz e_mul int_elem].
      - apply (in_range_between 32 (value (x v))); [reflexivity|assumption..].
      - apply (in_range_between 32 (value (y v))); [reflexivity|assumption..]. }
    assert (Emul : operator_mul (of_values qz : Vector c_int) s
                   = of_values (operator_mul qz sz)).
    { rewrite (vector_mul_exact 32 int_digits); rewrite values_of_values;
        [reflexivity|exact Hmul]. }
    assert (Hsub : fits 32 (operator_minus (values v) (operator_mul qz sz))).
    { split; cbn [x y operator_minus operator_mul qz e_mul e_sub int_elem values].
      - apply (in_range_between 32 (value (x v))); [reflexivity|assumption|lia..].
      - apply (in_range_between 32 (value (y v))); [reflexivity|assumption|lia..]. }
    destruct (vector_div_truncates (values v) sz Hs) as (q' & Eq' & Hrem & Hiff).
    rewrite int_div_scalar in Eq' by exact Hs. injection Eq' as <-.
    fold qz in Hrem, Hiff.
    split; [|split].
    + rewrite values_of_values. split; cbn [x y qz].
      * apply (quot_fits 32 int_digits); [exact Hx|exact Hs|]. tauto.
      * apply (quot_fits 32 int_digits); [exact Hy|exact Hs|]. tauto.
    + cbv zeta. rewrite Emul.
      rewrite (vector_minus_exact 32 int_digits); rewrite values_of_values;
        [|exact Hsub].
      exact Hrem.
    + rewrite Emul, <- Hiff. split.
      * intros E. rewrite <- E. symmetry. apply values_of_values.
      * intros E. rewrite E. apply of_values_values.
Qed.

Lemma int_vector_div_truncates_witness :
  fits 32 (values (mkVector (Signed (-7)) (Signed 9) : Vector c_int))
  /\ (operator_div (mkVector (Signed (-7)) (Signed 9) : Vector c_int) (Signed 3) = None
      <-> 3 = 0 \/ (3 = -1 /\ (-7 = int_min 32 \/ 9 = int_min 32))).
Proof.
  assert (H : fits 32 (values (mkVector (Signed (-7)) (Signed 9) : Vector c_int)))
    by (repeat split; vm_compute; discriminate).
  split; [exact H|].
  exact (proj1 (int_vector_div_truncates (mkVector (Signed (-7)) (Signed 9)) (Signed 3) H)).
Defined.
End MachineDivision.

(** ** The two orders on [int], under translation and scaling *)

Section MachineOrders.
Import vector_hpp.
Local Open Scope Z_scope.

(** X6: on [int] both orders and the equality are invariant under a
    translation that does not overflow: adding one vector to two vectors,
    or to two points, changes none of [<=], [<], [==] and [std::less]
    between them, provided the four sums fit; and two points whose
    displacement fits compare as the zero vector and the displacement
    do. *)
Theorem int_orders_translation_invariant :
  (forall a b c : Vector c_int,
      fits 32 (operator_plus (values a) (values c)) ->
      fits 32 (operator_plus (values b) (values c)) ->
      let a' := operator_plus a c in
      let b' := operator_plus b c in
      operator_le a' b' = operator_le a b
      /\ operator_lt a' b' = operator_lt a b
      /\ operator_eq a' b' = operator_eq a b
      /\ less a' b' = less a b)
  /\ (forall (p q : point_hpp.Point c_int) (v : Vector c_int),
        point_fits 32 (point_hpp.operator_plus (point_values p) (values v)) ->
        point_fits 32 (point_hpp.operator_plus (point_values q) (values v)) ->
        let p' := point_hpp.operator_plus p v in
        let q' := point_hpp.operator_plus q v in
        point_hpp.operator_le p' q' = point_hpp.operator_le p q
        /\ point_hpp.operator_lt p' q' = point_hpp.operator_lt p q
        /\ point_hpp.operator_eq p' q' = point_hpp.operator_eq p q
        /\ point_hpp.less p' q' = point_hpp.less p q)
  /\ (forall p q : point_hpp.Point c_int,
        fits 32 (point_hpp.operator_minus_point (point_values q) (point_values p)) ->
        let d := point_hpp.operator_minus_point q p in
        point_hpp.operator_le p q = operator_le default d
        /\ point_hpp.operator_lt p q = operator_lt default d
        /\ point_hpp.operator_eq p q = operator_eq default d
        /\ point_hpp.less p q = less default d).
Proof.
  destruct orders_translation_invariant as (Hv & Hp & Hd).
  split; [|split].
  - intros a b c Ha Hb. cbv zeta.
    rewrite !(vector_plus_exact 32 int_digits) by assumption.
    exact (Hv (values a) (values b) (values c)).
  - intros p q v Hp' Hq'. cbv zeta.
    rewrite !(point_plus_exact 32 int_digits) by assumption.
    exact (Hp (point_values p) (point_values q) (values v)).
  - intros p q Hf. cbv zeta.
    rewrite (point_minus_point_exact 32 int_digits) by assumption.
    exact (Hd (point_values p) (point_values q)).
Qed.

Lemma int_orders_translation_invariant_witness :
  let a := mkVector (Signed 1) (Signed 2) : Vector c_int in
  let b := mkVector (Signed 3) (Signed 2) : Vector c_int in
  let c := mkVector (Signed (-5)) (Signed 7) : Vector c_int in
  fits 32 (operator_plus (values a) (values c))
  /\ fits 32 (operator_plus (values b) (values c))
  /\ operator_le (operator_plus a c) (operator_plus b c)
     = operator_le a b.
Proof.
  cbv zeta.
  assert (H1 : fits 32 (operator_plus
                          (values (mkVector (Signed 1) (Signed 2) : Vector c_int))
                          (values (mkVector (Signed (-5)) (Signed 7) : Vector c_int))))
    by (repeat split; vm_compute; discriminate).
  assert (H2 : fits 32 (operator_plus
                          (values (mkVector (Signed 3) (Signed 2) : Vector c_int))
                          (values (mkVector (Signed (-5)) (Signed 7) : Vector c_int))))
    by (repeat split; vm_compute; discriminate).
  split; [exact H1|]. split; [exact H2|].
  exact (proj1 (proj1 int_orders_translation_invariant _ _ _ H1 H2)).
Defined.

(** X7: on [int] the multiplication by a positive scalar keeps
    [operator<=] and [std::less] between two vectors, and the multiplication
    by a negative scalar reverses them, provided the four products fit. *)
Theorem int_orders_under_scaling (a b : Vector c_int) (s : c_int) :
  value s <> 0 ->
  fits 32 (operator_mul (values a) (value s)) ->
  fits 32 (operator_mul (values b) (value s)) ->
  let a' := operator_mul a s in
  let b' := operator_mul b s in
  operator_le a' b'
    = (if 0 <? value s then operator_le a b else operator_le b a)
  /\ less a' b'
     = (if 0 <? value s then less a b else less b a).
Proof.
  intros Hs Ha Hb. cbv zeta.
  rewrite !(vector_mul_exact 32 int_digits) by assumption.
  exact (orders_under_scaling (values a) (values b) (value s) Hs).
Qed.

Lemma int_orders_under_scaling_witness :
  let a := mkVector (Signed 1) (Signed 2) : Vector c_int in
  let b := mkVector (Signed 3) (Signed 2) : Vector c_int in
  let s := Signed (-2) : c_int in
  value s <> 0
  /\ fits 32 (operator_mul (values a) (value s))
  /\ fits 32 (operator_mul (values b) (value s))
  /\ operator_le (operator_mul a s) (operator_mul b s)
     = operator_le b a.
Proof.
  cbv zeta.
  assert (H0 : value (Signed (-2) : c_int) <> 0) by discriminate.
  assert (H1 : fits 32 (operator_mul
                          (values (mkVector (Signed 1) (Signed 2) : Vector c_int))
                          (value (Signed (-2) : c_int))))
    by (repeat split; vm_compute; discriminate).
  assert (H2 : fits 32 (operator_mul
                          (values (mkVector (Signed 3) (Signed 2) : Vector c_int))
                          (value (Signed (-2) : c_int))))
    by (repeat split; vm_compute; discriminate).
  split; [exact H0|]. split; [exact H1|]. split; [exact H2|].
  exact (proj1 (int_orders_under_scaling _ _ _ H0 H1 H2)).
Defined.
End MachineOrders.

(** ** Length, distance and normalization on [int], further *)

Section MachineGeometryFurther.
Import vector_hpp.
Local Open Scope Z_scope.

Lemma squared_norm_le_fits (v : Vector Z) :
  squared_norm v <= int_max 32 -> fits 32 v /\ fits 32 (operator_mul v (-1)).
Proof.
  intros Hn. destruct (squared_norm_fits 32 int_digits v Hn) as ([Hx Hy] & _).
  split; [split; assumption|].
  unfold squared_norm, fits, in_range, int_min, int_max, operator_mul in *.
  cbn [x y e_mul int_elem] in *.
  change (2 ^ (32 - 1)) with 2147483648 in *.
  split; nia.
Qed.

(** X9: on [int], for a vector whose [x*x + y*y] fits, the length lies
    between the larger of the magnitudes of the members and their sum; it
    is zero only for the zero vector; and it is the same for the vector with
    a member negated, with the members exchanged, or multiplied by [-1]. *)
Theorem int_length_bounds (v : Vector c_int) :
  squared_norm (values v) <= int_max 32 ->
  exists l,
    length v = Some (Signed l)
    /\ Z.max (Z.abs (value (x v))) (Z.abs (value (y v))) <= l
       <= Z.abs (value (x v)) + Z.abs (value (y v))
    /\ (l = 0 <-> v = default)
    /\ length (mkVector (Signed (- value (x v))) (y v)) = Some (Signed l)
    /\ length (mkVector (y v) (x v)) = Some (Signed l)
    /\ length (operator_mul v (Signed (-1))) = Some (Signed l).
Proof.
  intros Hn.
  destruct (length_int_bounds (values v)) as (l & El & Hb & Hz & Hneg & Hswap & Hopp).
  rewrite length_int in El, Hneg, Hswap, Hopp.
  injection El as El. injection Hneg as Hneg. injection Hswap as Hswap.
  injection Hopp as Hopp.
  exists l. split; [rewrite int_length by exact Hn; do 2 f_equal; exact El|].
  split; [exact Hb|]. split; [|split; [|split]].
  - rewrite Hz. split.
    + intros E. apply (values_inj 32). exact E.
    + intros ->. reflexivity.
  - rewrite int_length; [do 2 f_equal; exact Hneg|].
    unfold squared_norm in *. cbn [x y values value] in *. lia.
  - rewrite int_length; [do 2 f_equal; exact Hswap|].
    unfold squared_norm in *. cbn [x y values value] in *. lia.
  - destruct (squared_norm_le_fits (values v) Hn) as [_ Hm].
    rewrite (vector_mul_exact 32 int_digits) by exact Hm.
    rewrite int_length; rewrite values_of_values.
    + do 2 f_equal. exact Hopp.
    + unfold squared_norm, operator_mul in *.
      cbn [x y values value e_mul int_elem] in *. lia.
Qed.

Lemma int_length_bounds_witness :
  squared_norm (values (mkVector (Signed 3) (Signed (-4)) : Vector c_int)) <= int_max 32
  /\ exists l,
       length (mkVector (Signed 3) (Signed (-4)) : Vector c_int) = Some (Signed l)
       /\ Z.max (Z.abs 3) (Z.abs (-4)) <= l <= Z.abs 3 + Z.abs (-4)
       /\ (l = 0 <-> (mkVector (Signed 3) (Signed (-4)) : Vector c_int) = default)
       /\ length (mkVector (Signed (- 3)) (Signed (-4)) : Vector c_int) = Some (Signed l)
       /\ length (mkVector (Signed (-4)) (Signed 3) : Vector c_int) = Some (Signed l)
       /\ length (operator_mul (mkVector (Signed 3) (Signed (-4)) : Vector c_int)
                               (Signed (-1))) = Some (Signed l).
Proof.
  assert (H : squared_norm (values (mkVector (Signed 3) (Signed (-4)) : Vector c_int))
              <= int_max 32) by (vm_compute; discriminate).
  split; [exact H|].
  exact (int_length_bounds (mkVector (Signed 3) (Signed (-4))) H).
Defined.

(** X10: on [int], as long as the sums of squares fit, the truncated length
    obeys the triangle inequality up to one unit,
    [length(a + b) <= length(a) + length(b) + 1]; the unit is needed,
    [(2, 2) + (2, 2)] having length [5] and [(2, 2)] length [2].  The length
    of [v * s] lies between [|s|] times the length of [v] and [|s|] times
    that length plus one. *)
Theorem int_length_triangle (a b : Vector c_int) (s : c_int) :
  squared_norm (values a) <= int_max 32 ->
  squared_norm (values b) <= int_max 32 ->
  squared_norm (operator_plus (values a) (values b)) <= int_max 32 ->
  squared_norm (operator_mul (values a) (value s)) <= int_max 32 ->
  exists la lb lab las,
    length a = Some (Signed la) /\ length b = Some (Signed lb)
    /\ length (operator_plus a b) = Some (Signed lab)
    /\ length (operator_mul a s) = Some (Signed las)
    /\ lab <= la + lb + 1
    /\ Z.abs (value s) * la <= las <= Z.abs (value s) * (la + 1)
    /\ (length (mkVector (Signed 2) (Signed 2) : Vector c_int) = Some (Signed 2)
        /\ length (operator_plus (mkVector (Signed 2) (Signed 2) : Vector c_int)
                                 (mkVector (Signed 2) (Signed 2)))
           = Some (Signed 5)).
Proof.
  intros Ha Hb Hab Has.
  destruct (length_int_triangle (values a) (values b) (value s))
    as (la & lb & lab & las & Ea & Eb & Eab & Eas & Htri & Hscale & _).
  rewrite length_int in Ea, Eb, Eab, Eas.
  injection Ea as Ea. injection Eb as Eb. injection Eab as Eab.
  injection Eas as Eas.
  exists la, lb, lab, las.
  split; [rewrite int_length by exact Ha; do 2 f_equal; exact Ea|].
  split; [rewrite int_length by exact Hb; do 2 f_equal; exact Eb|].
  split; [|split].
  - rewrite (vector_plus_exact 32 int_digits)
      by (apply (squared_norm_fits 32 int_digits), Hab).
    rewrite int_length; rewrite values_of_values; [|exact Hab].
    do 2 f_equal. exact Eab.
  - rewrite (vector_mul_exact 32 int_digits)
      by (apply (squared_norm_fits 32 int_digits), Has).
    rewrite int_length; rewrite values_of_values; [|exact Has].
    do 2 f_equal. exact Eas.
  - split; [exact Htri|]. split; [exact Hscale|].
    split; vm_compute; reflexivity.
Qed.

Lemma int_length_triangle_witness :
  let a := mkVector (Signed 2) (Signed 2) : Vector c_int in
  let s := Signed (-3) : c_int in
  squared_norm (values a) <= int_max 32
  /\ squared_norm (operator_plus (values a) (values a)) <= int_max 32
  /\ squared_norm (operator_mul (values a) (value s)) <= int_max 32
  /\ exists la lb lab las,
       length a = Some (Signed la) /\ length a = Some (Signed lb)
       /\ length (operator_plus a a) = Some (Signed lab)
       /\ length (operator_mul a s) = Some (Signed las)
       /\ lab <= la + lb + 1
       /\ Z.abs (value s) * la <= las <= Z.abs (value s) * (la + 1)
       /\ (length (mkVector (Signed 2) (Signed 2) : Vector c_int) = Some (Signed 2)
           /\ length (operator_plus (mkVector (Signed 2) (Signed 2) : Vector c_int)
                                    (mkVector (Signed 2) (Signed 2)))
              = Some (Signed 5)).
Proof.
  cbv zeta.
  assert (H1 : squared_norm (values (mkVector (Signed 2) (Signed 2) : Vector c_int))
               <= int_max 32) by (vm_compute; discriminate).
  assert (H2 : squared_norm
                 (operator_plus (values (mkVector (Signed 2) (Signed 2) : Vector c_int))
                                (values (mkVector (Signed 2) (Signed 2) : Vector c_int)))
               <= int_max 32) by (vm_compute; discriminate).
  assert (H3 : squared_norm
                 (operator_mul (values (mkVector (Signed 2) (Signed 2) : Vector c_int))
                               (value (Signed (-3) : c_int)))
               <= int_max 32) by (vm_compute; discriminate).
  split; [exact H1|]. split; [exact H2|]. split; [exact H3|].
  exact (int_length_triangle _ _ _ H1 H1 H2 H3).
Defined.

(** X23: on [int], as long as the displacements and the sums of their
    squares fit, the length of the displacement between two points behaves
    as a distance: it is the same from [p] to [q] as from [q] to [p], zero
    only when the points are the same, unchanged when both points are
    translated by one vector without overflow, and the distance from [p] to
    [r] exceeds the distances from [p] to [q] and from [q] to [r] together
    by one unit at most. *)
Theorem int_distance (p q r : point_hpp.Point c_int) (v : Vector c_int) :
  squared_norm (point_hpp.operator_minus_point (point_values p) (point_values q))
    <= int_max 32 ->
  squared_norm (point_hpp.operator_minus_point (point_values q) (point_values r))
    <= int_max 32 ->
  squared_norm (point_hpp.operator_minus_point (point_values p) (point_values r))
    <= int_max 32 ->
  point_fits 32 (point_hpp.operator_plus (point_values p) (values v)) ->
  point_fits 32 (point_hpp.operator_plus (point_values q) (values v)) ->
  exists dpq dqr dpr,
    length (point_hpp.operator_minus_point p q) = Some (Signed dpq)
    /\ length (point_hpp.operator_minus_point q r) = Some (Signed dqr)
    /\ length (point_hpp.operator_minus_point p r) = Some (Signed dpr)
    /\ length (point_hpp.operator_minus_point q p) = Some (Signed dpq)
    /\ (dpq = 0 <-> p = q)
    /\ length (point_hpp.operator_minus_point (point_hpp.operator_plus p v)
                                              (point_hpp.operator_plus q v))
       = Some (Signed dpq)
    /\ dpr <= dpq + dqr + 1.
Proof.
  intros Hpq Hqr Hpr Hpv Hqv.
  destruct (distance_on_integers (point_values p) (point_values q)
              (point_values r) (values v))
    as (dpq & dqr & dpr & Epq & Eqr & Epr & Eqp & Hz & Etr & Htri).
  rewrite length_int in Epq, Eqr, Epr, Eqp, Etr.
  injection Epq as Epq. injection Eqr as Eqr. injection Epr as Epr.
  injection Eqp as Eqp. injection Etr as Etr.
  assert (Hqp : squared_norm (point_hpp.operator_minus_point (point_values q) (point_values p))
                <= int_max 32).
  { unfold squared_norm, point_hpp.operator_minus_point in *.
    cbn [x y e_sub int_elem] in *. 
    etransitivity; [|exact Hpq]. apply Z.eq_le_incl. ring. }
  assert (Htr : squared_norm
                  (point_hpp.operator_minus_point
                     (point_hpp.operator_plus (point_values p) (values v))
                     (point_hpp.operator_plus (point_values q) (values v)))
                <= int_max 32).
  { unfold squared_norm, point_hpp.operator_minus_point, point_hpp.operator_plus in *.
    cbn [x y point_hpp.x point_hpp.y e_sub e_add int_elem] in *.
    etransitivity; [|exact Hpq]. apply Z.eq_le_incl. ring. }
  exists dpq, dqr, dpr.
  split; [|split; [|split; [|split; [|split; [|split]]]]].
  - rewrite (point_minus_point_exact 32 int_digits)
      by (apply (squared_norm_fits 32 int_digits), Hpq).
    rewrite int_length; rewrite values_of_values; [|exact Hpq].
    do 2 f_equal. exact Epq.
  - rewrite (point_minus_point_exact 32 int_digits)
      by (apply (squared_norm_fits 32 int_digits), Hqr).
    rewrite int_length; rewrite values_of_values; [|exact Hqr].
    do 2 f_equal. exact Eqr.
  - rewrite (point_minus_point_exact 32 int_digits)
      by (apply (squared_norm_fits 32 int_digits), Hpr).
    rewrite int_length; rewrite values_of_values; [|exact Hpr].
    do 2 f_equal. exact Epr.
  - rewrite (point_minus_point_exact 32 int_digits)
      by (apply (squared_norm_fits 32 int_digits), Hqp).
    rewrite int_length; rewrite values_of_values; [|exact Hqp].
    do 2 f_equal. exact Eqp.
  - rewrite Hz. split.
    + apply (point_values_inj 32).
    + intros ->. reflexivity.
  - rewrite !(point_plus_exact 32 int_digits) by assumption.
    rewrite (point_minus_point_exact 32 int_digits);
      rewrite !point_values_of_values;
      [|apply (squared_norm_fits 32 int_digits), Htr].
    rewrite int_length; rewrite values_of_values; [|exact Htr].
    do 2 f_equal. exact Etr.
  - exact Htri.
Qed.

Lemma int_distance_witness :
  let p := point_hpp.mkPoint (Signed 1) (Signed 1) : point_hpp.Point c_int in
  let q := point_hpp.mkPoint (Signed 4) (Signed 5) : point_hpp.Point c_int in
  let r := point_hpp.mkPoint (Signed (-2)) (Signed 0) : point_hpp.Point c_int in
  let v := mkVector (Signed 10) (Signed (-10)) : Vector c_int in
  squared_norm (point_hpp.operator_minus_point (point_values p) (point_values q))
    <= int_max 32
  /\ squared_norm (point_hpp.operator_minus_point (point_values q) (point_values r))
     <= int_max 32
  /\ squared_norm (point_hpp.operator_minus_point (point_values p) (point_values r))
     <= int_max 32
  /\ point_fits 32 (point_hpp.operator_plus (point_values p) (values v))
  /\ point_fits 32 (point_hpp.operator_plus (point_values q) (values v))
  /\ exists dpq dqr dpr,
       length (point_hpp.operator_minus_point p q) = Some (Signed dpq)
       /\ length (point_hpp.operator_minus_point q r) = Some (Signed dqr)
       /\ length (point_hpp.operator_minus_point p r) = Some (Signed dpr)
       /\ length (point_hpp.operator_minus_point q p) = Some (Signed dpq)
       /\ (dpq = 0 <-> p = q)
       /\ length (point_hpp.operator_minus_point (point_hpp.operator_plus p v)
                                                 (point_hpp.operator_plus q v))
          = Some (Signed dpq)
       /\ dpr <= dpq + dqr + 1.
Proof.
  cbv zeta.
  set (p := point_hpp.mkPoint (Signed 1) (Signed 1) : point_hpp.Point c_int).
  set (q := point_hpp.mkPoint (Signed 4) (Signed 5) : point_hpp.Point c_int).
  set (r := point_hpp.mkPoint (Signed (-2)) (Signed 0) : point_hpp.Point c_int).
  set (v := mkVector (Signed 10) (Signed (-10)) : Vector c_int).
  assert (H1 : squared_norm (point_hpp.operator_minus_point (point_values p) (point_values q))
               <= int_max 32) by (vm_compute; discriminate).
  assert (H2 : squared_norm (point_hpp.operator_minus_point (point_values q) (point_values r))
               <= int_max 32) by (vm_compute; discriminate).
  assert (H3 : squared_norm (point_hpp.operator_minus_point (point_values p) (point_values r))
               <= int_max 32) by (vm_compute; discriminate).
  assert (H4 : point_fits 32 (point_hpp.operator_plus (point_values p) (values v)))
    by (repeat split; vm_compute; discriminate).
  assert (H5 : point_fits 32 (point_hpp.operator_plus (point_values q) (values v)))
    by (repeat split; vm_compute; discriminate).
  split; [exact H1|]. split; [exact H2|]. split; [exact H3|].
  split; [exact H4|]. split; [exact H5|].
  exact (int_distance p q r v H1 H2 H3 H4 H5).
Defined.

(** X11: on [int] the length is monotone for the dominance order on the
    vectors whose members are not negative: from [Vector() <= a] and
    [a <= b] follows [length(a) <= length(b)], provided [x*x + y*y] fits
    for [b]. *)
Theorem int_length_monotone (a b : Vector c_int) :
  operator_le default a = true ->
  operator_le a b = true ->
  squared_norm (values b) <= int_max 32 ->
  exists la lb,
    length a = Some (Signed la) /\ length b = Some (Signed lb) /\ la <= lb.
Proof.
  intros H0 Hab Hb.
  assert (H0z : operator_le default (values a) = true) by exact H0.
  assert (Habz : operator_le (values a) (values b) = true) by exact Hab.
  destruct (length_int_monotone (values a) (values b) H0z Habz)
    as (la & lb & Ea & Eb & Hle).
  rewrite length_int in Ea, Eb. injection Ea as Ea. injection Eb as Eb.
  assert (Ha : squared_norm (values a) <= int_max 32).
  { etransitivity; [|exact Hb].
    apply vector_le_int in H0z, Habz. unfold squared_norm.
    destruct a as [[ax] [ay]], b as [[bx] [b_y]].
    cbn [x y values value default e_zero int_elem] in *. nia. }
  exists la, lb. rewrite !int_length by assumption.
  split; [do 2 f_equal; exact Ea|]. split; [do 2 f_equal; exact Eb|exact Hle].
Qed.

Lemma int_length_monotone_witness :
  let a := mkVector (Signed 1) (Signed 2) : Vector c_int in
  let b := mkVector (Signed 3) (Signed 4) : Vector c_int in
  operator_le default a = true
  /\ operator_le a b = true
  /\ squared_norm (values b) <= int_max 32
  /\ exists la lb,
       length a = Some (Signed la) /\ length b = Some (Signed lb) /\ la <= lb.
Proof.
  cbv zeta.
  assert (H : squared_norm (values (mkVector (Signed 3) (Signed 4) : Vector c_int))
              <= int_max 32) by (vm_compute; discriminate).
  split; [reflexivity|]. split; [reflexivity|]. split; [exact H|].
  exact (int_length_monotone (mkVector (Signed 1) (Signed 2))
           (mkVector (Signed 3) (Signed 4)) eq_refl eq_refl H).
Defined.

(** X12: on [int], for a vector whose [x*x + y*y] fits, [normalized] keeps
    of each member its sign, if its magnitude is the truncated length of
    the vector, and nothing otherwise; so the members of the result are
    [-1], [0] or [1], and normalizing a second time changes nothing. *)
Theorem int_normalized_signs (v : Vector c_int) :
  squared_norm (values v) <= int_max 32 ->
  exists l n,
    length v = Some (Signed l) /\ normalized v = Some n
    /\ value (x n) = (if Z.abs (value (x v)) =? l then Z.sgn (value (x v)) else 0)
    /\ value (y n) = (if Z.abs (value (y v)) =? l then Z.sgn (value (y v)) else 0)
    /\ normalized n = Some n.
Proof.
  intros Hn.
  destruct (normalized_int_signs (values v)) as (l & n & El & En & Hx & Hy & Hnn).
  rewrite length_int in El. injection El as El.
  exists l, (of_values n).
  split; [rewrite int_length by exact Hn; do 2 f_equal; exact El|].
  split; [rewrite int_normalized by exact Hn; rewrite En; reflexivity|].
  split; [exact Hx|]. split; [exact Hy|].
  rewrite int_normalized; rewrite values_of_values.
  - rewrite Hnn. reflexivity.
  - transitivity 2; [|vm_compute; discriminate].
    unfold squared_norm. rewrite Hx, Hy.
    destruct (Z.abs (x (values v)) =? l), (Z.abs (y (values v)) =? l);
      try destruct (Z.sgn_spec (x (values v))) as [[_ ->]|[[_ ->]|[_ ->]]];
      try destruct (Z.sgn_spec (y (values v))) as [[_ ->]|[[_ ->]|[_ ->]]];
      lia.
Qed.

Lemma int_normalized_signs_witness :
  let v := mkVector (Signed (-5)) (Signed 1) : Vector c_int in
  squared_norm (values v) <= int_max 32
  /\ exists l n,
       length v = Some (Signed l) /\ normalized v = Some n
       /\ value (x n) = (if Z.abs (value (x v)) =? l then Z.sgn (value (x v)) else 0)
       /\ value (y n) = (if Z.abs (value (y v)) =? l then Z.sgn (value (y v)) else 0)
       /\ normalized n = Some n.
Proof.
  cbv zeta.
  assert (H : squared_norm (values (mkVector (Signed (-5)) (Signed 1) : Vector c_int))
              <= int_max 32) by (vm_compute; discriminate).
  split; [exact H|].
  exact (int_normalized_signs (mkVector (Signed (-5)) (Signed 1)) H).
Defined.
End MachineGeometryFurther.

(** ** The algebra of points and vectors on machine integers

    Sums and differences that overflow wrap around, and wrap back: the
    equations between sums and differences hold on the machine as they do
    on the integers. *)

Section MachineRing.
Import vector_hpp.
Local Open Scope Z_scope.
Context (w : Z) (Hw : 0 < w).

Lemma wrap_congruent (a b : Z) :
  a mod 2 ^ w = b mod 2 ^ w -> wrap w a = wrap w b.
Proof.
  intros E. unfold wrap. f_equal.
  rewrite <- (Zminus_mod_idemp_l a), <- (Zminus_mod_idemp_l b), E. reflexivity.
Qed.

Lemma wrap_add_l (a b : Z) : wrap w (wrap w a + b) = wrap w (a + b).
Proof using Hw.
  apply wrap_congruent.
  rewrite <- Zplus_mod_idemp_l, (wrap_mod w Hw), Zplus_mod_idemp_l. reflexivity.
Qed.

Lemma wrap_add_r (a b : Z) : wrap w (a + wrap w b) = wrap w (a + b).
Proof using Hw.
  rewrite (Z.add_comm a (wrap w b)), wrap_add_l, Z.add_comm. reflexivity.
Qed.

Lemma wrap_sub_l (a b : Z) : wrap w (wrap w a - b) = wrap w (a - b).
Proof using Hw.
  apply wrap_congruent.
  rewrite <- Zminus_mod_idemp_l, (wrap_mod w Hw), Zminus_mod_idemp_l. reflexivity.
Qed.

Lemma wrap_sub_r (a b : Z) : wrap w (a - wrap w b) = wrap w (a - b).
Proof using Hw.
  apply wrap_congruent.
  rewrite <- Zminus_mod_idemp_r, (wrap_mod w Hw), Zminus_mod_idemp_r. reflexivity.
Qed.

Lemma signed_add_sub (a b : signed w) :
  in_range w (value a) -> e_sub (e_add a b) b = a /\ e_add (e_sub a b) b = a.
Proof using Hw.
  intros Ha. destruct a as [a], b as [b]. cbn [value] in Ha. cbn.
  rewrite wrap_sub_l, wrap_add_l.
  replace (a + b - b) with a by lia. replace (a - b + b) with a by lia.
  rewrite (wrap_in_range w Hw a Ha). split; reflexivity.
Qed.

Lemma signed_sub_add (a b : signed w) :
  in_range w (value a) -> e_add b (e_sub a b) = a.
Proof using Hw.
  intros Ha. destruct a as [a], b as [b]. cbn [value] in Ha. cbn.
  rewrite wrap_add_r. replace (b + (a - b)) with a by lia.
  rewrite (wrap_in_range w Hw a Ha). reflexivity.
Qed.

Lemma signed_add_assoc (a b c : signed w) :
  e_add (e_add a b) c = e_add a (e_add b c).
Proof using Hw.
  cbn. rewrite wrap_add_l, wrap_add_r. do 2 f_equal. lia.
Qed.

Lemma signed_add_comm (a b : signed w) : e_add a b = e_add b a.
Proof. cbn. do 2 f_equal. lia. Qed.
End MachineRing.

Section MachineRingLaws.
Import vector_hpp.
Local Open Scope Z_scope.

(** X25: the route of [std::sqrt] on an integer, the conversion to
    [double], the square root there and the truncation of the result, gives
    the integer square root of every integer from [0] to [2 ^ 52], the
    largest [r >= 0] with [r * r <= n].  Beyond that it need not:
    for [2^54 + 2^28] it gives one more. *)
Theorem sqrt_route_is_integer_sqrt :
  (forall n : Z,
      0 <= n < 2 ^ 52 ->
      exists r, sqrt_via_double n = Some r
                /\ 0 <= r /\ r * r <= n < (r + 1) * (r + 1))
  /\ sqrt_via_double (2 ^ 54 + 2 ^ 28) = Some (2 ^ 27 + 1)
  /\ Z.sqrt (2 ^ 54 + 2 ^ 28) = 2 ^ 27.
Proof.
  split; [|split; vm_compute; reflexivity].
  intros n Hn. exists (Z.sqrt n).
  split; [apply sqrt_via_double_exact, Hn|].
  apply int_sqrt_bounds. lia.
Qed.

Lemma sqrt_route_is_integer_sqrt_witness :
  0 <= 2147395600 < 2 ^ 52
  /\ exists r, sqrt_via_double 2147395600 = Some r
               /\ 0 <= r /\ r * r <= 2147395600 < (r + 1) * (r + 1).
Proof.
  assert (H : 0 <= 2147395600 < 2 ^ 52) by (split; [discriminate|reflexivity]).
  split; [exact H|].
  exact (proj1 sqrt_route_is_integer_sqrt 2147395600 H).
Defined.

(** X26: on [int] and on [long long], with sums and differences that wrap
    around, translating a point by a vector and back returns the point,
    [(p + v) - v] and [(p - v) + v] being [p], and [q + (p - q)] is [p],
    whether or not a sum or difference on the way overflows: the largest
    [int] plus one is the most negative one, and that minus one the largest
    again. *)
Theorem int_translation_wraps_back :
  (forall (p q : point_hpp.Point c_int) (v : Vector c_int),
      point_fits 32 (point_values p) ->
      point_hpp.operator_minus (point_hpp.operator_plus p v) v = p
      /\ point_hpp.operator_plus (point_hpp.operator_minus p v) v = p
      /\ point_hpp.operator_plus q (point_hpp.operator_minus_point p q) = p)
  /\ (forall (p q : point_hpp.Point c_long_long) (v : Vector c_long_long),
        point_fits 64 (point_values p) ->
        point_hpp.operator_minus (point_hpp.operator_plus p v) v = p
        /\ point_hpp.operator_plus (point_hpp.operator_minus p v) v = p
        /\ point_hpp.operator_plus q (point_hpp.operator_minus_point p q) = p)
  /\ (let p := point_hpp.mkPoint (Signed 2147483647) (Signed 0) : point_hpp.Point c_int in
      let v := mkVector (Signed 1) (Signed 0) : Vector c_int in
      point_hpp.operator_plus p v = point_hpp.mkPoint (Signed (-2147483648)) (Signed 0)
      /\ point_hpp.operator_minus (point_hpp.operator_plus p v) v = p).
Proof.
  split; [|split; [|split; vm_compute; reflexivity]].
  - intros [px py] [qx qy] [vx vy] [Hx Hy]. cbn [point_hpp.x point_hpp.y point_values] in *.
    unfold point_hpp.operator_minus, point_hpp.operator_plus,
      point_hpp.operator_minus_point.
    cbn [point_hpp.x point_hpp.y x y].
    destruct (signed_add_sub 32 int_digits px vx Hx) as [-> ->].
    destruct (signed_add_sub 32 int_digits py vy Hy) as [-> ->].
    rewrite (signed_sub_add 32 int_digits px qx Hx),
            (signed_sub_add 32 int_digits py qy Hy).
    repeat split.
  - intros [px py] [qx qy] [vx vy] [Hx Hy]. cbn [point_hpp.x point_hpp.y point_values] in *.
    unfold point_hpp.operator_minus, point_hpp.operator_plus,
      point_hpp.operator_minus_point.
    cbn [point_hpp.x point_hpp.y x y].
    destruct (signed_add_sub 64 long_long_digits px vx Hx) as [-> ->].
    destruct (signed_add_sub 64 long_long_digits py vy Hy) as [-> ->].
    rewrite (signed_sub_add 64 long_long_digits px qx Hx),
            (signed_sub_add 64 long_long_digits py qy Hy).
    repeat split.
Qed.

Lemma int_translation_wraps_back_witness :
  let p := point_hpp.mkPoint (Signed 2147483647) (Signed (-5)) : point_hpp.Point c_int in
  let v := mkVector (Signed 7) (Signed (-2147483648)) : Vector c_int in
  point_fits 32 (point_values p)
  /\ point_hpp.operator_minus (point_hpp.operator_plus p v) v = p.
Proof.
  cbv zeta.
  assert (H : point_fits 32 (point_values
                (point_hpp.mkPoint (Signed 2147483647) (Signed (-5)) : point_hpp.Point c_int)))
    by (repeat split; vm_compute; discriminate).
  split; [exact H|].
  exact (proj1 (proj1 int_translation_wraps_back
                  (point_hpp.mkPoint (Signed 2147483647) (Signed (-5)))
                  (point_hpp.mkPoint (Signed 0) (Signed 0))
                  (mkVector (Signed 7) (Signed (-2147483648))) H)).
Defined.

(** X27: on [int] and on [long long], with sums that wrap around, the
    addition of vectors is associative and commutative, whether or not a
    sum overflows. *)
Theorem int_plus_wraps_assoc_comm :
  (forall a b c : Vector c_int,
      operator_plus (operator_plus a b) c = operator_plus a (operator_plus b c)
      /\ operator_plus a b = operator_plus b a)
  /\ (forall a b c : Vector c_long_long,
        operator_plus (operator_plus a b) c = operator_plus a (operator_plus b c)
        /\ operator_plus a b = operator_plus b a)
  /\ (let a := mkVector (Signed 2147483647) (Signed 1) : Vector c_int in
      let b := mkVector (Signed 1) (Signed 1) : Vector c_int in
      let c := mkVector (Signed (-1)) (Signed 1) : Vector c_int in
      operator_plus a b = mkVector (Signed (-2147483648)) (Signed 2)
      /\ operator_plus (operator_plus a b) c = mkVector (Signed 2147483647) (Signed 3)
      /\ operator_plus a (operator_plus b c) = mkVector (Signed 2147483647) (Signed 3)).
Proof.
  split; [|split; [|repeat split; vm_compute; reflexivity]].
  - intros a b c. unfold operator_plus. cbn [x y].
    rewrite !(signed_add_assoc 32 int_digits).
    rewrite (signed_add_comm 32 (x a) (x b)), (signed_add_comm 32 (y a) (y b)).
    split; reflexivity.
  - intros a b c. unfold operator_plus. cbn [x y].
    rewrite !(signed_add_assoc 64 long_long_digits).
    rewrite (signed_add_comm 64 (x a) (x b)), (signed_add_comm 64 (y a) (y b)).
    split; reflexivity.
Qed.
End MachineRingLaws.

(** ** [normalized] on every [int] vector *)

Section MachineNormalized.
Import vector_hpp.
Local Open Scope Z_scope.

(** The length of an [int] vector, whatever its members: the most negative
    [int] when the wrapped sum of the squares is negative, and its integer
    square root otherwise. *)
Lemma int_length_total (v : Vector c_int) :
  let s := wrap 32 (wrap 32 (value (x v) * value (x v))
                    + wrap 32 (value (y v) * value (y v))) in
  length v = Some (Signed (if s <? 0 then int_min 32 else Z.sqrt s))
  /\ (0 <= s -> Z.sqrt s <= 46340).
Proof.
  intros s. pose proof (wrap_fits 32 int_digits
    (wrap 32 (value (x v) * value (x v)) + wrap 32 (value (y v) * value (y v))))
    as [_ Hhi].
  fold s in Hhi. split.
  - unfold length. cbn [e_add e_mul e_sqrt signed_elem value]. fold s.
    destruct (Z.ltb_spec s 0) as [Hneg|Hpos]; [reflexivity|].
    rewrite sqrt_via_double_exact; [reflexivity|].
    split; [exact Hpos|apply int_max_small, Hhi].
  - intros Hpos. change 46340 with (Z.sqrt (int_max 32)).
    apply Z.sqrt_le_mono. exact Hhi.
Qed.

(** X28: on [int], as the machine computes it, [normalized] is defined on
    every vector, overflow or not: [length] returns a value, the zero vector
    is returned when that value is zero, and otherwise [v / length(v)],
    a division that is defined, its divisor being neither zero nor [-1]. *)
Theorem int_normalized_guards_division (v : Vector c_int) :
  exists l,
    length v = Some l
    /\ (value l = int_min 32 \/ 0 <= value l <= 46340)
    /\ (if value l =? 0 then normalized v = Some default
        else exists n, normalized v = Some n /\ operator_div v l = Some n).
Proof.
  destruct (int_length_total v) as [El Hs]. cbv zeta in El, Hs.
  set (s := wrap 32 (wrap 32 (value (x v) * value (x v))
                     + wrap 32 (value (y v) * value (y v)))) in *.
  set (l := if s <? 0 then int_min 32 else Z.sqrt s) in *.
  assert (Hl : l = int_min 32 \/ 0 <= l <= 46340).
  { unfold l. destruct (Z.ltb_spec s 0) as [|Hpos]; [left; reflexivity|].
    right. split; [apply Z.sqrt_nonneg|apply Hs, Hpos]. }
  exists (Signed l). split; [exact El|]. split; [exact Hl|].
  assert (En : normalized v
               = if l =? 0 then Some default else operator_div v (Signed l)).
  { unfold normalized. rewrite El. reflexivity. }
  rewrite En. cbn [value].
  destruct (Z.eqb_spec l 0) as [E|N]; [reflexivity|].
  assert (Hm : l <> -1).
  { destruct Hl as [->|Hl]; [discriminate|lia]. }
  rewrite (vector_div_exact 32 v (Signed l)); cbn [value]; [|exact N|tauto].
  eexists. split; reflexivity.
Qed.
End MachineNormalized.
